(** * The overlay merge cursor of erigon-lib ([kv/memdb/memory_mutation_cursor.go])

    A shallow embedding of [memoryMutationCursor]: the cursor that presents a
    persistent table (the base cursor, [kv.CursorDupSort]) and the pending
    writes of a [MemoryMutation] (the overlay cursor, [kv.RwCursorDupSort]) as
    one ordered table, hiding deleted keys and cleared tables.

    Layout: Go values ([[]byte], [bytes.Equal], [bytes.Compare], slicing,
    [append]); the interfaces of package [kv] the cursor consumes; the cursor
    itself, function by function; a list-backed cursor over a sorted table;
    then the theorems. *)

From Stdlib Require Import String List ZArith Lia Bool Sorted Arith Permutation.
From Stdlib.Init Require Import Byte.
From Stdlib.Strings Require Byte.
Import ListNotations.

(** ** Go values *)

(** A Go [[]byte]: [None] is the nil slice, [Some l] a non-nil slice holding
  [l].  Only contents are modelled: a slice's capacity is its length, so a
  slice expression reaching past the length panics. *)
Definition slice : Type := option (list byte).

Definition isNil (s : slice) : bool :=
match s with None => true | Some _ => false end.

Definition contents (s : slice) : list byte :=
match s with None => [] | Some l => l end.

(** Go's [len]. *)
Definition len (s : slice) : Z := Z.of_nat (length (contents s)).

(** Go's [error] interface value; [None] is the nil error. *)
Definition error : Type := string.

(** What a call does: it returns, or the goroutine panics. *)
Inductive outcome (A : Type) : Type :=
| Returned (a : A)
| Panicked (msg : string).
Arguments Returned {A} a.
Arguments Panicked {A} msg.

Definition obind {A B} (o : outcome A) (f : A -> outcome B) : outcome B :=
match o with
| Returned a => f a
| Panicked msg => Panicked msg
end.

(** Go's [int], 64 bits wide on the platforms the package is built for: the
  result of an arithmetic operation wraps around. *)
Definition wrapInt (z : Z) : Z := ((z + 2 ^ 63) mod 2 ^ 64 - 2 ^ 63)%Z.

(** [a - b] on two [int]s. *)
Definition intSub (a b : Z) : Z := wrapInt (a - b).

(** A slice has a capacity besides its length.  Beside the slice the model
  carries its room: the bytes its backing array holds between the slice's
  length and its capacity.  A nil slice has capacity zero. *)
Definition cap (s : slice) (room : list byte) : Z :=
match s with
| None => 0%Z
| Some l => Z.of_nat (length l + length room)
end.

(** [s[:n]]: panics unless [0 <= n <= cap(s)]; past the length of [s] the
  result takes the bytes of the room. *)
Definition sliceToCap (s : slice) (room : list byte) (n : Z) : outcome slice :=
if (n <? 0)%Z || (cap s room <? n)%Z
then Panicked "slice bounds out of range"
else Returned (match s with
               | None => None
               | Some l => Some (firstn (Z.to_nat n) (l ++ room))
               end).

(** [s[:n]] where [n <= len(s)] is known or [n] is negative: the capacity
  plays no part. *)
Definition sliceTo (s : slice) (n : Z) : outcome slice :=
if (n <? 0)%Z || (len s <? n)%Z
then Panicked "slice bounds out of range"
else Returned (match s with
               | None => None
               | Some l => Some (firstn (Z.to_nat n) l)
               end).

(** [append(s, t...)]: appending nothing gives [s] back, nil included. *)
Definition append (s t : slice) : slice :=
match contents t with
| [] => s
| _ :: _ => Some (contents s ++ contents t)
end.

(** Lexicographic comparison of byte strings, the order of every table. *)
Fixpoint compareBytes (a b : list byte) : comparison :=
match a, b with
| [], [] => Eq
| [], _ :: _ => Lt
| _ :: _, [] => Gt
| x :: a', y :: b' =>
    match N.compare (Byte.to_N x) (Byte.to_N y) with
    | Eq => compareBytes a' b'
    | c => c
    end
end.

(** Package [bytes]: a nil slice and an empty one are equal. *)
Module bytes.

Definition Equal (a b : slice) : bool :=
  if list_eq_dec Byte.byte_eq_dec (contents a) (contents b) then true else false.

Definition Compare (a b : slice) : Z :=
  match compareBytes (contents a) (contents b) with
  | Lt => (-1)%Z
  | Eq => 0%Z
  | Gt => 1%Z
  end.

End bytes.

(** ** Package [kv]: what the cursor consumes *)

(** The result triple [(key, value, err)] of a cursor call. *)
Definition kve : Type := (slice * slice * option error)%type.

Definition kveKey (r : kve) : slice := fst (fst r).
Definition kveValue (r : kve) : slice := snd (fst r).
Definition kveErr (r : kve) : option error := snd r.

Definition hasErr {A} (e : option A) : bool :=
match e with Some _ => true | None => false end.

Module kv.

(** [kv.TableCfgItem], the fields the cursor reads. *)
Record TableCfgItem : Type := {
  Flags : Z;
  AutoDupSortKeysConversion : bool;
  DupFromLen : Z;
  DupToLen : Z
}.

(** The zero value, what a Go map lookup gives for an absent table. *)
Definition zeroCfg : TableCfgItem :=
  {| Flags := 0; AutoDupSortKeysConversion := false;
     DupFromLen := 0; DupToLen := 0 |}.

(** [kv.TableCfg]: the registry, a map from table name to its entry. *)
Definition TableCfg : Type := string -> option TableCfgItem.

(** The interface [kv.CursorDupSort], as state passing: every call gives
    its results and the cursor after the call.  [stepsLeft] bounds how many
    more entries the stepping calls can reach (a table is finite and [Next],
    [NextDup] and [NextNoDup] only move forward); it is the fuel of the
    loops over the base cursor.  [valueRoom] is the room of the value the
    last call returned: what its backing array holds past its length. *)
Class CursorDupSort (C : Type) : Type := {
  First : C -> kve * C;
  Seek : slice -> C -> kve * C;
  SeekExact : slice -> C -> kve * C;
  Next : C -> kve * C;
  Last : C -> kve * C;
  Current : C -> kve * C;
  SeekBothRange : slice -> slice -> C -> (slice * option error) * C;
  NextDup : C -> kve * C;
  NextNoDup : C -> kve * C;
  stepsLeft : C -> nat;
  valueRoom : C -> list byte
}.

(** A stepping call that finds an entry leaves fewer steps. *)
Definition stepsLeftDecreases (C : Type) {cur : CursorDupSort C} : Prop :=
  forall c : C,
    (kveKey (fst (Next c)) <> None -> stepsLeft (snd (Next c)) < stepsLeft c) /\
    (kveKey (fst (NextDup c)) <> None -> stepsLeft (snd (NextDup c)) < stepsLeft c) /\
    (kveKey (fst (NextNoDup c)) <> None -> stepsLeft (snd (NextNoDup c)) < stepsLeft c).

(** [NextDup] gives a value only with its key. *)
Definition valuesHaveKeys (C : Type) {cur : CursorDupSort C} : Prop :=
  forall c : C, kveValue (fst (NextDup c)) <> None -> kveKey (fst (NextDup c)) <> None.

(** [kv.RwCursorDupSort]: the overlay's cursor also writes. *)
Class RwCursorDupSort (C : Type) : Type := {
  rwCursor :: CursorDupSort C;
  DeleteCurrentDuplicates : C -> option error * C
}.

End kv.

#[global] Existing Instance kv.rwCursor.

(** ** Package [memdb] *)

(** [NextType]: the three constants are the only values a caller passes, so
  the [default] arm of the switches in [getNextOnDb] has no counterpart. *)
Inductive NextType : Type := Normal | Dup | NoDup.

(** entry for the cursor *)
Record cursorEntry : Type := {
key : slice;
value : slice
}.

Definition emptyEntry : cursorEntry := {| key := None; value := None |}.

(** What the cursor reads of its [MemoryMutation]: the cleared tables and the
  deleted keys ([isEntryDeleted] looks up [string(key)], so a nil key and an
  empty one are the same key). *)
Record MemoryMutation : Type := {
isTableCleared : string -> bool;
isEntryDeleted : string -> list byte -> bool
}.

Section Cursor.

Context {DB MEM : Type}.
Context {dbCursor : kv.CursorDupSort DB}.
Context {rwMemCursor : kv.RwCursorDupSort MEM}.

(** [kv.DupSort], the dup-sort bit of a table's flags. *)
Variable DupSort : Z.
(** [kv.ChaindataTablesCfg]. *)
Variable ChaindataTablesCfg : kv.TableCfg.
(** [MemoryMutation.Delete(table, k)]: it records the deleted key and
    deletes from the overlay, which the overlay's cursor reads. *)
Variable mutationDelete :
  string -> slice -> MemoryMutation * MEM -> option error * (MemoryMutation * MEM).

(** cursor *)
Record memoryMutationCursor : Type := {
  cursor : DB;
  memCursor : MEM;
  isPrevFromDb : bool;
  currentDbEntry : cursorEntry;
  currentMemEntry : cursorEntry;
  mutation : MemoryMutation;
  table : string
}.

Definition setCursor (c : DB) (m : memoryMutationCursor) :=
  {| cursor := c; memCursor := memCursor m; isPrevFromDb := isPrevFromDb m;
     currentDbEntry := currentDbEntry m; currentMemEntry := currentMemEntry m;
     mutation := mutation m; table := table m |}.

Definition setMemCursor (c : MEM) (m : memoryMutationCursor) :=
  {| cursor := cursor m; memCursor := c; isPrevFromDb := isPrevFromDb m;
     currentDbEntry := currentDbEntry m; currentMemEntry := currentMemEntry m;
     mutation := mutation m; table := table m |}.

Definition setIsPrevFromDb (b : bool) (m : memoryMutationCursor) :=
  {| cursor := cursor m; memCursor := memCursor m; isPrevFromDb := b;
     currentDbEntry := currentDbEntry m; currentMemEntry := currentMemEntry m;
     mutation := mutation m; table := table m |}.

Definition setCurrentDbEntry (e : cursorEntry) (m : memoryMutationCursor) :=
  {| cursor := cursor m; memCursor := memCursor m; isPrevFromDb := isPrevFromDb m;
     currentDbEntry := e; currentMemEntry := currentMemEntry m;
     mutation := mutation m; table := table m |}.

Definition setCurrentMemEntry (e : cursorEntry) (m : memoryMutationCursor) :=
  {| cursor := cursor m; memCursor := memCursor m; isPrevFromDb := isPrevFromDb m;
     currentDbEntry := currentDbEntry m; currentMemEntry := e;
     mutation := mutation m; table := table m |}.

Definition setMutation (mu : MemoryMutation) (m : memoryMutationCursor) :=
  {| cursor := cursor m; memCursor := memCursor m; isPrevFromDb := isPrevFromDb m;
     currentDbEntry := currentDbEntry m; currentMemEntry := currentMemEntry m;
     mutation := mu; table := table m |}.

(** A method of the cursor: it reads and updates the receiver, and returns
    or panics. *)
Definition M (A : Type) : Type :=
  memoryMutationCursor -> outcome (A * memoryMutationCursor).

Definition ret {A} (a : A) : M A := fun m => Returned (a, m).

Definition bind {A B} (c : M A) (f : A -> M B) : M B :=
  fun m => match c m with
           | Returned (a, m') => f a m'
           | Panicked msg => Panicked msg
           end.

Definition panic {A} (msg : string) : M A := fun _ => Panicked msg.

Definition gets {A} (f : memoryMutationCursor -> A) : M A :=
  fun m => Returned (f m, m).

Definition modify (f : memoryMutationCursor -> memoryMutationCursor) : M unit :=
  fun m => Returned (tt, f m).

Definition liftOutcome {A} (o : outcome A) : M A :=
  fun m => match o with
           | Returned a => Returned (a, m)
           | Panicked msg => Panicked msg
           end.

(** A call on [m.cursor]. *)
Definition onCursor {A} (f : DB -> A * DB) : M A :=
  fun m => let (a, c) := f (cursor m) in Returned (a, setCursor c m).

(** A call on [m.memCursor]. *)
Definition onMemCursor {A} (f : MEM -> A * MEM) : M A :=
  fun m => let (a, c) := f (memCursor m) in Returned (a, setMemCursor c m).

Notation "x <- c ;; k" := (bind c (fun x => k))
  (at level 61, c at next level, right associativity).
Notation "' pat <- c ;; k" := (bind c (fun x => match x with pat => k end))
  (at level 61, pat pattern, c at next level, right associativity).
Notation "c ;;; k" := (bind c (fun _ => k))
  (at level 61, right associativity).

(** [kv.ChaindataTablesCfg[m.table]]: the entry (the zero value when the
    table is absent) and the [ok] flag. *)
Definition lookupCfg (t : string) : kv.TableCfgItem * bool :=
  match ChaindataTablesCfg t with
  | Some config => (config, true)
  | None => (kv.zeroCfg, false)
  end.

(** [value] comes with its room: the slice expression reaches past the
    length of a value that has spare capacity. *)
Definition convertAutoDupsort (t : string) (key value : slice) (room : list byte)
  : outcome slice :=
  let (config, ok) := lookupCfg t in
  (* If we do not have the configuration we assume it is not dupsorted *)
  if negb ok || negb (kv.AutoDupSortKeysConversion config) then Returned key
  else if negb (len key =? kv.DupToLen config)%Z then Returned key
  else obind (sliceToCap value room
                         (intSub (kv.DupFromLen config) (kv.DupToLen config)))
             (fun prefix => Returned (append key prefix)).

(** The base cursor's stepping call for a [NextType]. *)
Definition stepCursor (t : NextType) : M kve :=
  match t with
  | Normal => onCursor kv.Next
  | Dup => onCursor kv.NextDup
  | NoDup => onCursor kv.NextNoDup
  end.

(** The loop of [getNextOnDb]: while the entry is deleted, step again.
    The loop of the source has no bound; here [fuel] is one more than the
    steps the base cursor has left, which the loop never uses up when the
    base cursor keeps [kv.stepsLeftDecreases].  The value is converted
    with the room the base cursor gave it. *)
Fixpoint skipDeleted (fuel : nat) (t : NextType) (r : kve) : M kve :=
  let '(key, value, _) := r in
  if negb (isNil key) && negb (isNil value) then
    tbl <- gets table ;;
    mu <- gets mutation ;;
    room <- gets (fun m => kv.valueRoom (cursor m)) ;;
    ekey <- liftOutcome (convertAutoDupsort tbl key value room) ;;
    if isEntryDeleted mu tbl (contents ekey) then
      match fuel with
      | O => ret r
      | S fuel' =>
          r' <- stepCursor t ;;
          if hasErr (kveErr r') then ret r' else skipDeleted fuel' t r'
      end
    else ret r
  else ret r.

Definition getNextOnDb (t : NextType) : M kve :=
  r <- stepCursor t ;;
  if hasErr (kveErr r) then ret r
  else
    left <- gets (fun m => kv.stepsLeft (cursor m)) ;;
    skipDeleted (S left) t r.

(** Current return the current key and values the cursor is on. *)
Definition Current : M kve :=
  prev <- gets isPrevFromDb ;;
  if prev then onCursor kv.Current else onMemCursor kv.Current.

Definition skipIntersection (memKey memValue dbKey dbValue : slice) (t : NextType)
  : M kve :=
  tbl <- gets table ;;
  let (config, ok) := lookupCfg tbl in
  let dupsortOffset :=
    if ok && kv.AutoDupSortKeysConversion config
    then intSub (kv.DupFromLen config) (kv.DupToLen config) else 0%Z in
  (* Check for duplicates *)
  if bytes.Equal memKey dbKey then
    if (Z.land (kv.Flags config) DupSort =? 0)%Z then getNextOnDb t
    else if bytes.Equal memValue dbValue then getNextOnDb t
    else if negb (dupsortOffset =? 0)%Z
            && (dupsortOffset <=? len memValue)%Z
            && (dupsortOffset <=? len dbValue)%Z
    then
      memPrefix <- liftOutcome (sliceTo memValue dupsortOffset) ;;
      dbPrefix <- liftOutcome (sliceTo dbValue dupsortOffset) ;;
      if bytes.Equal memPrefix dbPrefix then getNextOnDb t
      else ret (dbKey, dbValue, None)
    else ret (dbKey, dbValue, None)
  else ret (dbKey, dbValue, None).

(** The comparison of [goForward]: does the base side supply the entry? *)
Definition dbIsSmaller (memKey memValue dbKey dbValue : slice) : bool :=
  if bytes.Equal memKey dbKey
  then negb (isNil dbValue)
       && (isNil memValue || (0 <? bytes.Compare memValue dbValue)%Z)
  else negb (isNil dbValue)
       && (isNil memKey || (0 <? bytes.Compare memKey dbKey)%Z).

Definition goForward (memKey memValue dbKey dbValue : slice) (t : NextType)
  : M kve :=
  if isNil memValue && isNil dbValue then ret (None, None, None)
  else
    '(dbKey, dbValue, err) <- skipIntersection memKey memValue dbKey dbValue t ;;
    if hasErr err then ret (None, None, err)
    else
      modify (setCurrentDbEntry {| key := dbKey; value := dbValue |}) ;;;
      modify (setCurrentMemEntry {| key := memKey; value := memValue |}) ;;;
      (* compare entries *)
      modify (setIsPrevFromDb (dbIsSmaller memKey memValue dbKey dbValue)) ;;;
      (if isNil dbValue then modify (setCurrentDbEntry emptyEntry) else ret tt) ;;;
      (if isNil memValue then modify (setCurrentMemEntry emptyEntry) else ret tt) ;;;
      prev <- gets isPrevFromDb ;;
      if prev then ret (dbKey, dbValue, None)
      else ret (memKey, memValue, None).

(** First move cursor to first position and return key and value accordingly. *)
Definition First : M kve :=
  '(memKey, memValue, err) <- onMemCursor kv.First ;;
  if hasErr err then ret (None, None, err)
  else
    tbl <- gets table ;;
    mu <- gets mutation ;;
    if isTableCleared mu tbl then
      modify (setIsPrevFromDb false) ;;;
      ret (memKey, memValue, err)
    else
      '(dbKey, dbValue, err) <- onCursor kv.First ;;
      if hasErr err then ret (None, None, err)
      else
        '(dbKey, dbValue, err) <-
          (if negb (isNil dbKey) && isEntryDeleted mu tbl (contents dbKey)
           then getNextOnDb Normal
           else ret (dbKey, dbValue, err)) ;;
        if hasErr err then ret (None, None, err)
        else goForward memKey memValue dbKey dbValue Normal.

(** The body shared by [Next], [NextDup] and [NextNoDup]: step the side
    that gave the last entry and merge with the other side's stored one. *)
Definition nextWith (t : NextType) (memStep : MEM -> kve * MEM) : M kve :=
  prev <- gets isPrevFromDb ;;
  if prev then
    '(k, v, err) <- getNextOnDb t ;;
    if hasErr err then ret (None, None, err)
    else
      mem <- gets currentMemEntry ;;
      goForward (key mem) (value mem) k v t
  else
    '(memK, memV, err) <- onMemCursor memStep ;;
    if hasErr err then ret (None, None, err)
    else
      db <- gets currentDbEntry ;;
      goForward memK memV (key db) (value db) t.

(** Next returns the next element of the mutation. *)
Definition Next : M kve := nextWith Normal kv.Next.

(** NextDup returns the next element of the mutation. *)
Definition NextDup : M kve := nextWith Dup kv.NextDup.

Definition NextNoDup : M kve := nextWith NoDup kv.NextNoDup.

(** Seek move pointer to a key at a certain position. *)
Definition Seek (seek : slice) : M kve :=
  tbl <- gets table ;;
  mu <- gets mutation ;;
  if isTableCleared mu tbl then onMemCursor (kv.Seek seek)
  else
    '(dbKey, dbValue, err) <- onCursor (kv.Seek seek) ;;
    if hasErr err then ret (None, None, err)
    else
      (* If the entry is marked as DB find one that is not *)
      '(dbKey, dbValue, err) <-
        (if negb (isNil dbKey) && isEntryDeleted mu tbl (contents dbKey)
         then getNextOnDb Normal
         else ret (dbKey, dbValue, err)) ;;
      if hasErr err then ret (None, None, err)
      else
        '(memKey, memValue, err) <- onMemCursor (kv.Seek seek) ;;
        if hasErr err then ret (None, None, err)
        else goForward memKey memValue dbKey dbValue Normal.

Definition SeekExact (seek : slice) : M kve :=
  '(memKey, memValue, err) <- onMemCursor (kv.SeekExact seek) ;;
  if hasErr err then ret (None, None, err)
  else if negb (isNil memKey) then
    modify (setCurrentMemEntry {| key := memKey; value := memValue |}) ;;;
    '(dbKey, dbValue, err) <- onCursor (kv.Seek seek) ;;
    modify (setCurrentDbEntry {| key := dbKey; value := dbValue |}) ;;;
    modify (setIsPrevFromDb false) ;;;
    ret (memKey, memValue, err)
  else
    '(dbKey, dbValue, err) <- onCursor (kv.SeekExact seek) ;;
    if hasErr err then ret (None, None, err)
    else
      tbl <- gets table ;;
      mu <- gets mutation ;;
      if negb (isNil dbKey) && negb (isTableCleared mu tbl)
         && negb (isEntryDeleted mu tbl (contents seek))
      then
        modify (setCurrentDbEntry {| key := dbKey; value := dbValue |}) ;;;
        '(memKey, memValue, err) <- onMemCursor (kv.Seek seek) ;;
        modify (setCurrentMemEntry {| key := memKey; value := memValue |}) ;;;
        modify (setIsPrevFromDb true) ;;;
        ret (dbKey, dbValue, err)
      else ret (None, None, None).

Definition PutNoDupData (key value : slice) : M (option error) :=
  panic "DeleteCurrentDuplicates Not implemented".

Definition Delete (k : slice) : M (option error) :=
  fun m =>
    let '(err, (mu, mem)) := mutationDelete (table m) k (mutation m, memCursor m) in
    Returned (err, setMemCursor mem (setMutation mu m)).

Definition DeleteCurrent : M (option error) :=
  panic "DeleteCurrent Not implemented".

Definition DeleteExact (k1 k2 : slice) : M (option error) :=
  panic "DeleteExact Not implemented".

(** The [for] loop of [DeleteCurrentDuplicates], entered with the results
    [v] and [err] of the last base call and the current [k].  The loop of
    the source has no bound; [fuel] bounds it here, and is never used up
    when the base cursor keeps [kv.stepsLeftDecreases] and
    [kv.valuesHaveKeys]. *)
Fixpoint deleteDups (fuel : nat) (k v : slice) (err : option error)
  : M (option error) :=
  if negb (isNil v) then
    if hasErr err then ret err
    else
      derr <- Delete k ;;
      if hasErr derr then ret derr
      else
        match fuel with
        | O => ret None
        | S fuel' =>
            '(k', v', err') <- onCursor kv.NextDup ;;
            deleteDups fuel' k' v' err'
        end
  else ret None.

(** The loop as [DeleteCurrentDuplicates] runs it: allowed one turn more
    than the steps the base cursor has left. *)
Definition deleteLoop (k v : slice) (err : option error) : M (option error) :=
  left <- gets (fun m => kv.stepsLeft (cursor m)) ;;
  deleteDups (S left) k v err.

Definition DeleteCurrentDuplicates : M (option error) :=
  '(k, _, err) <- onCursor kv.Current ;;
  if hasErr err then ret err
  else
    '(v, err) <- onCursor (kv.SeekBothRange k None) ;;
    lerr <- deleteLoop k v err ;;
    if hasErr lerr then ret lerr
    else
      '(dbK, _, err) <- onMemCursor kv.Current ;;
      if hasErr err then ret err
      else if (0 <? len dbK)%Z then onMemCursor kv.DeleteCurrentDuplicates
      else ret None.

(** Seek move pointer to a key at a certain position. *)
Definition SeekBothRange (key value : slice) : M (slice * option error) :=
  if isNil value then
    '(_, v, err) <- SeekExact key ;;
    ret (v, err)
  else
    '(dbValue, err) <- onCursor (kv.SeekBothRange key value) ;;
    if hasErr err then ret (None, err)
    else
      tbl <- gets table ;;
      mu <- gets mutation ;;
      '(dbValue, err) <-
        (if negb (isNil dbValue) then
           room <- gets (fun m => kv.valueRoom (cursor m)) ;;
           ekey <- liftOutcome (convertAutoDupsort tbl key dbValue room) ;;
           if isEntryDeleted mu tbl (contents ekey) then
             '(_, dbValue, err) <- getNextOnDb Dup ;;
             ret (dbValue, err)
           else ret (dbValue, err)
         else ret (dbValue, err)) ;;
      if hasErr err then ret (None, err)
      else
        '(memValue, err) <- onMemCursor (kv.SeekBothRange key value) ;;
        if hasErr err then ret (None, err)
        else
          '(_, retValue, err) <- goForward key memValue key dbValue Normal ;;
          ret (retValue, err).

Definition Last : M kve :=
  '(memKey, memValue, err) <- onMemCursor kv.Last ;;
  if hasErr err then ret (None, None, err)
  else
    '(dbKey, dbValue, err) <- onCursor kv.Last ;;
    if hasErr err then ret (None, None, err)
    else
      '(dbKey, dbValue, err) <- skipIntersection memKey memValue dbKey dbValue Normal ;;
      if hasErr err then ret (None, None, err)
      else
        modify (setCurrentDbEntry {| key := dbKey; value := dbValue |}) ;;;
        modify (setCurrentMemEntry {| key := memKey; value := memValue |}) ;;;
        tbl <- gets table ;;
        mu <- gets mutation ;;
        (* Basic checks *)
        if negb (isNil dbKey) && isEntryDeleted mu tbl (contents dbKey) then
          modify (setCurrentDbEntry emptyEntry) ;;;
          modify (setIsPrevFromDb false) ;;;
          ret (memKey, memValue, None)
        else if isNil dbValue then
          modify (setIsPrevFromDb false) ;;;
          ret (memKey, memValue, None)
        else if isNil memValue then
          modify (setIsPrevFromDb true) ;;;
          ret (dbKey, dbValue, None)
        else
          (* Check which one is last and return it *)
          let keyCompare := bytes.Compare memKey dbKey in
          if (keyCompare =? 0)%Z then
            if (0 <? bytes.Compare memValue dbValue)%Z then
              modify (setCurrentDbEntry emptyEntry) ;;;
              modify (setIsPrevFromDb false) ;;;
              ret (memKey, memValue, None)
            else
              modify (setCurrentMemEntry emptyEntry) ;;;
              modify (setIsPrevFromDb true) ;;;
              ret (dbKey, dbValue, None)
          else if (0 <? keyCompare)%Z then
            modify (setCurrentDbEntry emptyEntry) ;;;
            modify (setIsPrevFromDb false) ;;;
            ret (memKey, memValue, None)
          else
            modify (setCurrentMemEntry emptyEntry) ;;;
            modify (setIsPrevFromDb true) ;;;
            ret (dbKey, dbValue, None).

Definition Prev : M kve := panic "Prev is not implemented!".

Definition Count : M (Z * option error) := panic "Not implemented".

Definition FirstDup : M (slice * option error) := panic "Not implemented".

Definition LastDup : M (slice * option error) := panic "Not implemented".

Definition CountDuplicates : M (Z * option error) := panic "Not implemented".

Definition SeekBothExact (key value : slice) : M kve :=
  panic "SeekBothExact Not implemented".

End Cursor.

Arguments memoryMutationCursor DB MEM : clear implicits.

(** ** A cursor over a sorted list of rows *)

(** A row of a table: key and value. *)
Definition row : Type := (list byte * list byte)%type.

Definition bytesEqb (a b : list byte) : bool :=
  if list_eq_dec Byte.byte_eq_dec a b then true else false.

Definition bytesLeb (a b : list byte) : bool :=
  match compareBytes a b with Gt => false | _ => true end.

(** The index of the first row satisfying [p], the length when none does. *)
Fixpoint firstIdx (p : row -> bool) (rows : list row) : nat :=
  match rows with
  | [] => 0
  | r :: rs => if p r then 0 else S (firstIdx p rs)
  end.

(** The same among the rows from index [i] on. *)
Definition firstIdxFrom (p : row -> bool) (rows : list row) (i : nat) : nat :=
  i + firstIdx p (skipn i rows).

(** What a cursor call returns at index [i]: the row there, nil past the end. *)
Definition rowAt (rows : list row) (i : nat) : kve :=
  match nth_error rows i with
  | Some (k, v) => (Some k, Some v, None)
  | None => (None, None, None)
  end.

(** Modelled from the spec: the implementations of [kv.CursorDupSort] behind
    the base cursor and the overlay cursor are not part of this file's
    source.  Following sections 2 and 3 of the specification a cursor is an
    ordered scan over a table, the table is its rows in key order (and value
    order within a key), and the calls are: first and last row; next row;
    next row of the same key; next row of a different key; first row at or
    after a key; the row of exactly a key; within a key the first row at or
    after a value.  [lcPos] is [None] before the first positioning call and
    the length of the table once the scan has run off its end; a lookup that
    finds nothing leaves the position alone; no call fails; a value comes
    with no spare capacity. *)
Record listCursor : Type := {
  lcRows : list row;
  lcPos : option nat
}.

Definition lcMoveTo (i : nat) (c : listCursor) : kve * listCursor :=
  (rowAt (lcRows c) i,
   {| lcRows := lcRows c; lcPos := Some (Nat.min i (length (lcRows c))) |}).

Definition lcFirst (c : listCursor) : kve * listCursor := lcMoveTo 0 c.

Definition lcLast (c : listCursor) : kve * listCursor :=
  lcMoveTo (length (lcRows c) - 1) c.

Definition lcNext (c : listCursor) : kve * listCursor :=
  match lcPos c with
  | None => lcMoveTo 0 c
  | Some i => lcMoveTo (S i) c
  end.

Definition lcCurrent (c : listCursor) : kve * listCursor :=
  match lcPos c with
  | None => ((None, None, None), c)
  | Some i => (rowAt (lcRows c) i, c)
  end.

Definition lcNextDup (c : listCursor) : kve * listCursor :=
  match lcPos c with
  | None => ((None, None, None), c)
  | Some i =>
      match nth_error (lcRows c) i, nth_error (lcRows c) (S i) with
      | Some (k, _), Some (k', _) =>
          if bytesEqb k k' then lcMoveTo (S i) c else ((None, None, None), c)
      | _, _ => ((None, None, None), c)
      end
  end.

Definition lcNextNoDup (c : listCursor) : kve * listCursor :=
  match lcPos c with
  | None => lcMoveTo 0 c
  | Some i =>
      match nth_error (lcRows c) i with
      | Some (k, _) =>
          lcMoveTo (firstIdxFrom (fun r => negb (bytesEqb (fst r) k)) (lcRows c) (S i)) c
      | None => ((None, None, None), c)
      end
  end.

Definition lcSeek (seek : slice) (c : listCursor) : kve * listCursor :=
  lcMoveTo (firstIdx (fun r => bytesLeb (contents seek) (fst r)) (lcRows c)) c.

Definition lcSeekExact (seek : slice) (c : listCursor) : kve * listCursor :=
  let i := firstIdx (fun r => bytesEqb (fst r) (contents seek)) (lcRows c) in
  if i <? length (lcRows c) then lcMoveTo i c else ((None, None, None), c).

Definition lcSeekBothRange (k v : slice) (c : listCursor)
  : (slice * option error) * listCursor :=
  let i := firstIdx (fun r => bytesEqb (fst r) (contents k)
                              && bytesLeb (contents v) (snd r)) (lcRows c) in
  if i <? length (lcRows c)
  then let (r, c') := lcMoveTo i c in ((kveValue r, None), c')
  else ((None, None), c).

Definition lcStepsLeft (c : listCursor) : nat :=
  match lcPos c with
  | None => S (length (lcRows c))
  | Some i => length (lcRows c) - i
  end.

(** Modelled from the spec: [DeleteCurrentDuplicates] of the overlay's own
    cursor, which is not part of this file's source: all rows of the current
    key go, and the cursor stands where they were. *)
Definition lcDeleteCurrentDuplicates (c : listCursor) : option error * listCursor :=
  match lcPos c with
  | None => (None, c)
  | Some i =>
      match nth_error (lcRows c) i with
      | Some (k, _) =>
          (None,
           {| lcRows := filter (fun r => negb (bytesEqb (fst r) k)) (lcRows c);
              lcPos := Some (firstIdx (fun r => bytesEqb (fst r) k) (lcRows c)) |})
      | None => (None, c)
      end
  end.

(** Modelled from the spec: [MemoryMutation.Delete], which is not part of this
    file's source (section 4.6: it adds a tombstone, and the overlay drops
    its rows of that key). *)
Definition listDelete (t : string) (k : slice) (s : MemoryMutation * listCursor)
  : option error * (MemoryMutation * listCursor) :=
  let (mu, mem) := s in
  let keep := fun r : row => negb (bytesEqb (fst r) (contents k)) in
  (None,
   ({| isTableCleared := isTableCleared mu;
       isEntryDeleted := fun t' key =>
         (String.eqb t' t && bytesEqb key (contents k)) || isEntryDeleted mu t' key |},
    {| lcRows := filter keep (lcRows mem);
       lcPos := option_map (fun i => length (filter keep (firstn i (lcRows mem))))
                           (lcPos mem) |})).

#[global] Instance listCursorDupSort : kv.CursorDupSort listCursor := {
  kv.First := lcFirst;
  kv.Seek := lcSeek;
  kv.SeekExact := lcSeekExact;
  kv.Next := lcNext;
  kv.Last := lcLast;
  kv.Current := lcCurrent;
  kv.SeekBothRange := lcSeekBothRange;
  kv.NextDup := lcNextDup;
  kv.NextNoDup := lcNextNoDup;
  kv.stepsLeft := lcStepsLeft;
  kv.valueRoom := fun _ => []
}.

#[global] Instance listRwCursorDupSort : kv.RwCursorDupSort listCursor := {
  kv.rwCursor := listCursorDupSort;
  kv.DeleteCurrentDuplicates := lcDeleteCurrentDuplicates
}.

(** The cursor over two tables, as [MemoryMutation.makeCursor] leaves it: both
    cursors unpositioned and every other field at its zero value. *)
Definition newCursor (base overlay : list row) (mu : MemoryMutation) (t : string)
  : memoryMutationCursor listCursor listCursor :=
  {| cursor := {| lcRows := base; lcPos := None |};
     memCursor := {| lcRows := overlay; lcPos := None |};
     isPrevFromDb := false;
     currentDbEntry := emptyEntry;
     currentMemEntry := emptyEntry;
     mutation := mu;
     table := t |}.

(** ** Scans *)

Section Scans.

Context {DB MEM : Type}.
Context {dbCursor : kv.CursorDupSort DB}.
Context {rwMemCursor : kv.RwCursorDupSort MEM}.
Variable DupSort : Z.
Variable ChaindataTablesCfg : kv.TableCfg.

(** The results of [n] successive [Next] calls; a panic ends the run. *)
Fixpoint runNexts (n : nat) (m : memoryMutationCursor DB MEM) : list kve :=
  match n with
  | O => []
  | S n' =>
      match Next DupSort ChaindataTablesCfg m with
      | Returned (r, m') => r :: runNexts n' m'
      | Panicked _ => []
      end
  end.

(** The results of [First] and then [n] times [Next]. *)
Definition runFirstNexts (n : nat) (m : memoryMutationCursor DB MEM) : list kve :=
  match First DupSort ChaindataTablesCfg m with
  | Returned (r, m') => r :: runNexts n m'
  | Panicked _ => []
  end.

(** The entries among results: those with a non-nil key. *)
Definition entriesOf (rs : list kve) : list row :=
  flat_map (fun r => match kveKey r with
                     | Some k => [(k, contents (kveValue r))]
                     | None => []
                     end) rs.

(** [Next] until it returns the nil key: the entries returned before that,
    when a call returns the nil key with no error within [fuel] calls;
    nothing when a call panics or returns an error, or the calls run out. *)
Fixpoint scanNexts (fuel : nat) (m : memoryMutationCursor DB MEM)
  : option (list row) :=
  match fuel with
  | O => None
  | S fuel' =>
      match Next DupSort ChaindataTablesCfg m with
      | Returned ((Some k, v, None), m') =>
          option_map (cons (k, contents v)) (scanNexts fuel' m')
      | Returned ((None, _, None), _) => Some []
      | _ => None
      end
  end.

(** The full scan: [First], then [Next] until the nil key. *)
Definition scan (fuel : nat) (m : memoryMutationCursor DB MEM)
  : option (list row) :=
  match First DupSort ChaindataTablesCfg m with
  | Returned ((Some k, v, None), m') =>
      option_map (cons (k, contents v)) (scanNexts fuel m')
  | Returned ((None, _, None), _) => Some []
  | _ => None
  end.

End Scans.

(** ** The vocabulary of the statements *)

Section Vocabulary.

Context {DB MEM : Type}.
Variable DupSort : Z.
Variable ChaindataTablesCfg : kv.TableCfg.

(** The registry entry the cursor works with: the zero entry for a table
    the registry does not have. *)
Definition tableConfig (t : string) : kv.TableCfgItem :=
  fst (lookupCfg ChaindataTablesCfg t).

(** The number of value bytes that belong to the key of an auto-dupsort
    table: [DupFromLen - DupToLen], an [int]. *)
Definition dupOffset (config : kv.TableCfgItem) : Z :=
  intSub (kv.DupFromLen config) (kv.DupToLen config).

(** Whether the registry has table [t] as dup-sort. *)
Definition isDupSortTable (t : string) : bool :=
  negb (Z.land (kv.Flags (tableConfig t)) DupSort =? 0)%Z.

(** These nine methods panic, whatever the state of the cursor. *)
Definition panicsAlways {A} (c : @M DB MEM A) : Prop :=
  forall m : memoryMutationCursor DB MEM, exists msg, c m = Panicked msg.

(** The value prefixes collide: the table is auto-dupsort with a non-zero
    offset, both values hold at least that many bytes, and those bytes are
    the same. *)
Definition prefixesCollide (config : kv.TableCfgItem) (memValue dbValue : slice) : Prop :=
  kv.AutoDupSortKeysConversion config = true /\
  dupOffset config <> 0%Z /\
  (dupOffset config <= len memValue)%Z /\
  (dupOffset config <= len dbValue)%Z /\
  firstn (Z.to_nat (dupOffset config)) (contents memValue) =
  firstn (Z.to_nat (dupOffset config)) (contents dbValue).

(** The two candidates intersect: equal keys, and the table is not
    dup-sort, or the values are equal, or their prefixes collide. *)
Definition candidatesIntersect (config : kv.TableCfgItem)
           (memKey memValue dbKey dbValue : slice) : Prop :=
  contents memKey = contents dbKey /\
  (Z.land (kv.Flags config) DupSort = 0%Z \/
   contents memValue = contents dbValue \/
   prefixesCollide config memValue dbValue).

(** The condition of section 4.3 in the specification's words: as
    [candidatesIntersect], but the prefix rule asks nothing of the offset. *)
Definition specCandidatesIntersect (config : kv.TableCfgItem)
           (memKey memValue dbKey dbValue : slice) : Prop :=
  contents memKey = contents dbKey /\
  (Z.land (kv.Flags config) DupSort = 0%Z \/
   contents memValue = contents dbValue \/
   (kv.AutoDupSortKeysConversion config = true /\
    (dupOffset config <= len memValue)%Z /\
    (dupOffset config <= len dbValue)%Z /\
    firstn (Z.to_nat (dupOffset config)) (contents memValue) =
    firstn (Z.to_nat (dupOffset config)) (contents dbValue))).

(** The base side wins, in the specification's words (section 4.4). *)
Definition baseWins (memKey memValue dbKey dbValue : slice) : Prop :=
  (contents memKey = contents dbKey ->
   dbValue <> None /\
   (memValue = None \/ compareBytes (contents memValue) (contents dbValue) = Gt)) /\
  (contents memKey <> contents dbKey ->
   dbValue <> None /\
   (memKey = None \/ compareBytes (contents memKey) (contents dbKey) = Gt)).

End Vocabulary.

(** ** The order of a table *)

Definition bytesLt (a b : list byte) : Prop := compareBytes a b = Lt.

Definition bytesLe (a b : list byte) : Prop := compareBytes a b <> Gt.

(** Rows in key order, and in value order within a key. *)
Definition rowLt (a b : row) : Prop :=
  bytesLt (fst a) (fst b) \/ (fst a = fst b /\ bytesLt (snd a) (snd b)).

Definition rowLe (a b : row) : Prop :=
  bytesLt (fst a) (fst b) \/ (fst a = fst b /\ bytesLe (snd a) (snd b)).

Definition keyLt (a b : row) : Prop := bytesLt (fst a) (fst b).

(** A table's rows: strictly increasing, by key and value when the table is
    dup-sort, by key alone when it is not. *)
Definition tableOrdered (dupsort : bool) (rows : list row) : Prop :=
  StronglySorted (if dupsort then rowLt else keyLt) rows.

(** ** What a scan over two tables keeps true *)

Section ScanInvariants.

Variables base overlay : list row.
Variable t : string.

(** The base cursor at index [i], the overlay cursor at index [i]. *)
Definition dbAt (i : nat) : listCursor := {| lcRows := base; lcPos := Some i |}.
Definition memAt (i : nat) : listCursor := {| lcRows := overlay; lcPos := Some i |}.

(** The entry the cursor stores for the row at index [i]. *)
Definition entryAt (rows : list row) (i : nat) : cursorEntry :=
  {| key := kveKey (rowAt rows i); value := kveValue (rowAt rows i) |}.

(** Every row of [rows] from index [i] on is at or after [y]. *)
Definition lowerBound (y : row) (rows : list row) (i : nat) : Prop :=
  forall j r, i <= j -> nth_error rows j = Some r -> rowLe y r.

(** Both cursors stand on the tables, and the stored entries are the rows
    under them. *)
Definition synced (m : memoryMutationCursor listCursor listCursor) (dpos mpos : nat) : Prop :=
  cursor m = dbAt dpos /\ memCursor m = memAt mpos /\
  dpos <= length base /\ mpos <= length overlay /\
  currentDbEntry m = entryAt base dpos /\
  currentMemEntry m = entryAt overlay mpos.

(** The scan has returned [y]: what is left on either side is at or after it. *)
Definition Track (m : memoryMutationCursor listCursor listCursor) (y : row) : Prop :=
  exists dpos mpos,
    synced m dpos mpos /\ lowerBound y base dpos /\ lowerBound y overlay mpos.

(** The scan of a cleared table has returned the overlay row [y]; the base
    cursor has not been asked. *)
Definition CTrack (m : memoryMutationCursor listCursor listCursor) (y : row) : Prop :=
  exists i,
    isPrevFromDb m = false /\ memCursor m = memAt i /\
    nth_error overlay i = Some y /\
    currentDbEntry m = emptyEntry /\ table m = t.

(** The scan has returned the nil entry. *)
Definition Ended (m : memoryMutationCursor listCursor listCursor) : Prop :=
  (isPrevFromDb m = true /\ cursor m = dbAt (length base) /\
   value (currentMemEntry m) = None) \/
  (isPrevFromDb m = false /\ memCursor m = memAt (length overlay) /\
   value (currentDbEntry m) = None).

(** Both cursors have run off their tables; the stored entries are
    whatever the cursor held before. *)
Definition Drained (m : memoryMutationCursor listCursor listCursor) : Prop :=
  cursor m = dbAt (length base) /\ memCursor m = memAt (length overlay).

(** The scan so far: the last entry returned and the cursor after it. *)
Definition Scanning (m : memoryMutationCursor listCursor listCursor) (y : row) : Prop := Track m y \/ CTrack m y.

End ScanInvariants.

(** ** The merge of two tables *)

Section MergeOfTables.

Variable DupSort : Z.
Variable config : kv.TableCfgItem.

(** The test of [skipIntersection] on two candidates. *)
Definition intersectsb (memKey memValue dbKey dbValue : slice) : bool :=
  let dupsortOffset :=
    if kv.AutoDupSortKeysConversion config then dupOffset config else 0%Z in
  bytes.Equal memKey dbKey
  && ((Z.land (kv.Flags config) DupSort =? 0)%Z
      || bytes.Equal memValue dbValue
      || (negb (dupsortOffset =? 0)%Z
          && (dupsortOffset <=? len memValue)%Z
          && (dupsortOffset <=? len dbValue)%Z
          && bytesEqb (firstn (Z.to_nat dupsortOffset) (contents memValue))
                      (firstn (Z.to_nat dupsortOffset) (contents dbValue)))).

(** The number of value bytes the prefix rule compares. *)
Definition prefixLen : nat :=
  Z.to_nat (if kv.AutoDupSortKeysConversion config then dupOffset config else 0%Z).

(** Whether the prefix rule is on. *)
Definition prefixRule : bool :=
  negb ((if kv.AutoDupSortKeysConversion config then dupOffset config else 0%Z) =? 0)%Z.

(** Two rows intersect: the overlay's replaces the base's. *)
Definition rowsIntersect (a b : row) : bool :=
  intersectsb (Some (fst a)) (Some (snd a)) (Some (fst b)) (Some (snd b)).

(** The candidate a side offers: its first row, nil when it has none. *)
Definition candOf (rows : list row) : slice * slice :=
  match rows with
  | [] => (None, None)
  | (k, v) :: _ => (Some k, Some v)
  end.

(** The merge the scan performs, on the rows the overlay has left ([mem])
    and the live rows the base has left ([db]): one intersection skip, then
    the smaller candidate, the overlay's on a tie.  [fuel] bounds the number
    of rows returned. *)
Fixpoint mergeRows (fuel : nat) (mem db : list row) : list row :=
  match fuel with
  | O => []
  | S fuel' =>
      let '(mk, mv) := candOf mem in
      let '(dk, dv) := candOf db in
      if isNil mv && isNil dv then []
      else
        let db1 := if intersectsb mk mv dk dv then tl db else db in
        let '(dk1, dv1) := candOf db1 in
        if dbIsSmaller mk mv dk1 dv1 then
          match db1 with
          | d :: db2 => d :: mergeRows fuel' mem db2
          | [] => []
          end
        else
          match mem with
          | m :: mem' => m :: mergeRows fuel' mem' db1
          | [] => []
          end
  end.

(** No overlay row intersects the base row [d]. *)
Definition notShadowed (mem : list row) (d : row) : bool :=
  negb (existsb (fun o => rowsIntersect o d) mem).

(** No two rows of a table intersect. *)
Definition collisionFree (rows : list row) : Prop :=
  StronglySorted (fun a b => rowsIntersect a b = false) rows.

End MergeOfTables.

Section LiveRows.

Variable ChaindataTablesCfg : kv.TableCfg.
Variable mu : MemoryMutation.
Variable t : string.

(** The key the tombstone check of [getNextOnDb] looks up for a row (the raw
    key should the conversion panic). *)
Definition effectiveKey (r : row) : list byte :=
  match convertAutoDupsort ChaindataTablesCfg t (Some (fst r)) (Some (snd r)) [] with
  | Returned k => contents k
  | Panicked _ => fst r
  end.

(** The row is not deleted, under its effective key. *)
Definition liveb (r : row) : bool := negb (isEntryDeleted mu t (effectiveKey r)).

(** The conversion does not panic on the row: its value is long enough. *)
Definition convertible (r : row) : Prop :=
  kv.AutoDupSortKeysConversion (tableConfig ChaindataTablesCfg t) = true ->
  len (Some (fst r)) = kv.DupToLen (tableConfig ChaindataTablesCfg t) ->
  (dupOffset (tableConfig ChaindataTablesCfg t) <= len (Some (snd r)))%Z.

(** The base rows [First] leaves to the merge: it checks the first row under
    its raw key, and the rows after it under their effective keys. *)
Definition dbFirst (base : list row) : list row :=
  match base with
  | [] => []
  | r :: rest =>
      if isEntryDeleted mu t (fst r) then filter liveb rest
      else r :: filter liveb rest
  end.

(** The full scan in the specification's words (section 8, merge
    equivalence): the overlay alone when the table is cleared, otherwise the
    base rows whose effective key is not deleted together with the overlay
    rows. *)
Definition specScan (base overlay : list row) : list row :=
  if isTableCleared mu t then overlay
  else filter liveb base ++ overlay.

(** The same with the overlay replacing the base rows it intersects. *)
Definition specScanMerged (DupSort : Z) (base overlay : list row) : list row :=
  if isTableCleared mu t then overlay
  else overlay
       ++ filter (fun r => liveb r
                           && notShadowed DupSort (tableConfig ChaindataTablesCfg t) overlay r)
                 base.

(** What the scan of the code merges: the same, of the base rows [First]
    leaves to the merge. *)
Definition keptScanMerged (DupSort : Z) (base overlay : list row) : list row :=
  if isTableCleared mu t then overlay
  else overlay
       ++ filter (notShadowed DupSort (tableConfig ChaindataTablesCfg t) overlay)
                 (dbFirst base).

(** [First] decides on the first row of the base as the calls of [Next]
    decide on the rows after it. *)
Definition firstRowAgrees (base : list row) : Prop :=
  forall r, nth_error base 0 = Some r ->
            isEntryDeleted mu t (fst r) = negb (liveb r).

End LiveRows.

(** ** What an exact scan keeps true *)

Section ScanViews.

Variable ChaindataTablesCfg : kv.TableCfg.
Variable mu : MemoryMutation.
Variable t : string.
Variables base overlay : list row.

(** The index of the first live row of the base at or after index [i]. *)
Definition liveIdx (i : nat) : nat :=
  firstIdxFrom (liveb ChaindataTablesCfg mu t) base i.

(** The live rows of the base from index [i] on. *)
Definition liveRowsFrom (i : nat) : list row :=
  filter (liveb ChaindataTablesCfg mu t) (skipn i base).

(** What the base side has left when its cursor stands at index [j]: nothing
    at the end of the table, otherwise the row there and the live rows after
    it. *)
Definition dbView (j : nat) (db : list row) : Prop :=
  (j = length base /\ db = []) \/
  (exists r, nth_error base j = Some r /\ db = r :: liveRowsFrom (S j)).

(** The scan stands between two calls with [mem] left on the overlay side and
    [db] on the base side: the side that gave the last entry is still to be
    stepped, the other side's stored entry is its first row left. *)
Definition pending (m : memoryMutationCursor listCursor listCursor)
           (mem db : list row) : Prop :=
  exists dpos mpos,
    synced base overlay m dpos mpos /\ mutation m = mu /\ table m = t /\
    if isPrevFromDb m
    then mem = skipn mpos overlay /\ db = liveRowsFrom (S dpos)
    else mem = skipn (S mpos) overlay /\ dbView dpos db.

(** What a merge step that returned [r] has done with the rows left: nothing
    is left and it returned the nil entry; or, after one intersection skip,
    it returned the base's first row left when that is the smaller one, and
    otherwise the overlay's (the nil entry when the overlay has none). *)
Definition stepsAs (DupSort : Z)
           (r : outcome (kve * memoryMutationCursor listCursor listCursor))
           (mem db : list row) : Prop :=
  let config := tableConfig ChaindataTablesCfg t in
  let mk := fst (candOf mem) in
  let mv := snd (candOf mem) in
  if isNil mv && isNil (snd (candOf db)) then
    exists m', r = Returned ((None, None, None), m')
  else
    let db1 :=
      if intersectsb DupSort config mk mv (fst (candOf db)) (snd (candOf db))
      then tl db else db in
    if dbIsSmaller mk mv (fst (candOf db1)) (snd (candOf db1)) then
      exists d db2 m',
        db1 = d :: db2 /\
        r = Returned ((Some (fst d), Some (snd d), None), m') /\
        pending m' mem db2
    else
      match mem with
      | [] => exists m', r = Returned ((None, None, None), m')
      | o :: mem' =>
          exists m',
            r = Returned ((Some (fst o), Some (snd o), None), m') /\
            pending m' mem' db1
      end.

End ScanViews.

(** ** Tables of the examples *)

(** The dup-sort bit as package [kv] has it. *)
Definition dupSortBit : Z := 4.

(** A registry with a dup-sort table, an auto-dupsort table that moves three
    value bytes into two-byte keys, and an auto-dupsort table whose two
    lengths are the same; every other table is absent. *)
Definition exampleCfg : kv.TableCfg :=
  fun t =>
    if String.eqb t "Dups" then
      Some {| kv.Flags := 4; kv.AutoDupSortKeysConversion := false;
              kv.DupFromLen := 0; kv.DupToLen := 0 |}
    else if String.eqb t "AutoDups" then
      Some {| kv.Flags := 4; kv.AutoDupSortKeysConversion := true;
              kv.DupFromLen := 5; kv.DupToLen := 2 |}
    else if String.eqb t "SameLen" then
      Some {| kv.Flags := 4; kv.AutoDupSortKeysConversion := true;
              kv.DupFromLen := 2; kv.DupToLen := 2 |}
    else None.

(** A mutation that has (or has not) cleared every table and has deleted the
    keys of a list. *)
Definition mutationOf (cleared : bool) (deleted : list (list byte)) : MemoryMutation :=
  {| isTableCleared := fun _ => cleared;
     isEntryDeleted := fun _ k => existsb (bytesEqb k) deleted |}.

Definition keyA : list byte := [x61].

Definition keyB : list byte := [x62].

Definition keyK : list byte := [x6b].

Definition keyX : list byte := [x78].

Definition keyAB : list byte := [x41; x42].

Definition valCDEFG : list byte := [x43; x44; x45; x46; x47].

Definition keyABCDE : list byte := [x41; x42; x43; x44; x45].

(** The rows of an auto-dupsort table: the effective key of the first is
    [ABCDE]. *)
Definition deletedFirstBase : list row := [(keyAB, valCDEFG); (keyX, [x01])].

(** An auto-dupsort table whose first row is deleted under its effective key. *)
Definition deletedFirstRow : memoryMutationCursor listCursor listCursor :=
  newCursor deletedFirstBase [] (mutationOf false [keyABCDE]) "AutoDups".

(** The same rows after one more, so that the deleted row is met by [Next]. *)
Definition deletedSecondRow : memoryMutationCursor listCursor listCursor :=
  newCursor [(keyA, [x01]); (keyAB, valCDEFG); (keyX, [x01])] []
            (mutationOf false [keyABCDE]) "AutoDups".

(** A cursor on a dup-sort table whose two auto-dupsort lengths are equal:
    the same key on both sides, two values. *)
Definition sameLenCursor : memoryMutationCursor listCursor listCursor :=
  {| cursor := {| lcRows := [(keyK, keyB); (keyX, keyA)]; lcPos := Some 0 |};
     memCursor := {| lcRows := [(keyK, keyA)]; lcPos := Some 0 |};
     isPrevFromDb := false;
     currentDbEntry := emptyEntry;
     currentMemEntry := emptyEntry;
     mutation := mutationOf false [];
     table := "SameLen" |}.

(** ** Cursors of the examples *)

Definition dupsBase : list row := [(keyK, [x01]); (keyK, [x03])].

Definition dupsOverlay : list row := [(keyK, [x02])].

(** A cursor standing on the first rows of the dup-sort table. *)
Definition dupsCursor : memoryMutationCursor listCursor listCursor :=
  {| cursor := {| lcRows := dupsBase; lcPos := Some 0 |};
     memCursor := {| lcRows := dupsOverlay; lcPos := Some 0 |};
     isPrevFromDb := true;
     currentDbEntry := {| key := Some keyK; value := Some [x01] |};
     currentMemEntry := {| key := Some keyK; value := Some [x02] |};
     mutation := mutationOf false [];
     table := "Dups" |}.

(** A cursor standing on the first rows of an auto-dupsort table: both
    values start with [CDE]. *)
Definition autoDupsCursor : memoryMutationCursor listCursor listCursor :=
  {| cursor := {| lcRows := [(keyAB, valCDEFG); (keyX, [x01])]; lcPos := Some 0 |};
     memCursor := {| lcRows := [(keyAB, [x43; x44; x45])]; lcPos := Some 0 |};
     isPrevFromDb := false;
     currentDbEntry := emptyEntry;
     currentMemEntry := emptyEntry;
     mutation := mutationOf false [];
     table := "AutoDups" |}.

(** A cleared table whose cursor still holds the base row [(a, 01)] from
    before the clear. *)
Definition staleCursor : memoryMutationCursor listCursor listCursor :=
  {| cursor := {| lcRows := [(keyA, [x01])]; lcPos := Some 0 |};
     memCursor := {| lcRows := [(keyA, [x05]); (keyB, [x06])]; lcPos := Some 0 |};
     isPrevFromDb := false;
     currentDbEntry := {| key := Some keyA; value := Some [x01] |};
     currentMemEntry := {| key := Some keyA; value := Some [x05] |};
     mutation := mutationOf true [];
     table := "Plain" |}.

(** A cursor of that table whose base cursor stands on the first row. *)
Definition skippingCursor : memoryMutationCursor listCursor listCursor :=
  {| cursor := {| lcRows := [(keyA, [x01]); (keyAB, valCDEFG); (keyX, [x01])];
                  lcPos := Some 0 |};
     memCursor := {| lcRows := []; lcPos := Some 0 |};
     isPrevFromDb := true;
     currentDbEntry := {| key := Some keyA; value := Some [x01] |};
     currentMemEntry := emptyEntry;
     mutation := mutationOf false [keyABCDE];
     table := "AutoDups" |}.

(** An auto-dupsort table with a deleted row after its first and an overlay
    that replaces one base row and adds one. *)
Definition mergeBase : list row :=
  [([x30], [x01]); (keyAB, valCDEFG); (keyK, [x01]); (keyX, [x01])].

Definition mergeOverlay : list row := [(keyA, [x02]); (keyK, [x01])].

(** A cursor of the dup-sort table, cleared since the cursor returned the
    base row [(a, 01)], which it still holds. *)
Definition heldBaseCursor : memoryMutationCursor listCursor listCursor :=
  {| cursor := {| lcRows := [(keyA, [x01])]; lcPos := Some 0 |};
     memCursor := {| lcRows := [(keyB, [x06]); (keyK, [x07])]; lcPos := Some 0 |};
     isPrevFromDb := true;
     currentDbEntry := {| key := Some keyA; value := Some [x01] |};
     currentMemEntry := {| key := Some keyB; value := Some [x06] |};
     mutation := mutationOf true [];
     table := "Dups" |}.

(** A new cursor of the cleared dup-sort table, with the key [a] in both
    tables. *)
Definition clearedBothCursor : memoryMutationCursor listCursor listCursor :=
  newCursor [(keyA, [x01])] [(keyA, [x09])] (mutationOf true []) "Dups".

(** A registry whose auto-dupsort table has lengths that no [int] can
    subtract: the difference wraps around to the least [int]. *)
Definition wrapCfg : kv.TableCfg :=
  fun t =>
    if String.eqb t "Wrap" then
      Some {| kv.Flags := 4; kv.AutoDupSortKeysConversion := true;
              kv.DupFromLen := 9223372036854775807; kv.DupToLen := -1 |}
    else None.

(** Split a condition on the rows of a table into its conditions on rows. *)
Ltac table_conditions :=
  repeat first [apply SSorted_cons | apply SSorted_nil
               | apply Forall_cons | apply Forall_nil].

(** Reduce field reads of updated cursors. *)
Ltac simpl_cursor :=
  cbn [cursor memCursor isPrevFromDb currentDbEntry currentMemEntry mutation table
       setCursor setMemCursor setIsPrevFromDb setCurrentDbEntry setCurrentMemEntry
       setMutation fst snd hasErr key value kveKey kveValue kveErr] in *.

(** ** Errors and panics *)

Section Outcomes.

Context {DB MEM : Type}.

(** The call returns its error alone: a non-nil error comes with the nil key
    and the nil value. *)
Definition errorAlone (c : @M DB MEM kve) : Prop :=
  forall m r m',
    c m = Returned (r, m') -> kveErr r <> None -> kveKey r = None /\ kveValue r = None.

(** The call returns from the state [m]: it does not panic, and the cursor
    is still on its table. *)
Definition returnsFrom {A} (c : @M DB MEM A) (m : memoryMutationCursor DB MEM) : Prop :=
  exists a m', c m = Returned (a, m') /\ table m' = table m.

(** A table without the auto-dupsort conversion of keys, a table absent from
    the registry included. *)
Definition plainTable (ChaindataTablesCfg : kv.TableCfg) (t : string) : Prop :=
  kv.AutoDupSortKeysConversion (tableConfig ChaindataTablesCfg t) = false.

End Outcomes.

(** A cursor of a transaction that has ended, for the examples: every call
    fails, with the same error. *)
Inductive closedCursor : Type := ClosedCursor.

Definition closedErr : error := "tx closed"%string.

#[global] Instance closedCursorDupSort : kv.CursorDupSort closedCursor := {
  kv.First := fun c => ((None, None, Some closedErr), c);
  kv.Seek := fun _ c => ((None, None, Some closedErr), c);
  kv.SeekExact := fun _ c => ((None, None, Some closedErr), c);
  kv.Next := fun c => ((None, None, Some closedErr), c);
  kv.Last := fun c => ((None, None, Some closedErr), c);
  kv.Current := fun c => ((None, None, Some closedErr), c);
  kv.SeekBothRange := fun _ _ c => ((None, Some closedErr), c);
  kv.NextDup := fun c => ((None, None, Some closedErr), c);
  kv.NextNoDup := fun c => ((None, None, Some closedErr), c);
  kv.stepsLeft := fun _ => 0;
  kv.valueRoom := fun _ => []
}.

#[global] Instance closedRwCursorDupSort : kv.RwCursorDupSort closedCursor := {
  kv.rwCursor := closedCursorDupSort;
  kv.DeleteCurrentDuplicates := fun c => (Some closedErr, c)
}.

(** A cursor of the dup-sort table whose overlay's transaction has ended. *)
Definition closedOverlayCursor : memoryMutationCursor listCursor closedCursor :=
  {| cursor := {| lcRows := dupsBase; lcPos := None |};
     memCursor := ClosedCursor;
     isPrevFromDb := false;
     currentDbEntry := emptyEntry;
     currentMemEntry := emptyEntry;
     mutation := mutationOf false [];
     table := "Dups" |}.

(** A cursor of the auto-dupsort table before a row whose value holds one
    byte where the conversion takes three. *)
Definition shortValueCursor : memoryMutationCursor listCursor listCursor :=
  {| cursor := {| lcRows := [(keyA, [x01]); (keyAB, [x43])]; lcPos := Some 0 |};
     memCursor := {| lcRows := []; lcPos := Some 0 |};
     isPrevFromDb := true;
     currentDbEntry := {| key := Some keyA; value := Some [x01] |};
     currentMemEntry := emptyEntry;
     mutation := mutationOf false [];
     table := "AutoDups" |}.

(** ** Scans from a key *)

(** The index [Seek] moves a list cursor to: the first row whose key is at
    or after [seek], the length of the table when there is none. *)
Definition seekIdx (seek : slice) (rows : list row) : nat :=
  firstIdx (fun r => bytesLeb (contents seek) (fst r)) rows.

Section SeekScans.

Context {DB MEM : Type}.
Context {dbCursor : kv.CursorDupSort DB}.
Context {rwMemCursor : kv.RwCursorDupSort MEM}.
Variable DupSort : Z.
Variable ChaindataTablesCfg : kv.TableCfg.

(** The results of [Seek] and then [n] times [Next]. *)
Definition runSeekNexts (seek : slice) (n : nat) (m : memoryMutationCursor DB MEM)
  : list kve :=
  match Seek DupSort ChaindataTablesCfg seek m with
  | Returned (r, m') => r :: runNexts DupSort ChaindataTablesCfg n m'
  | Panicked _ => []
  end.

End SeekScans.

(** The rows of a table whose key is at or after [seek]. *)
Definition fromKey (seek : slice) (rows : list row) : list row :=
  filter (fun r => bytesLeb (contents seek) (fst r)) rows.

Section SeekScansToNil.

Context {DB MEM : Type}.
Context {dbCursor : kv.CursorDupSort DB}.
Context {rwMemCursor : kv.RwCursorDupSort MEM}.
Variable DupSort : Z.
Variable ChaindataTablesCfg : kv.TableCfg.

(** The scan from a key: [Seek], then [Next] until the nil key. *)
Definition seekScan (seek : slice) (fuel : nat) (m : memoryMutationCursor DB MEM)
  : option (list row) :=
  match Seek DupSort ChaindataTablesCfg seek m with
  | Returned ((Some k, v, None), m') =>
      option_map (cons (k, contents v)) (scanNexts DupSort ChaindataTablesCfg fuel m')
  | Returned ((None, _, None), _) => Some []
  | _ => None
  end.

End SeekScansToNil.

Section Runs.

Context {DB MEM : Type}.
Context {dbCursor : kv.CursorDupSort DB}.
Context {rwMemCursor : kv.RwCursorDupSort MEM}.
Variable DupSort : Z.
Variable ChaindataTablesCfg : kv.TableCfg.

(** [n] calls of [Next] after a call that returned [rm]: the last result and
    the cursor after it. *)
Fixpoint nextsFrom (n : nat) (rm : kve * memoryMutationCursor DB MEM)
  : outcome (kve * memoryMutationCursor DB MEM) :=
  match n with
  | O => Returned rm
  | S n' =>
      match Next DupSort ChaindataTablesCfg (snd rm) with
      | Returned rm' => nextsFrom n' rm'
      | Panicked msg => Panicked msg
      end
  end.

(** [First] and then [n] calls of [Next]. *)
Definition firstThenNexts (n : nat) (m : memoryMutationCursor DB MEM)
  : outcome (kve * memoryMutationCursor DB MEM) :=
  match First DupSort ChaindataTablesCfg m with
  | Returned rm => nextsFrom n rm
  | Panicked msg => Panicked msg
  end.

End Runs.

(** A new cursor of the dup-sort table over a base whose last row is deleted
    and an empty overlay. *)
Definition deletedLastCursor : memoryMutationCursor listCursor listCursor :=
  newCursor [(keyA, [x01]); (keyB, [x02])] [] (mutationOf false [keyB]) "Dups".

(** ** The entry the cursor stands on *)

Section StoredEntry.

Context {DB MEM : Type}.

(** The entry kept for the side the last entry came from. *)
Definition storedEntry (m : memoryMutationCursor DB MEM) : cursorEntry :=
  if isPrevFromDb m then currentDbEntry m else currentMemEntry m.

(** When the call returns an entry, the cursor keeps that entry for the side
    it names. *)
Definition storesEntry (c : @M DB MEM kve) (m : memoryMutationCursor DB MEM) : Prop :=
  forall k v m',
    c m = Returned ((k, Some v, None), m') ->
    storedEntry m' = {| key := k; value := Some v |}.

End StoredEntry.

(** ** Values of a key from a value on *)

(** The values of the rows of the key [k] whose value is at or after [v], in
    the order of the table. *)
Definition valuesFrom (k v : list byte) (rows : list row) : list (list byte) :=
  map snd (filter (fun r => bytesEqb (fst r) k && bytesLeb v (snd r)) rows).

(** The first of them, nil when there is none; in an ordered dup-sort table
    it is the least value of the key at or after [v]. *)
Definition firstValueFrom (k v : list byte) (rows : list row) : slice :=
  hd_error (valuesFrom k v rows).

(** The lesser of two values, a nil value standing for no value. *)
Definition minValue (a b : slice) : slice :=
  match a, b with
  | Some x, Some y => match compareBytes x y with Gt => Some y | _ => Some x end
  | Some x, None => Some x
  | None, _ => b
  end.

(** * Lemmas and theorems *)

(** ** Byte strings: equality and order *)

Lemma Equal_true_iff (a b : slice) :
  bytes.Equal a b = true <-> contents a = contents b.
Proof.
  unfold bytes.Equal.
  destruct (list_eq_dec Byte.byte_eq_dec (contents a) (contents b)); split;
    congruence.
Qed.

Lemma Equal_false_iff (a b : slice) :
  bytes.Equal a b = false <-> contents a <> contents b.
Proof.
  unfold bytes.Equal.
  destruct (list_eq_dec Byte.byte_eq_dec (contents a) (contents b)); split;
    congruence.
Qed.

Lemma bytesEqb_true_iff (a b : list byte) : bytesEqb a b = true <-> a = b.
Proof.
  unfold bytesEqb. destruct (list_eq_dec Byte.byte_eq_dec a b); split; congruence.
Qed.

Lemma bytesEqb_false_iff (a b : list byte) : bytesEqb a b = false <-> a <> b.
Proof.
  unfold bytesEqb. destruct (list_eq_dec Byte.byte_eq_dec a b); split; congruence.
Qed.

Lemma bytesEqb_refl (a : list byte) : bytesEqb a a = true.
Proof. now apply bytesEqb_true_iff. Qed.

Lemma to_N_inj (x y : byte) : Byte.to_N x = Byte.to_N y -> x = y.
Proof.
  intros H. pose proof (Byte.of_to_N x) as Hx. pose proof (Byte.of_to_N y) as Hy.
  rewrite H in Hx. congruence.
Qed.

Lemma compareBytes_Eq_iff (a b : list byte) : compareBytes a b = Eq <-> a = b.
Proof.
  revert b. induction a as [|x a IH]; intros [|y b]; cbn; split; try congruence.
  - destruct (N.compare_spec (Byte.to_N x) (Byte.to_N y)) as [E|L|G]; try congruence.
    intros H. apply IH in H. apply to_N_inj in E. congruence.
  - intros H. injection H as -> ->. rewrite N.compare_refl. now apply IH.
Qed.

Lemma compareBytes_refl (a : list byte) : compareBytes a a = Eq.
Proof. now apply compareBytes_Eq_iff. Qed.

Lemma compareBytes_antisym (a b : list byte) :
  compareBytes b a = CompOpp (compareBytes a b).
Proof.
  revert b. induction a as [|x a IH]; intros [|y b]; cbn; try reflexivity.
  rewrite (N.compare_antisym (Byte.to_N x) (Byte.to_N y)).
  destruct (N.compare (Byte.to_N x) (Byte.to_N y)); cbn; auto.
Qed.

Lemma compareBytes_Lt_trans (a b c : list byte) :
  compareBytes a b = Lt -> compareBytes b c = Lt -> compareBytes a c = Lt.
Proof.
  revert b c. induction a as [|x a IH]; intros [|y b] [|z c]; cbn; try congruence.
  destruct (N.compare_spec (Byte.to_N x) (Byte.to_N y)) as [E|L|G]; try congruence;
    destruct (N.compare_spec (Byte.to_N y) (Byte.to_N z)) as [E'|L'|G']; try congruence;
    intros H1 H2.
  - rewrite E, E', N.compare_refl. eauto.
  - rewrite E. now apply N.compare_lt_iff in L' as ->.
  - rewrite <- E'. now apply N.compare_lt_iff in L as ->.
  - assert (Byte.to_N x < Byte.to_N z)%N as L'' by lia.
    now apply N.compare_lt_iff in L'' as ->.
Qed.

Lemma compareBytes_Gt_Lt (a b : list byte) :
  compareBytes a b = Gt <-> compareBytes b a = Lt.
Proof.
  rewrite (compareBytes_antisym a b).
  destruct (compareBytes a b); cbn; split; congruence.
Qed.

Lemma rowAt_key_Some rows i :
  kveKey (rowAt rows i) <> None -> i < length rows.
Proof.
  unfold rowAt. destruct (nth_error rows i) as [[k v]|] eqn:E; cbn.
  - intros _. apply nth_error_Some. congruence.
  - congruence.
Qed.

Lemma valueRoom_list (c : listCursor) : kv.valueRoom c = [].
Proof. reflexivity. Qed.

Lemma lcNext_stepsLeft c :
  kveKey (fst (lcNext c)) <> None ->
  lcStepsLeft (snd (lcNext c)) < lcStepsLeft c.
Proof.
  unfold lcNext, lcStepsLeft, lcMoveTo. destruct (lcPos c) as [i|]; cbn [fst snd lcPos lcRows]; intros H.
  - apply rowAt_key_Some in H. lia.
  - lia.
Qed.

Lemma lcNextDup_stepsLeft c :
  kveKey (fst (lcNextDup c)) <> None ->
  lcStepsLeft (snd (lcNextDup c)) < lcStepsLeft c.
Proof.
  unfold lcNextDup, lcStepsLeft. destruct (lcPos c) as [i|] eqn:P;
    [|cbn [fst kveKey]; congruence].
  destruct (nth_error (lcRows c) i) as [[k v]|]; [|cbn [fst kveKey]; congruence].
  destruct (nth_error (lcRows c) (S i)) as [[k' v']|] eqn:E;
    [|cbn [fst kveKey]; congruence].
  destruct (bytesEqb k k'); [|cbn [fst kveKey]; congruence].
  intros _. unfold lcMoveTo; cbn [fst snd lcPos lcRows].
  assert (S i < length (lcRows c)) by (apply nth_error_Some; congruence). lia.
Qed.

Lemma lcNextNoDup_stepsLeft c :
  kveKey (fst (lcNextNoDup c)) <> None ->
  lcStepsLeft (snd (lcNextNoDup c)) < lcStepsLeft c.
Proof.
  unfold lcNextNoDup, lcStepsLeft. destruct (lcPos c) as [i|] eqn:P.
  - destruct (nth_error (lcRows c) i) as [[k v]|]; [|cbn [fst kveKey]; congruence].
    unfold lcMoveTo; cbn [fst snd lcPos lcRows]. intros H.
    apply rowAt_key_Some in H. unfold firstIdxFrom in *. lia.
  - unfold lcMoveTo; cbn [fst snd lcPos lcRows]. lia.
Qed.

(** The list cursor keeps the law of [kv.stepsLeft]. *)
Lemma listCursor_stepsLeftDecreases : kv.stepsLeftDecreases listCursor.
Proof.
  intros c. split; [apply lcNext_stepsLeft|].
  split; [apply lcNextDup_stepsLeft|apply lcNextNoDup_stepsLeft].
Qed.

Lemma listCursor_valuesHaveKeys : kv.valuesHaveKeys listCursor.
Proof.
  intros c. change (kv.NextDup c) with (lcNextDup c). unfold lcNextDup.
  destruct (lcPos c) as [i|]; [|cbn; congruence].
  destruct (nth_error (lcRows c) i) as [[k v]|]; [|cbn; congruence].
  destruct (nth_error (lcRows c) (S i)) as [[k' v']|] eqn:E; [|cbn; congruence].
  destruct (bytesEqb k k'); [|cbn; congruence].
  unfold lcMoveTo, rowAt. cbn [fst lcRows]. rewrite E. cbn. congruence.
Qed.

Section CursorFacts.

Context {DB MEM : Type}.
Context {dbCursor : kv.CursorDupSort DB}.
Context {rwMemCursor : kv.RwCursorDupSort MEM}.
Variable DupSort : Z.
Variable ChaindataTablesCfg : kv.TableCfg.
Variable mutationDelete :
  string -> slice -> MemoryMutation * MEM -> option error * (MemoryMutation * MEM).

Local Abbreviation cursorState := (memoryMutationCursor DB MEM).
Local Abbreviation tableConfig := (tableConfig ChaindataTablesCfg).
Local Abbreviation candidatesIntersect := (candidatesIntersect DupSort).
Local Abbreviation panicsAlways := (@panicsAlways DB MEM _).

Lemma tableConfig_absent t :
  ChaindataTablesCfg t = None -> tableConfig t = kv.zeroCfg.
Proof. unfold tableConfig, lookupCfg. now intros ->. Qed.

Lemma tableConfig_present t config :
  ChaindataTablesCfg t = Some config -> tableConfig t = config.
Proof. unfold tableConfig, lookupCfg. now intros ->. Qed.

Lemma convertAutoDupsort_unfold t key value room :
  convertAutoDupsort ChaindataTablesCfg t key value room =
  if negb (kv.AutoDupSortKeysConversion (tableConfig t)) then Returned key
  else if negb (len key =? kv.DupToLen (tableConfig t))%Z then Returned key
  else obind (sliceToCap value room (dupOffset (tableConfig t)))
             (fun prefix => Returned (append key prefix)).
Proof.
  unfold convertAutoDupsort, tableConfig, dupOffset, lookupCfg.
  destruct (ChaindataTablesCfg t); reflexivity.
Qed.

Lemma sliceTo_contents s n :
  (0 <= n <= len s)%Z ->
  exists p, sliceTo s n = Returned p /\ contents p = firstn (Z.to_nat n) (contents s).
Proof.
  intros [H0 H1]. unfold sliceTo.
  destruct (Z.ltb_spec n 0); [lia|]. destruct (Z.ltb_spec (len s) n); [lia|].
  cbn. eexists; split; [reflexivity|]. destruct s; cbn; [reflexivity|].
  now rewrite firstn_nil.
Qed.

Lemma append_contents s p : contents (append s p) = contents s ++ contents p.
Proof.
  unfold append. destruct (contents p) eqn:E; cbn; [now rewrite app_nil_r|reflexivity].
Qed.

Lemma sliceToCap_contents s room n :
  (0 <= n <= len s)%Z ->
  exists p, sliceToCap s room n = Returned p /\
            contents p = firstn (Z.to_nat n) (contents s).
Proof.
  intros [H0 H1]. unfold sliceToCap.
  destruct (Z.ltb_spec n 0); [lia|].
  assert (len s <= cap s room)%Z as Hcap.
  { destruct s as [l|]; unfold len, cap; cbn [contents length]; lia. }
  destruct (Z.ltb_spec (cap s room) n); [lia|].
  cbn. eexists; split; [reflexivity|]. destruct s as [l|]; cbn [contents].
  - unfold len in H1. cbn [contents] in H1. rewrite firstn_app.
    replace (Z.to_nat n - length l) with 0 by lia. cbn [firstn]. now rewrite app_nil_r.
  - now rewrite firstn_nil.
Qed.

Lemma convertAutoDupsort_returns t key value room :
  (kv.AutoDupSortKeysConversion (tableConfig t) = true ->
   len key = kv.DupToLen (tableConfig t) ->
   (0 <= dupOffset (tableConfig t) <= len value)%Z) ->
  exists r, convertAutoDupsort ChaindataTablesCfg t key value room = Returned r.
Proof.
  intros H. rewrite convertAutoDupsort_unfold.
  destruct (kv.AutoDupSortKeysConversion (tableConfig t)); cbn [negb]; [|eauto].
  destruct (Z.eqb_spec (len key) (kv.DupToLen (tableConfig t))) as [El|El];
    cbn [negb]; [|eauto].
  destruct (sliceToCap_contents value room _ (H eq_refl El)) as (p & -> & _). cbn. eauto.
Qed.

(** C7, as the code has it.  The key comes back unchanged when the table is
    absent from the registry, is not auto-dupsort, or the key is not
    [DupToLen] bytes long.  Otherwise, for a value that holds at least
    [DupFromLen - DupToLen] bytes (a difference that is not negative), the
    result is the key followed by the first [DupFromLen - DupToLen] bytes of
    the value. *)
Theorem convertAutoDupsort_spec (t : string) (key value : slice) (room : list byte) :
  (ChaindataTablesCfg t = None ->
   convertAutoDupsort ChaindataTablesCfg t key value room = Returned key) /\
  (kv.AutoDupSortKeysConversion (tableConfig t) = false ->
   convertAutoDupsort ChaindataTablesCfg t key value room = Returned key) /\
  (len key <> kv.DupToLen (tableConfig t) ->
   convertAutoDupsort ChaindataTablesCfg t key value room = Returned key) /\
  (kv.AutoDupSortKeysConversion (tableConfig t) = true ->
   len key = kv.DupToLen (tableConfig t) ->
   (0 <= dupOffset (tableConfig t) <= len value)%Z ->
   exists r,
     convertAutoDupsort ChaindataTablesCfg t key value room = Returned r /\
     contents r =
       contents key ++ firstn (Z.to_nat (dupOffset (tableConfig t))) (contents value)).
Proof.
  rewrite convertAutoDupsort_unfold. repeat split.
  - intros H. now rewrite (tableConfig_absent _ H).
  - now intros ->.
  - intros H. destruct (kv.AutoDupSortKeysConversion (tableConfig t)); cbn; [|reflexivity].
    destruct (Z.eqb_spec (len key) (kv.DupToLen (tableConfig t))); [contradiction|reflexivity].
  - intros -> -> H. cbn. rewrite Z.eqb_refl. cbn.
    destruct (sliceToCap_contents value room _ H) as (p & -> & Hp). cbn.
    eexists; split; [reflexivity|]. now rewrite append_contents, Hp.
Qed.

(** C8.  [SeekBothRange] with a nil value is [SeekExact] on the key: the
    same cursor afterwards, the value and the error of [SeekExact]
    returned, the key dropped. *)
Theorem SeekBothRange_nil_value (k : slice) (m : cursorState) :
  SeekBothRange DupSort ChaindataTablesCfg k None m =
  match SeekExact k m with
  | Returned ((_, v, err), m') => Returned ((v, err), m')
  | Panicked msg => Panicked msg
  end.
Proof.
  unfold SeekBothRange. cbn [isNil]. unfold bind, ret.
  destruct (SeekExact k m) as [[[[k' v] err] m']|msg]; reflexivity.
Qed.

Lemma deleteDups_returns fuel k v err (m : cursorState) :
  exists e m', deleteDups mutationDelete fuel k v err m = Returned (e, m').
Proof.
  revert k v err m. induction fuel as [|fuel IH]; intros k v err m; cbn.
  - destruct (isNil v); cbn; [unfold ret; eauto|].
    destruct (hasErr err); [unfold ret; eauto|].
    unfold bind, Delete.
    destruct (mutationDelete (table m) k (mutation m, memCursor m)) as [derr [mu mem]].
    destruct (hasErr derr); unfold ret; eauto.
  - destruct (isNil v); cbn; [unfold ret; eauto|].
    destruct (hasErr err); [unfold ret; eauto|].
    unfold bind at 1. unfold Delete at 1.
    destruct (mutationDelete (table m) k (mutation m, memCursor m)) as [derr [mu mem]].
    destruct (hasErr derr); [unfold ret; eauto|].
    unfold bind, onCursor.
    destruct (kv.NextDup (cursor (setMemCursor mem (setMutation mu m))))
      as [[[k' v'] err'] c']. apply IH.
Qed.

(** *** The intersection skip *)

Lemma skipIntersection_unfold memKey memValue dbKey dbValue t (m : cursorState) :
  skipIntersection DupSort ChaindataTablesCfg memKey memValue dbKey dbValue t m =
  let config := tableConfig (table m) in
  let dupsortOffset :=
    if kv.AutoDupSortKeysConversion config then dupOffset config else 0%Z in
  if bytes.Equal memKey dbKey then
    if (Z.land (kv.Flags config) DupSort =? 0)%Z
    then getNextOnDb ChaindataTablesCfg t m
    else if bytes.Equal memValue dbValue then getNextOnDb ChaindataTablesCfg t m
    else if negb (dupsortOffset =? 0)%Z
            && (dupsortOffset <=? len memValue)%Z
            && (dupsortOffset <=? len dbValue)%Z
    then
      match sliceTo memValue dupsortOffset, sliceTo dbValue dupsortOffset with
      | Returned memPrefix, Returned dbPrefix =>
          if bytes.Equal memPrefix dbPrefix
          then getNextOnDb ChaindataTablesCfg t m
          else Returned ((dbKey, dbValue, None), m)
      | Panicked msg, _ => Panicked msg
      | Returned _, Panicked msg => Panicked msg
      end
    else Returned ((dbKey, dbValue, None), m)
  else Returned ((dbKey, dbValue, None), m).
Proof.
  unfold skipIntersection, tableConfig, dupOffset, lookupCfg, bind, gets, ret, liftOutcome.
  destruct (ChaindataTablesCfg (table m)) as [config|]; cbn [fst andb];
    repeat match goal with
           | |- context [if ?b then _ else _] => destruct b; try reflexivity
           | |- context [match sliceTo ?s ?n with _ => _ end] =>
               destruct (sliceTo s n); try reflexivity
           end.
Qed.

(** C5, as the code has it.  Given a registry entry whose auto-dupsort
    offset, the [int] that [DupFromLen - DupToLen] gives (it wraps around),
    is not negative, [skipIntersection] is [getNextOnDb] with the
    given step kind exactly when the keys are equal and the table is not
    dup-sort, or the values are equal, or the table is auto-dupsort with a
    non-zero offset and the two values agree on their first offset bytes,
    both being that long.  In every other case the base candidate comes back
    as it was, the cursor untouched. *)
Theorem skipIntersection_spec memKey memValue dbKey dbValue t (m : cursorState) :
  (kv.AutoDupSortKeysConversion (tableConfig (table m)) = true ->
   (0 <= dupOffset (tableConfig (table m)))%Z) ->
  (candidatesIntersect (tableConfig (table m)) memKey memValue dbKey dbValue ->
   skipIntersection DupSort ChaindataTablesCfg memKey memValue dbKey dbValue t m =
   getNextOnDb ChaindataTablesCfg t m) /\
  (~ candidatesIntersect (tableConfig (table m)) memKey memValue dbKey dbValue ->
   skipIntersection DupSort ChaindataTablesCfg memKey memValue dbKey dbValue t m =
   Returned ((dbKey, dbValue, None), m)).
Proof.
  intros Hoff. rewrite skipIntersection_unfold. cbv zeta.
  unfold candidatesIntersect, prefixesCollide.
  set (config := tableConfig (table m)) in *.
  destruct (bytes.Equal memKey dbKey) eqn:Ek.
  2:{ apply Equal_false_iff in Ek. split; [intros [? _]; contradiction|reflexivity]. }
  apply Equal_true_iff in Ek.
  destruct (Z.eqb_spec (Z.land (kv.Flags config) DupSort) 0) as [Ef|Ef].
  { split; [reflexivity|]. intros H. exfalso. apply H. auto. }
  destruct (bytes.Equal memValue dbValue) eqn:Ev.
  { apply Equal_true_iff in Ev. split; [reflexivity|]. intros H. exfalso. apply H. auto. }
  apply Equal_false_iff in Ev.
  destruct (kv.AutoDupSortKeysConversion config) eqn:Ea.
  2:{ cbn. split; [|reflexivity].
      intros (_ & [?|[?|(? & _)]]); try contradiction; discriminate. }
  specialize (Hoff eq_refl).
  destruct (Z.eqb_spec (dupOffset config) 0) as [E0|E0]; cbn [negb andb].
  { split; [|reflexivity].
    intros (_ & [?|[?|(_ & ? & _)]]); contradiction. }
  destruct (Z.leb_spec (dupOffset config) (len memValue)) as [L1|L1]; cbn [andb].
  2:{ split; [|reflexivity].
      intros (_ & [?|[?|(_ & _ & ? & _)]]); try contradiction; lia. }
  destruct (Z.leb_spec (dupOffset config) (len dbValue)) as [L2|L2]; cbn [andb].
  2:{ split; [|reflexivity].
      intros (_ & [?|[?|(_ & _ & _ & ? & _)]]); try contradiction; lia. }
  destruct (sliceTo_contents memValue (dupOffset config)) as (p1 & -> & Hp1); [lia|].
  destruct (sliceTo_contents dbValue (dupOffset config)) as (p2 & -> & Hp2); [lia|].
  destruct (bytes.Equal p1 p2) eqn:Ep.
  - split; [reflexivity|]. apply Equal_true_iff in Ep. rewrite Hp1, Hp2 in Ep.
    intros H. exfalso. apply H. split; [assumption|]. right; right. repeat split; assumption.
  - split; [|reflexivity]. apply Equal_false_iff in Ep. rewrite Hp1, Hp2 in Ep.
    intros (_ & [?|[?|(_ & _ & _ & _ & ?)]]); contradiction.
Qed.

(** *** The merge step *)

Lemma Compare_pos_iff (a b : slice) :
  (0 <? bytes.Compare a b)%Z = true <-> compareBytes (contents a) (contents b) = Gt.
Proof.
  unfold bytes.Compare. destruct (compareBytes (contents a) (contents b)); cbn;
    split; congruence.
Qed.

Lemma isNil_true_iff (s : slice) : isNil s = true <-> s = None.
Proof. destruct s; cbn; split; congruence. Qed.

Lemma isNil_false_iff (s : slice) : isNil s = false <-> s <> None.
Proof. destruct s; cbn; split; congruence. Qed.

Lemma dbIsSmaller_iff memKey memValue dbKey dbValue :
  dbIsSmaller memKey memValue dbKey dbValue = true <->
  baseWins memKey memValue dbKey dbValue.
Proof.
  unfold dbIsSmaller, baseWins.
  destruct (bytes.Equal memKey dbKey) eqn:Ek;
    [apply Equal_true_iff in Ek | apply Equal_false_iff in Ek];
    rewrite andb_true_iff, orb_true_iff, negb_true_iff, isNil_false_iff,
      isNil_true_iff, Compare_pos_iff; tauto.
Qed.

Lemma goForward_unfold memKey memValue dbKey dbValue t (m : cursorState) :
  goForward DupSort ChaindataTablesCfg memKey memValue dbKey dbValue t m =
  if isNil memValue && isNil dbValue then Returned ((None, None, None), m)
  else
    match skipIntersection DupSort ChaindataTablesCfg memKey memValue dbKey dbValue t m with
    | Panicked msg => Panicked msg
    | Returned ((dbKey', dbValue', Some e), m1) => Returned ((None, None, Some e), m1)
    | Returned ((dbKey', dbValue', None), m1) =>
        let prev := dbIsSmaller memKey memValue dbKey' dbValue' in
        Returned
          ((if prev then (dbKey', dbValue', None) else (memKey, memValue, None)),
           {| cursor := cursor m1;
              memCursor := memCursor m1;
              isPrevFromDb := prev;
              currentDbEntry :=
                if isNil dbValue' then emptyEntry
                else {| key := dbKey'; value := dbValue' |};
              currentMemEntry :=
                if isNil memValue then emptyEntry
                else {| key := memKey; value := memValue |};
              mutation := mutation m1;
              table := table m1 |})
    end.
Proof.
  unfold goForward.
  destruct (isNil memValue && isNil dbValue); [reflexivity|].
  unfold bind at 1.
  destruct (skipIntersection DupSort ChaindataTablesCfg memKey memValue dbKey dbValue t m)
    as [[[[dbKey' dbValue'] [e|]] m1]|msg]; try reflexivity.
  cbn [hasErr]. unfold bind, modify, gets, ret.
  destruct (isNil dbValue'), (isNil memValue); cbn;
    destruct (dbIsSmaller memKey memValue dbKey' dbValue'); reflexivity.
Qed.

(** C4.  With both candidates nil the merge step returns the nil entry and
    changes nothing.  Otherwise, once the intersection skip has given the
    base candidate [(dbKey', dbValue')], the step returns an entry and sets
    [isPrevFromDb] to whether the base side wins: on equal keys, the base
    value is there and the overlay value is nil or greater; on different
    keys, the base value is there and the overlay key is nil or greater.
    The entry returned is the base candidate when [isPrevFromDb] was set,
    the overlay candidate when it was cleared. *)
Theorem goForward_decides memKey memValue dbKey dbValue t (m : cursorState) :
  (memValue = None -> dbValue = None ->
   goForward DupSort ChaindataTablesCfg memKey memValue dbKey dbValue t m =
   Returned ((None, None, None), m)) /\
  (forall dbKey' dbValue' m1,
      ~ (memValue = None /\ dbValue = None) ->
      skipIntersection DupSort ChaindataTablesCfg memKey memValue dbKey dbValue t m =
      Returned ((dbKey', dbValue', None), m1) ->
      exists k v m2,
        goForward DupSort ChaindataTablesCfg memKey memValue dbKey dbValue t m =
        Returned ((k, v, None), m2) /\
        (isPrevFromDb m2 = true <-> baseWins memKey memValue dbKey' dbValue') /\
        (isPrevFromDb m2 = true -> k = dbKey' /\ v = dbValue') /\
        (isPrevFromDb m2 = false -> k = memKey /\ v = memValue)).
Proof.
  rewrite goForward_unfold. split.
  - now intros -> ->.
  - intros dbKey' dbValue' m1 Hnn ->.
    assert (isNil memValue && isNil dbValue = false) as ->.
    { destruct memValue, dbValue; cbn; try reflexivity. exfalso; auto. }
    cbv zeta.
    destruct (dbIsSmaller memKey memValue dbKey' dbValue') eqn:E.
    + do 3 eexists. split; [reflexivity|]. cbn [isPrevFromDb].
      rewrite <- dbIsSmaller_iff, E. repeat split; auto; discriminate.
    + do 3 eexists. split; [reflexivity|]. cbn [isPrevFromDb].
      rewrite <- dbIsSmaller_iff, E. repeat split; auto; discriminate.
Qed.

(** *** Exact lookup, and what a cleared table leaves in place *)

Lemma SeekExact_unfold seek (m : cursorState) :
  SeekExact seek m =
  let '((memKey, memValue, err), mc) := kv.SeekExact seek (memCursor m) in
  if hasErr err then Returned ((None, None, err), setMemCursor mc m)
  else if negb (isNil memKey) then
    let '((dbKey, dbValue, err), c) := kv.Seek seek (cursor m) in
    Returned
      ((memKey, memValue, err),
       {| cursor := c; memCursor := mc; isPrevFromDb := false;
          currentDbEntry := {| key := dbKey; value := dbValue |};
          currentMemEntry := {| key := memKey; value := memValue |};
          mutation := mutation m; table := table m |})
  else
    let '((dbKey, dbValue, err), c) := kv.SeekExact seek (cursor m) in
    if hasErr err then Returned ((None, None, err), setCursor c (setMemCursor mc m))
    else if negb (isNil dbKey)
            && negb (isTableCleared (mutation m) (table m))
            && negb (isEntryDeleted (mutation m) (table m) (contents seek))
    then
      let '((memKey, memValue, err), mc') := kv.Seek seek mc in
      Returned
        ((dbKey, dbValue, err),
         {| cursor := c; memCursor := mc'; isPrevFromDb := true;
            currentDbEntry := {| key := dbKey; value := dbValue |};
            currentMemEntry := {| key := memKey; value := memValue |};
            mutation := mutation m; table := table m |})
    else Returned ((None, None, None), setCursor c (setMemCursor mc m)).
Proof.
  unfold SeekExact, bind, onMemCursor, onCursor, modify, gets, ret.
  destruct (kv.SeekExact seek (memCursor m)) as [[[memKey memValue] err] mc].
  destruct (hasErr err); [reflexivity|].
  destruct (negb (isNil memKey)); simpl_cursor.
  - destruct (kv.Seek seek (cursor m)) as [[[dbKey dbValue] err'] c]. reflexivity.
  - destruct (kv.SeekExact seek (cursor m)) as [[[dbKey dbValue] err'] c].
    destruct (hasErr err'); [reflexivity|]. simpl_cursor.
    destruct (negb (isNil dbKey) && negb (isTableCleared (mutation m) (table m))
              && negb (isEntryDeleted (mutation m) (table m) (contents seek)));
      [|reflexivity].
    simpl_cursor.
    destruct (kv.Seek seek mc) as [[[memKey' memValue'] err''] mc']. reflexivity.
Qed.

Lemma nextWith_unfold t memStep (m : cursorState) :
  nextWith DupSort ChaindataTablesCfg t memStep m =
  if isPrevFromDb m then
    match getNextOnDb ChaindataTablesCfg t m with
    | Panicked msg => Panicked msg
    | Returned ((k, v, err), m1) =>
        if hasErr err then Returned ((None, None, err), m1)
        else goForward DupSort ChaindataTablesCfg
                       (key (currentMemEntry m1)) (value (currentMemEntry m1)) k v t m1
    end
  else
    let '((memK, memV, err), mc) := memStep (memCursor m) in
    if hasErr err then Returned ((None, None, err), setMemCursor mc m)
    else goForward DupSort ChaindataTablesCfg memK memV
                   (key (currentDbEntry m)) (value (currentDbEntry m)) t
                   (setMemCursor mc m).
Proof.
  unfold nextWith, bind, gets, ret, onMemCursor.
  destruct (isPrevFromDb m).
  - destruct (getNextOnDb ChaindataTablesCfg t m) as [[[[k v] err] m1]|msg];
      [|reflexivity].
    destruct (hasErr err); reflexivity.
  - destruct (memStep (memCursor m)) as [[[memK memV] err] mc].
    destruct (hasErr err); reflexivity.
Qed.

Lemma First_cleared_unfold (m : cursorState) :
  isTableCleared (mutation m) (table m) = true ->
  First DupSort ChaindataTablesCfg m =
  let '((memKey, memValue, err), mc) := kv.First (memCursor m) in
  if hasErr err then Returned ((None, None, err), setMemCursor mc m)
  else Returned ((memKey, memValue, None), setIsPrevFromDb false (setMemCursor mc m)).
Proof.
  intros Hc. unfold First, bind, gets, ret, modify, onMemCursor.
  destruct (kv.First (memCursor m)) as [[[memKey memValue] err] mc].
  destruct err as [e|]; cbn [hasErr]; [reflexivity|].
  cbn [mutation table setMemCursor]. now rewrite Hc.
Qed.

Lemma Seek_cleared_unfold seek (m : cursorState) :
  isTableCleared (mutation m) (table m) = true ->
  Seek DupSort ChaindataTablesCfg seek m =
  Returned (fst (kv.Seek seek (memCursor m)),
            setMemCursor (snd (kv.Seek seek (memCursor m))) m).
Proof.
  intros Hc. unfold Seek, bind, gets, ret, onMemCursor. rewrite Hc.
  now destruct (kv.Seek seek (memCursor m)).
Qed.

(** C10.  On a cleared table [First] and [Seek] only call the overlay
    cursor: the base cursor and both stored entries stay as they were;
    [First] clears [isPrevFromDb] (unless the overlay call fails) and [Seek]
    sets nothing.  So the [Next] after such a [First] steps the overlay and
    merges its entry with the base entry stored before the call. *)
Theorem cleared_First_Seek_keep_entries (m : cursorState) :
  isTableCleared (mutation m) (table m) = true ->
  (exists r m',
      First DupSort ChaindataTablesCfg m = Returned (r, m') /\
      cursor m' = cursor m /\
      memCursor m' = snd (kv.First (memCursor m)) /\
      currentDbEntry m' = currentDbEntry m /\
      currentMemEntry m' = currentMemEntry m /\
      (kveErr (fst (kv.First (memCursor m))) = None ->
       r = fst (kv.First (memCursor m)) /\
       isPrevFromDb m' = false /\
       Next DupSort ChaindataTablesCfg m' =
       let '((memK, memV, err), mc) := kv.Next (memCursor m') in
       if hasErr err then Returned ((None, None, err), setMemCursor mc m')
       else goForward DupSort ChaindataTablesCfg memK memV
                      (key (currentDbEntry m)) (value (currentDbEntry m)) Normal
                      (setMemCursor mc m'))) /\
  (forall seek,
      exists m',
        Seek DupSort ChaindataTablesCfg seek m =
        Returned (fst (kv.Seek seek (memCursor m)), m') /\
        cursor m' = cursor m /\
        memCursor m' = snd (kv.Seek seek (memCursor m)) /\
        isPrevFromDb m' = isPrevFromDb m /\
        currentDbEntry m' = currentDbEntry m /\
        currentMemEntry m' = currentMemEntry m).
Proof.
  intros Hc. split.
  - rewrite (First_cleared_unfold _ Hc).
    destruct (kv.First (memCursor m)) as [[[memKey memValue] [e|]] mc]; cbn [hasErr].
    + do 2 eexists. split; [reflexivity|]. simpl_cursor.
      repeat split; auto; discriminate.
    + do 2 eexists. split; [reflexivity|]. simpl_cursor.
      repeat split; auto.
      unfold Next. rewrite nextWith_unfold. reflexivity.
  - intros seek. rewrite (Seek_cleared_unfold _ _ Hc).
    eexists. split; [reflexivity|]. repeat split.
Qed.

End CursorFacts.

(** ** Facts about the list-backed cursor *)

Lemma firstIdx_le p rows : firstIdx p rows <= length rows.
Proof. induction rows as [|r rs IH]; cbn; [lia|]. destruct (p r); lia. Qed.

Lemma firstIdx_found p rows :
  firstIdx p rows < length rows ->
  exists r, nth_error rows (firstIdx p rows) = Some r /\ p r = true.
Proof.
  induction rows as [|r rs IH]; cbn; [lia|].
  destruct (p r) eqn:E; cbn; intros H; [eauto|]. apply IH. lia.
Qed.

Lemma firstIdx_In p rows r :
  In r rows -> p r = true -> firstIdx p rows < length rows.
Proof.
  induction rows as [|r' rs IH]; cbn; [tauto|].
  intros [->|H] Hp.
  - rewrite Hp. lia.
  - destruct (p r'); [lia|]. apply IH in H; auto. lia.
Qed.

Lemma firstIdx_before p rows i r :
  i < firstIdx p rows -> nth_error rows i = Some r -> p r = false.
Proof.
  revert i. induction rows as [|r' rs IH]; cbn; [lia|].
  destruct (p r') eqn:E; [lia|]. intros [|i] H; cbn.
  - congruence.
  - apply IH. lia.
Qed.

Lemma rowAt_Some (rows : list row) i k v :
  nth_error rows i = Some (k, v) -> rowAt rows i = (Some k, Some v, None).
Proof. unfold rowAt. now intros ->. Qed.

Lemma rowAt_None (rows : list row) i :
  length rows <= i -> rowAt rows i = (None, None, None).
Proof. unfold rowAt. intros H. apply nth_error_None in H. now rewrite H. Qed.

Lemma lcSeekExact_found seek c :
  (exists v, In (contents seek, v) (lcRows c)) ->
  exists v i,
    nth_error (lcRows c) i = Some (contents seek, v) /\
    lcSeekExact seek c =
    ((Some (contents seek), Some v, None), {| lcRows := lcRows c; lcPos := Some i |}).
Proof.
  intros [v Hin]. unfold lcSeekExact.
  set (p := fun r : row => bytesEqb (fst r) (contents seek)).
  assert (firstIdx p (lcRows c) < length (lcRows c)) as Hlt.
  { apply firstIdx_In with (r := (contents seek, v)); [assumption|]. apply bytesEqb_refl. }
  destruct (firstIdx_found p (lcRows c) Hlt) as ([k' v'] & Hnth & Hp).
  apply bytesEqb_true_iff in Hp. cbn in Hp. subst k'.
  apply Nat.ltb_lt in Hlt as Hlt'. rewrite Hlt'.
  exists v', (firstIdx p (lcRows c)). split; [assumption|].
  unfold lcMoveTo. rewrite (rowAt_Some _ _ _ _ Hnth). do 3 f_equal. lia.
Qed.

Lemma lcSeekExact_missing seek c :
  ~ (exists v, In (contents seek, v) (lcRows c)) ->
  lcSeekExact seek c = ((None, None, None), c).
Proof.
  intros Hno. unfold lcSeekExact.
  set (p := fun r : row => bytesEqb (fst r) (contents seek)).
  destruct (Nat.ltb_spec (firstIdx p (lcRows c)) (length (lcRows c))) as [Hlt|]; [|reflexivity].
  exfalso. destruct (firstIdx_found p (lcRows c) Hlt) as ([k' v'] & Hnth & Hp).
  apply bytesEqb_true_iff in Hp. cbn in Hp. subst k'.
  apply Hno. exists v'. eapply nth_error_In; eassumption.
Qed.

Lemma hasKey_decide (k : list byte) (rows : list row) :
  (exists v, In (k, v) rows) \/ ~ (exists v, In (k, v) rows).
Proof.
  destruct (Nat.ltb_spec (firstIdx (fun r : row => bytesEqb (fst r) k) rows) (length rows))
    as [Hlt|Hge].
  - left. destruct (firstIdx_found _ _ Hlt) as ([k' v'] & Hn & Hp).
    apply bytesEqb_true_iff in Hp. cbn in Hp. subst k'.
    exists v'. eapply nth_error_In; eassumption.
  - right. intros [v Hin].
    pose proof (firstIdx_In (fun r : row => bytesEqb (fst r) k) rows (k, v) Hin
                            (bytesEqb_refl k)). lia.
Qed.

Lemma lcSeek_result seek c :
  kveErr (fst (lcSeek seek c)) = None.
Proof.
  unfold lcSeek, lcMoveTo, rowAt. cbn [fst].
  destruct (nth_error _ _) as [[k v]|]; reflexivity.
Qed.

(** C6.  Over two tables: when the overlay has the key, [SeekExact] returns
    the overlay's entry of that key, clears [isPrevFromDb], stores that entry
    and holds the base cursor's [Seek] result; when only the base has it, the
    table is not cleared and the key is not deleted, it returns the base's
    entry, sets [isPrevFromDb], stores it and holds the overlay cursor's
    [Seek] result; otherwise it returns the nil entry.  A key returned is the
    key asked for. *)
Theorem SeekExact_spec (seek : slice) (m : memoryMutationCursor listCursor listCursor) :
  let k := contents seek in
  let overlay := lcRows (memCursor m) in
  let base := lcRows (cursor m) in
  let hidden := isTableCleared (mutation m) (table m)
                || isEntryDeleted (mutation m) (table m) k in
  exists r m',
    SeekExact seek m = Returned (r, m') /\
    ((exists v, In (k, v) overlay) ->
     exists v,
       In (k, v) overlay /\
       r = (Some k, Some v, None) /\
       isPrevFromDb m' = false /\
       currentMemEntry m' = {| key := Some k; value := Some v |} /\
       (key (currentDbEntry m'), value (currentDbEntry m'), None) =
       fst (lcSeek seek (cursor m))) /\
    (~ (exists v, In (k, v) overlay) ->
     (exists v, In (k, v) base) ->
     hidden = false ->
     exists v,
       In (k, v) base /\
       r = (Some k, Some v, None) /\
       isPrevFromDb m' = true /\
       currentDbEntry m' = {| key := Some k; value := Some v |} /\
       (key (currentMemEntry m'), value (currentMemEntry m'), None) =
       fst (lcSeek seek (memCursor m))) /\
    (~ (exists v, In (k, v) overlay) ->
     ~ ((exists v, In (k, v) base) /\ hidden = false) ->
     r = (None, None, None)) /\
    (kveKey r <> None -> kveKey r = Some k).
Proof.
  intros k overlay base hidden. rewrite SeekExact_unfold.
  change (kv.SeekExact seek (memCursor m)) with (lcSeekExact seek (memCursor m)).
  change (kv.SeekExact seek (cursor m)) with (lcSeekExact seek (cursor m)).
  change (kv.Seek seek (cursor m)) with (lcSeek seek (cursor m)).
  destruct (hasKey_decide k overlay) as [Ho|Ho].
  - destruct (lcSeekExact_found seek (memCursor m) Ho) as (v & i & Hn & ->).
    cbn [hasErr isNil negb].
    pose proof (lcSeek_result seek (cursor m)) as He.
    destruct (lcSeek seek (cursor m)) as [[[dbKey dbValue] err] c]. cbn in He. subst err.
    do 2 eexists. split; [reflexivity|]. simpl_cursor. repeat split.
    + intros _. exists v. repeat split; auto. eapply nth_error_In; eassumption.
    + intros; contradiction.
    + intros; contradiction.
  - rewrite (lcSeekExact_missing seek (memCursor m) Ho). cbn [hasErr isNil negb].
    destruct (hasKey_decide k base) as [Hb|Hb].
    + destruct (lcSeekExact_found seek (cursor m) Hb) as (v & i & Hn & ->).
      cbn [hasErr isNil negb andb].
      change (kv.Seek seek (memCursor m)) with (lcSeek seek (memCursor m)).
      pose proof (lcSeek_result seek (memCursor m)) as He.
      destruct (lcSeek seek (memCursor m)) as [[[memKey memValue] err] mc].
      cbn in He. subst err.
      subst hidden. fold k.
      destruct (isTableCleared (mutation m) (table m)); cbn [negb andb orb].
      { do 2 eexists. split; [reflexivity|]. split; [intros; contradiction|].
        split; [intros _ _ H; discriminate|]. split; [reflexivity|]. cbn. congruence. }
      destruct (isEntryDeleted (mutation m) (table m) k); cbn [negb andb orb].
      { do 2 eexists. split; [reflexivity|]. split; [intros; contradiction|].
        split; [intros _ _ H; discriminate|]. split; [reflexivity|]. cbn. congruence. }
      do 2 eexists. split; [reflexivity|]. simpl_cursor. repeat split.
      * intros; contradiction.
      * intros _ _ _. exists v. repeat split; auto. eapply nth_error_In; eassumption.
      * intros _ H. exfalso. apply H. auto.
    + rewrite (lcSeekExact_missing seek (cursor m) Hb). cbn [hasErr isNil negb andb].
      do 2 eexists. split; [reflexivity|]. split; [intros; contradiction|].
      split; [intros; contradiction|]. split; [reflexivity|]. cbn. congruence.
Qed.

Lemma bytesLe_refl a : bytesLe a a.
Proof. unfold bytesLe. rewrite compareBytes_refl. discriminate. Qed.

Lemma bytesLe_cases a b : bytesLe a b <-> bytesLt a b \/ a = b.
Proof.
  unfold bytesLe, bytesLt. pose proof (compareBytes_Eq_iff a b) as E.
  destruct (compareBytes a b).
  - split; intros _; [right; now apply E | discriminate].
  - split; intros _; [now left | discriminate].
  - split; [intros H; congruence|].
    intros [H|H]; [discriminate|]. apply E in H. discriminate.
Qed.

Lemma bytesLt_irrefl a : ~ bytesLt a a.
Proof. unfold bytesLt. rewrite compareBytes_refl. discriminate. Qed.

Lemma bytesLt_trans a b c : bytesLt a b -> bytesLt b c -> bytesLt a c.
Proof. apply compareBytes_Lt_trans. Qed.

Lemma bytesLe_trans a b c : bytesLe a b -> bytesLe b c -> bytesLe a c.
Proof.
  rewrite !bytesLe_cases. intros [H1| ->] [H2| ->]; auto.
  left. eapply bytesLt_trans; eassumption.
Qed.

Lemma bytes_total a b : bytesLt a b \/ a = b \/ bytesLt b a.
Proof.
  unfold bytesLt. pose proof (compareBytes_Eq_iff a b) as E.
  pose proof (compareBytes_Gt_Lt a b) as G.
  destruct (compareBytes a b); [right; left; now apply E | now left | right; right; now apply G].
Qed.

Lemma rowLe_refl a : rowLe a a.
Proof. right. split; [reflexivity|apply bytesLe_refl]. Qed.

Lemma rowLt_le a b : rowLt a b -> rowLe a b.
Proof.
  intros [H|[H1 H2]]; [now left|]. right. split; [assumption|].
  apply bytesLe_cases. now left.
Qed.

Lemma keyLt_le a b : keyLt a b -> rowLe a b.
Proof. intros H. now left. Qed.

Lemma rowLe_trans a b c : rowLe a b -> rowLe b c -> rowLe a c.
Proof.
  intros [H1|[E1 H1]] [H2|[E2 H2]].
  - left. eapply bytesLt_trans; eassumption.
  - left. now rewrite <- E2.
  - left. now rewrite E1.
  - right. split; [congruence|]. eapply bytesLe_trans; eassumption.
Qed.

Lemma rowLe_or_Lt a b : rowLe a b \/ rowLt b a.
Proof.
  destruct (bytes_total (fst a) (fst b)) as [H|[H|H]].
  - left. now left.
  - destruct (bytes_total (snd a) (snd b)) as [H'|[H'|H']].
    + left. right. split; [assumption|]. apply bytesLe_cases. now left.
    + left. right. split; [assumption|]. apply bytesLe_cases. now right.
    + right. right. split; [congruence|assumption].
  - right. now left.
Qed.

Lemma StronglySorted_nth {A} (R : A -> A -> Prop) (l : list A) i j a b :
  StronglySorted R l -> i < j ->
  nth_error l i = Some a -> nth_error l j = Some b -> R a b.
Proof.
  intros H. revert i j. induction H as [|x l Hs IH Hall]; intros i j Hij Ha Hb.
  - destruct i; discriminate.
  - destruct j as [|j]; [lia|]. cbn in Hb. destruct i as [|i]; cbn in Ha.
    + injection Ha as <-. rewrite Forall_forall in Hall. apply Hall.
      eapply nth_error_In; eassumption.
    + eapply IH; [|eassumption|eassumption]. lia.
Qed.

Lemma tableOrdered_nth_le dupsort rows i j a b :
  tableOrdered dupsort rows -> i <= j ->
  nth_error rows i = Some a -> nth_error rows j = Some b -> rowLe a b.
Proof.
  intros Hs Hij Ha Hb. destruct (Nat.eq_dec i j) as [->|Hne].
  - assert (a = b) as -> by congruence. apply rowLe_refl.
  - assert (i < j) as Hlt by lia.
    pose proof (StronglySorted_nth _ _ _ _ _ _ Hs Hlt Ha Hb) as H.
    destruct dupsort; [now apply rowLt_le | now apply keyLt_le].
Qed.

Lemma dbIsSmaller_rows mk mv dk dv :
  dbIsSmaller (Some mk) (Some mv) (Some dk) (Some dv) = true <-> rowLt (dk, dv) (mk, mv).
Proof.
  unfold dbIsSmaller, rowLt, bytesLt. cbn [isNil negb andb orb fst snd].
  destruct (bytes.Equal (Some mk) (Some dk)) eqn:E.
  - apply Equal_true_iff in E. cbn in E. subst dk.
    unfold bytes.Compare. cbn [contents]. rewrite (compareBytes_antisym mv dv).
    rewrite compareBytes_refl.
    destruct (compareBytes mv dv); cbn; split; intros H; try discriminate; auto;
      destruct H as [H|[_ H]]; discriminate.
  - apply Equal_false_iff in E. cbn in E.
    unfold bytes.Compare. cbn [contents]. rewrite (compareBytes_antisym mk dk).
    destruct (compareBytes mk dk); cbn; split; intros H; try discriminate; auto;
      destruct H as [H|[H _]]; try discriminate; congruence.
Qed.

Lemma dbIsSmaller_mem_nil dk dv :
  dbIsSmaller None None (Some dk) (Some dv) = true.
Proof. unfold dbIsSmaller. cbn. now destruct (bytes.Equal None (Some dk)). Qed.

Lemma dbIsSmaller_db_nil mk mv dk :
  dbIsSmaller mk mv dk None = false.
Proof. unfold dbIsSmaller. cbn. now destruct (bytes.Equal mk dk). Qed.

(** ** Scans over two tables *)

Lemma setCursor_same {DB MEM} (m : memoryMutationCursor DB MEM) :
  setCursor (cursor m) m = m.
Proof. now destruct m. Qed.

Lemma setMemCursor_same {DB MEM} (m : memoryMutationCursor DB MEM) :
  setMemCursor (memCursor m) m = m.
Proof. now destruct m. Qed.

Lemma setCursor_setCursor {DB MEM} (c c' : DB) (m : memoryMutationCursor DB MEM) :
  setCursor c (setCursor c' m) = setCursor c m.
Proof. reflexivity. Qed.

Lemma rowAt_eta (rows : list row) i :
  rowAt rows i = (kveKey (rowAt rows i), kveValue (rowAt rows i), None).
Proof. unfold rowAt. now destruct (nth_error rows i) as [[k v]|]. Qed.

Lemma rowAt_err (rows : list row) i : kveErr (rowAt rows i) = None.
Proof. unfold rowAt. now destruct (nth_error rows i) as [[k v]|]. Qed.

Lemma rowAt_cases (rows : list row) i :
  (exists k v, nth_error rows i = Some (k, v) /\ i < length rows /\
               rowAt rows i = (Some k, Some v, None)) \/
  (length rows <= i /\ rowAt rows i = (None, None, None)).
Proof.
  unfold rowAt. destruct (nth_error rows i) as [[k v]|] eqn:E.
  - left. exists k, v. repeat split. apply nth_error_Some. congruence.
  - right. split; [|reflexivity]. now apply nth_error_None.
Qed.

Section SkipCases.

Context {DB MEM : Type}.
Context {dbCursor : kv.CursorDupSort DB}.
Context {rwMemCursor : kv.RwCursorDupSort MEM}.
Variable DupSort : Z.
Variable ChaindataTablesCfg : kv.TableCfg.

Lemma skipDeleted_unfold fuel t (r : kve) (m : memoryMutationCursor DB MEM) :
  skipDeleted ChaindataTablesCfg fuel t r m =
  if negb (isNil (kveKey r)) && negb (isNil (kveValue r)) then
    match convertAutoDupsort ChaindataTablesCfg (table m) (kveKey r) (kveValue r)
                             (kv.valueRoom (cursor m)) with
    | Panicked msg => Panicked msg
    | Returned ekey =>
        if isEntryDeleted (mutation m) (table m) (contents ekey) then
          match fuel with
          | O => Returned (r, m)
          | S fuel' =>
              match stepCursor t m with
              | Returned (r', m') =>
                  if hasErr (kveErr r') then Returned (r', m')
                  else skipDeleted ChaindataTablesCfg fuel' t r' m'
              | Panicked msg => Panicked msg
              end
          end
        else Returned (r, m)
    end
  else Returned (r, m).
Proof.
  destruct r as [[k v] e]. simpl_cursor.
  destruct fuel; cbn [skipDeleted];
    (destruct (negb (isNil k) && negb (isNil v)); [|reflexivity]);
    unfold bind, gets, ret, liftOutcome;
    (destruct (convertAutoDupsort ChaindataTablesCfg (table m) k v
                                  (kv.valueRoom (cursor m))); [|reflexivity]);
    (destruct (isEntryDeleted (mutation m) (table m) (contents a)); [|reflexivity]);
    try reflexivity.
  destruct (stepCursor t m) as [[r' m']|msg]; [|reflexivity].
  destruct (hasErr (kveErr r')); reflexivity.
Qed.

Lemma getNextOnDb_unfold t (m : memoryMutationCursor DB MEM) :
  getNextOnDb ChaindataTablesCfg t m =
  match stepCursor t m with
  | Returned (r, m1) =>
      if hasErr (kveErr r) then Returned (r, m1)
      else skipDeleted ChaindataTablesCfg (S (kv.stepsLeft (cursor m1))) t r m1
  | Panicked msg => Panicked msg
  end.
Proof.
  unfold getNextOnDb, bind, gets, ret.
  destruct (stepCursor t m) as [[r m1]|msg]; [|reflexivity].
  destruct (hasErr (kveErr r)); reflexivity.
Qed.

Lemma skipIntersection_cases memKey memValue dbKey dbValue t
      (m : memoryMutationCursor DB MEM) :
  skipIntersection DupSort ChaindataTablesCfg memKey memValue dbKey dbValue t m =
  getNextOnDb ChaindataTablesCfg t m \/
  skipIntersection DupSort ChaindataTablesCfg memKey memValue dbKey dbValue t m =
  Returned ((dbKey, dbValue, None), m) \/
  exists msg,
    skipIntersection DupSort ChaindataTablesCfg memKey memValue dbKey dbValue t m =
    Panicked msg.
Proof.
  rewrite skipIntersection_unfold. cbv zeta.
  repeat match goal with
         | |- context [if ?b then _ else _] => destruct b; auto
         | |- context [match sliceTo ?s ?n with _ => _ end] =>
             destruct (sliceTo s n); eauto
         end.
Qed.

Lemma First_uncleared_unfold (m : memoryMutationCursor DB MEM) :
  isTableCleared (mutation m) (table m) = false ->
  First DupSort ChaindataTablesCfg m =
  let '((memKey, memValue, err), mc) := kv.First (memCursor m) in
  if hasErr err then Returned ((None, None, err), setMemCursor mc m)
  else
    let '((dbKey, dbValue, err), c) := kv.First (cursor m) in
    let m1 := setCursor c (setMemCursor mc m) in
    if hasErr err then Returned ((None, None, err), m1)
    else
      match (if negb (isNil dbKey)
                && isEntryDeleted (mutation m) (table m) (contents dbKey)
             then getNextOnDb ChaindataTablesCfg Normal m1
             else Returned ((dbKey, dbValue, err), m1)) with
      | Returned ((dbKey, dbValue, err), m2) =>
          if hasErr err then Returned ((None, None, err), m2)
          else goForward DupSort ChaindataTablesCfg memKey memValue dbKey dbValue Normal m2
      | Panicked msg => Panicked msg
      end.
Proof.
  intros Hc. unfold First, bind, gets, ret, onMemCursor, onCursor.
  destruct (kv.First (memCursor m)) as [[[memKey memValue] err] mc].
  destruct (hasErr err); [reflexivity|]. simpl_cursor. rewrite Hc. simpl_cursor.
  destruct (kv.First (cursor m)) as [[[dbKey dbValue] err'] c]. simpl_cursor.
  destruct (hasErr err') eqn:E; [reflexivity|]. cbv zeta.
  destruct (negb (isNil dbKey) && isEntryDeleted (mutation m) (table m) (contents dbKey)).
  - destruct (getNextOnDb ChaindataTablesCfg Normal (setCursor c (setMemCursor mc m)))
      as [[[[k v] e] m2]|msg]; [|reflexivity].
    destruct (hasErr e); reflexivity.
  - rewrite E. reflexivity.
Qed.

(** A stepping call leaves the table and the mutation, and fewer steps when
    it finds an entry. *)
Lemma stepCursor_returns t (m : memoryMutationCursor DB MEM) :
  kv.stepsLeftDecreases DB ->
  exists r m',
    stepCursor t m = Returned (r, m') /\
    table m' = table m /\ mutation m' = mutation m /\
    (kveKey r <> None -> kv.stepsLeft (cursor m') < kv.stepsLeft (cursor m)).
Proof.
  intros Hlaw. destruct (Hlaw (cursor m)) as (Hn & Hd & Hnd).
  destruct t; unfold stepCursor, onCursor.
  - destruct (kv.Next (cursor m)) as [r c]. exists r, (setCursor c m). now repeat split.
  - destruct (kv.NextDup (cursor m)) as [r c]. exists r, (setCursor c m). now repeat split.
  - destruct (kv.NextNoDup (cursor m)) as [r c]. exists r, (setCursor c m).
    now repeat split.
Qed.

(** The loop ends on an entry that is not deleted: the steps left bound its
    turns. *)
Lemma skipDeleted_ends_live t :
  kv.stepsLeftDecreases DB ->
  forall fuel (r : kve) (m m' : memoryMutationCursor DB MEM) k v,
    (kveKey r <> None -> kv.stepsLeft (cursor m) < fuel) ->
    skipDeleted ChaindataTablesCfg fuel t r m = Returned ((Some k, Some v, None), m') ->
    table m' = table m /\ mutation m' = mutation m /\
    exists ekey,
      convertAutoDupsort ChaindataTablesCfg (table m) (Some k) (Some v)
                         (kv.valueRoom (cursor m')) = Returned ekey /\
      isEntryDeleted (mutation m) (table m) (contents ekey) = false.
Proof.
  intros Hlaw. induction fuel as [|fuel IH]; intros r m m' k v Hfuel H;
    rewrite skipDeleted_unfold in H;
    (destruct (negb (isNil (kveKey r)) && negb (isNil (kveValue r))) eqn:Enil;
     [|injection H as -> ->; cbn in Enil; discriminate Enil]);
    (destruct (convertAutoDupsort ChaindataTablesCfg (table m) (kveKey r) (kveValue r)
                                  (kv.valueRoom (cursor m)))
       as [ekey|msg] eqn:Ec; [|discriminate H]);
    (destruct (isEntryDeleted (mutation m) (table m) (contents ekey)) eqn:Ed;
     [|injection H as -> ->; cbn [kveKey kveValue fst snd] in Ec; eauto]);
    (assert (kveKey r <> None) as Hk
       by (destruct (kveKey r); [discriminate|discriminate Enil])).
  - apply Hfuel in Hk. lia.
  - destruct (stepCursor_returns t m Hlaw) as (r' & m1 & Hs & Ht & Hmu & Hless).
    rewrite Hs in H. destruct (hasErr (kveErr r')) eqn:Ee.
    { injection H as -> ->. cbn in Ee. discriminate Ee. }
    apply IH in H.
    + rewrite Ht, Hmu in H. exact H.
    + intros Hk'. apply Hless in Hk'. apply Hfuel in Hk. lia.
Qed.

(** X3.  Tombstone invisibility of [getNextOnDb], over any base cursor whose
    stepping calls that find an entry leave fewer entries to step over: an
    entry the call returns is not deleted under its effective key. *)
Theorem getNextOnDb_skips_deleted_rows t (m m' : memoryMutationCursor DB MEM) k v :
  kv.stepsLeftDecreases DB ->
  getNextOnDb ChaindataTablesCfg t m = Returned ((Some k, Some v, None), m') ->
  exists ekey,
    convertAutoDupsort ChaindataTablesCfg (table m) (Some k) (Some v)
                       (kv.valueRoom (cursor m')) = Returned ekey /\
    isEntryDeleted (mutation m) (table m) (contents ekey) = false.
Proof.
  intros Hlaw H. rewrite getNextOnDb_unfold in H.
  destruct (stepCursor_returns t m Hlaw) as (r & m1 & Hs & Ht & Hmu & _).
  rewrite Hs in H. destruct (hasErr (kveErr r)) eqn:Ee.
  { injection H as -> ->. cbn in Ee. discriminate Ee. }
  apply (skipDeleted_ends_live t Hlaw) in H; [|lia].
  rewrite Ht, Hmu in H. apply H.
Qed.

End SkipCases.

(** ** The bounds of the loops *)

Section LoopBounds.

Context {DB MEM : Type}.
Context {dbCursor : kv.CursorDupSort DB}.
Context {rwMemCursor : kv.RwCursorDupSort MEM}.
Variable ChaindataTablesCfg : kv.TableCfg.
Variable mutationDelete :
  string -> slice -> MemoryMutation * MEM -> option error * (MemoryMutation * MEM).

Hypothesis stepsDecrease : kv.stepsLeftDecreases DB.

(** X4.  The bound on the loop of [getNextOnDb] is never met: with a base
    cursor whose stepping calls that find an entry leave fewer entries to
    step over, a loop allowed one turn more than the steps left gives the
    same result when it is allowed more. *)
Theorem skipDeleted_fuel_enough t :
  forall fuel fuel' (r : kve) (m : memoryMutationCursor DB MEM),
    (kveKey r <> None -> kv.stepsLeft (cursor m) < fuel) ->
    fuel <= fuel' ->
    skipDeleted ChaindataTablesCfg fuel' t r m = skipDeleted ChaindataTablesCfg fuel t r m.
Proof.
  induction fuel as [|fuel IH]; intros fuel' r m Hfuel Hle;
    rewrite (skipDeleted_unfold ChaindataTablesCfg fuel'),
      (skipDeleted_unfold ChaindataTablesCfg _ t r m);
    (destruct (negb (isNil (kveKey r)) && negb (isNil (kveValue r))) eqn:Enil;
     [|reflexivity]);
    (destruct (convertAutoDupsort ChaindataTablesCfg (table m) (kveKey r) (kveValue r)
                                  (kv.valueRoom (cursor m)))
       as [ekey|msg]; [|reflexivity]);
    (destruct (isEntryDeleted (mutation m) (table m) (contents ekey)); [|reflexivity]);
    (assert (kveKey r <> None) as Hk
       by (destruct (kveKey r); [discriminate|discriminate Enil]));
    pose proof (Hfuel Hk) as Hlt; [lia|].
  destruct fuel' as [|fuel']; [lia|].
  destruct (stepCursor_returns t m stepsDecrease) as (r' & m1 & -> & _ & _ & Hless).
  destruct (hasErr (kveErr r')); [reflexivity|].
  apply IH; [|lia]. intros Hk'. apply Hless in Hk'. lia.
Qed.

Lemma deleteDups_unfold fuel k v err (m : memoryMutationCursor DB MEM) :
  deleteDups mutationDelete fuel k v err m =
  if negb (isNil v) then
    if hasErr err then Returned (err, m)
    else
      let '(derr, (mu, mem)) := mutationDelete (table m) k (mutation m, memCursor m) in
      let m1 := setMemCursor mem (setMutation mu m) in
      if hasErr derr then Returned (derr, m1)
      else
        match fuel with
        | O => Returned (None, m1)
        | S fuel' =>
            let '((k', v', err'), c') := kv.NextDup (cursor m) in
            deleteDups mutationDelete fuel' k' v' err' (setCursor c' m1)
        end
  else Returned (None, m).
Proof.
  destruct fuel; cbn [deleteDups];
    (destruct (negb (isNil v)); [|reflexivity]);
    (destruct (hasErr err); [reflexivity|]);
    unfold bind at 1; unfold Delete at 1;
    destruct (mutationDelete (table m) k (mutation m, memCursor m)) as [derr [mu mem]];
    cbv zeta; (destruct (hasErr derr); [reflexivity|]); [reflexivity|].
  unfold bind, onCursor. simpl_cursor.
  destruct (kv.NextDup (cursor m)) as [[[k' v'] err'] c']. reflexivity.
Qed.

Hypothesis valuesWhole : kv.valuesHaveKeys DB.

(** X5.  The bound on the loop of [DeleteCurrentDuplicates] is never met:
    with such a base cursor, whose [NextDup] gives a value only with its
    key, a loop allowed one turn more than the steps left gives the same
    result when it is allowed more. *)
Theorem deleteDups_fuel_enough :
  forall fuel fuel' k v err (m : memoryMutationCursor DB MEM),
    (v <> None -> kv.stepsLeft (cursor m) < fuel) ->
    fuel <= fuel' ->
    deleteDups mutationDelete fuel' k v err m = deleteDups mutationDelete fuel k v err m.
Proof.
  induction fuel as [|fuel IH]; intros fuel' k v err m Hfuel Hle;
    rewrite (deleteDups_unfold fuel'), (deleteDups_unfold _ k v err m);
    (destruct (negb (isNil v)) eqn:Enil; [|reflexivity]);
    (destruct (hasErr err); [reflexivity|]);
    destruct (mutationDelete (table m) k (mutation m, memCursor m)) as [derr [mu mem]];
    cbv zeta; (destruct (hasErr derr); [reflexivity|]);
    (assert (v <> None) as Hv by (destruct v; [discriminate|discriminate Enil]));
    pose proof (Hfuel Hv) as Hlt; [lia|].
  destruct fuel' as [|fuel']; [lia|].
  pose proof (stepsDecrease (cursor m)) as (_ & Hdup & _).
  pose proof (valuesWhole (cursor m)) as Hwhole.
  destruct (kv.NextDup (cursor m)) as [[[k' v'] err'] c'].
  cbn [fst snd kveKey kveValue] in Hdup, Hwhole.
  apply IH; [|lia]. simpl_cursor. intros Hv'. apply Hwhole, Hdup in Hv'. lia.
Qed.

End LoopBounds.

(** ** The methods that are not supported *)

Section Unsupported.

Context {DB MEM : Type}.
Context {dbCursor : kv.CursorDupSort DB}.
Context {rwMemCursor : kv.RwCursorDupSort MEM}.
Variable mutationDelete :
  string -> slice -> MemoryMutation * MEM -> option error * (MemoryMutation * MEM).

Local Abbreviation cursorState := (memoryMutationCursor DB MEM).
Local Abbreviation panicsAlways := (@panicsAlways DB MEM _).

Hypothesis stepsDecrease : kv.stepsLeftDecreases DB.
Hypothesis valuesWhole : kv.valuesHaveKeys DB.

(** A loop with a nil value ends at once, whatever it is allowed. *)
Lemma deleteDups_nil fuel k err (m : cursorState) :
  deleteDups mutationDelete fuel k None err m = Returned (None, m).
Proof. now rewrite deleteDups_unfold. Qed.

(** A loop allowed more turns than the base cursor has steps left runs as
    the loop of [DeleteCurrentDuplicates] does. *)
Lemma deleteDups_normal n : forall fuel k v err (m : cursorState),
  fuel <= n -> kv.stepsLeft (cursor m) < fuel ->
  deleteDups mutationDelete fuel k v err m = deleteLoop mutationDelete k v err m.
Proof.
  induction n as [|n IH]; intros fuel k v err m Hn Hfuel; [lia|].
  unfold deleteLoop, bind, gets.
  destruct fuel as [|fuel]; [lia|].
  rewrite (deleteDups_unfold mutationDelete (S fuel)),
    (deleteDups_unfold mutationDelete (S (kv.stepsLeft (cursor m)))).
  destruct (negb (isNil v)); [|reflexivity].
  destruct (hasErr err); [reflexivity|].
  destruct (mutationDelete (table m) k (mutation m, memCursor m)) as [derr [mu mem]].
  cbv zeta. destruct (hasErr derr); [reflexivity|].
  pose proof (stepsDecrease (cursor m)) as (_ & Hdup & _).
  pose proof (valuesWhole (cursor m)) as Hwhole.
  destruct (kv.NextDup (cursor m)) as [[[k' v'] err'] c'].
  cbn [fst snd kveKey kveValue] in Hdup, Hwhole.
  destruct v' as [v'|]; [|now rewrite !deleteDups_nil].
  assert (kv.stepsLeft c' < kv.stepsLeft (cursor m)) as Hless
      by (apply Hdup, Hwhole; discriminate).
  rewrite (IH fuel), (IH (kv.stepsLeft (cursor m))); simpl_cursor; [reflexivity|lia..].
Qed.

(** One turn of the loop of [DeleteCurrentDuplicates], as the source has
    it. *)
Lemma deleteLoop_turn k v err (m : cursorState) :
  deleteLoop mutationDelete k v err m =
  if negb (isNil v) then
    if hasErr err then Returned (err, m)
    else
      match Delete mutationDelete k m with
      | Returned (derr, m1) =>
          if hasErr derr then Returned (derr, m1)
          else
            let '((k', v', err'), c') := kv.NextDup (cursor m1) in
            deleteLoop mutationDelete k' v' err' (setCursor c' m1)
      | Panicked msg => Panicked msg
      end
  else Returned (None, m).
Proof.
  unfold deleteLoop at 1. unfold bind, gets. rewrite deleteDups_unfold.
  destruct (negb (isNil v)); [|reflexivity].
  destruct (hasErr err); [reflexivity|]. unfold Delete.
  destruct (mutationDelete (table m) k (mutation m, memCursor m)) as [derr [mu mem]].
  cbv zeta. destruct (hasErr derr); [reflexivity|]. simpl_cursor.
  pose proof (stepsDecrease (cursor m)) as (_ & Hdup & _).
  pose proof (valuesWhole (cursor m)) as Hwhole.
  destruct (kv.NextDup (cursor m)) as [[[k' v'] err'] c'].
  cbn [fst snd kveKey kveValue] in Hdup, Hwhole.
  destruct v' as [v'|].
  - apply (deleteDups_normal (kv.stepsLeft (cursor m))); simpl_cursor; [lia|].
    apply Hdup, Hwhole. discriminate.
  - rewrite deleteDups_nil. unfold deleteLoop, bind, gets. now rewrite deleteDups_nil.
Qed.

Lemma DeleteCurrentDuplicates_returns (m : cursorState) :
  exists err m', DeleteCurrentDuplicates mutationDelete m = Returned (err, m').
Proof.
  unfold DeleteCurrentDuplicates, deleteLoop, bind, onCursor, onMemCursor, gets, ret.
  destruct (kv.Current (cursor m)) as [[[k v0] err] c1].
  destruct (hasErr err); [eauto|].
  cbn [cursor setCursor].
  destruct (kv.SeekBothRange k None c1) as [[v err1] c2].
  cbn [cursor setCursor].
  destruct (deleteDups_returns mutationDelete (S (kv.stepsLeft c2)) k v err1
              (setCursor c2 (setCursor c1 m)))
    as (e & m' & ->).
  destruct (hasErr e); [eauto|].
  destruct (kv.Current (memCursor m')) as [[[dbK v1] err2] c3].
  destruct (hasErr err2); [eauto|].
  destruct (0 <? len dbK)%Z; [|eauto].
  destruct (kv.DeleteCurrentDuplicates (memCursor (setMemCursor c3 m'))); eauto.
Qed.

End Unsupported.

Section UnsupportedMethods.

Context {DB MEM : Type}.
Context {dbCursor : kv.CursorDupSort DB}.
Context {rwMemCursor : kv.RwCursorDupSort MEM}.
Variable mutationDelete :
  string -> slice -> MemoryMutation * MEM -> option error * (MemoryMutation * MEM).

Local Abbreviation cursorState := (memoryMutationCursor DB MEM).
Local Abbreviation panicsAlways := (@panicsAlways DB MEM _).


End UnsupportedMethods.

Section ListScan.

Variable DupSort : Z.
Variable ChaindataTablesCfg : kv.TableCfg.
Variables base overlay : list row.

Local Abbreviation state := (memoryMutationCursor listCursor listCursor).
Local Abbreviation dbAt := (dbAt base).
Local Abbreviation memAt := (memAt overlay).

Lemma stepCursor_Normal_list (m : state) i :
  cursor m = dbAt i -> i <= length base ->
  stepCursor Normal m =
  Returned (rowAt base (S i), setCursor (dbAt (Nat.min (S i) (length base))) m).
Proof.
  intros Hc Hi. unfold stepCursor, onCursor. rewrite Hc. reflexivity.
Qed.

Lemma skipDeleted_list fuel : forall j (m : state),
  cursor m = dbAt j -> j <= length base -> length base - j < fuel ->
  (exists msg,
      skipDeleted ChaindataTablesCfg fuel Normal (rowAt base j) m = Panicked msg) \/
  (exists j', j <= j' <= length base /\
              skipDeleted ChaindataTablesCfg fuel Normal (rowAt base j) m =
              Returned (rowAt base j', setCursor (dbAt j') m)).
Proof.
  induction fuel as [|fuel IH]; intros j m Hc Hj Hfuel; [lia|].
  rewrite skipDeleted_unfold.
  destruct (rowAt_cases base j) as [(k & v & Hn & Hlt & E)|[Hge E]]; rewrite E;
    simpl_cursor; cbn [isNil negb andb].
  - destruct (convertAutoDupsort ChaindataTablesCfg (table m) (Some k) (Some v))
      as [ekey|msg]; [|left; eauto].
    destruct (isEntryDeleted (mutation m) (table m) (contents ekey)).
    + rewrite (stepCursor_Normal_list m j Hc Hj).
      rewrite rowAt_err. simpl_cursor.
      replace (Nat.min (S j) (length base)) with (S j) by lia.
      destruct (IH (S j) (setCursor (dbAt (S j)) m)) as [[msg H]|(j' & Hj' & H)];
        [reflexivity|lia|lia| |].
      * left. eauto.
      * right. exists j'. split; [lia|]. rewrite H. now rewrite setCursor_setCursor.
    + right. exists j. split; [lia|]. now rewrite E, <- Hc, setCursor_same.
  - right. exists j. split; [lia|]. now rewrite E, <- Hc, setCursor_same.
Qed.

Lemma getNextOnDb_list (m : state) i :
  cursor m = dbAt i -> i <= length base ->
  (exists msg, getNextOnDb ChaindataTablesCfg Normal m = Panicked msg) \/
  (exists j, i <= j <= length base /\
             getNextOnDb ChaindataTablesCfg Normal m =
             Returned (rowAt base j, setCursor (dbAt j) m)).
Proof.
  intros Hc Hi. rewrite getNextOnDb_unfold.
  rewrite (stepCursor_Normal_list m i Hc Hi).
  rewrite rowAt_err. simpl_cursor.
  change (kv.stepsLeft (dbAt (Nat.min (S i) (length base))))
    with (length base - Nat.min (S i) (length base)).
  destruct (skipDeleted_list (S (length base - Nat.min (S i) (length base)))
              (Nat.min (S i) (length base))
              (setCursor (dbAt (Nat.min (S i) (length base))) m))
    as [[msg H]|(j' & Hj' & H)]; [reflexivity|lia|lia| |].
  - destruct (Nat.eq_dec i (length base)) as [->|Hne].
    + exfalso. revert H.
      replace (Nat.min (S (length base)) (length base)) with (length base) by lia.
      rewrite skipDeleted_unfold, (rowAt_None base (length base)) by lia.
      discriminate.
    + left. exists msg. revert H.
      replace (Nat.min (S i) (length base)) with (S i) by lia. auto.
  - right. exists j'. split; [lia|]. rewrite setCursor_setCursor in H.
    destruct (Nat.eq_dec i (length base)) as [->|Hne].
    + revert H.
      replace (Nat.min (S (length base)) (length base)) with (length base) by lia.
      rewrite (rowAt_None base (S (length base))), (rowAt_None base (length base)) by lia.
      auto.
    + revert H. replace (Nat.min (S i) (length base)) with (S i) by lia. auto.
Qed.

Lemma skipIntersection_list (m : state) i memKey memValue :
  cursor m = dbAt i -> i <= length base ->
  (exists msg,
      skipIntersection DupSort ChaindataTablesCfg memKey memValue
                       (kveKey (rowAt base i)) (kveValue (rowAt base i)) Normal m =
      Panicked msg) \/
  (exists j, i <= j <= length base /\
             skipIntersection DupSort ChaindataTablesCfg memKey memValue
                              (kveKey (rowAt base i)) (kveValue (rowAt base i)) Normal m =
             Returned (rowAt base j, setCursor (dbAt j) m)).
Proof.
  intros Hc Hi.
  destruct (skipIntersection_cases DupSort ChaindataTablesCfg memKey memValue
              (kveKey (rowAt base i)) (kveValue (rowAt base i)) Normal m)
    as [->|[->|[msg ->]]].
  - now apply getNextOnDb_list.
  - right. exists i. split; [lia|]. rewrite <- rowAt_eta.
    now rewrite <- Hc, setCursor_same.
  - left. eauto.
Qed.

Variable t : string.

Local Abbreviation isDupSortTable := (isDupSortTable DupSort ChaindataTablesCfg t).
Local Abbreviation synced := (synced base overlay).
Local Abbreviation Track := (Track base overlay).
Local Abbreviation CTrack := (CTrack overlay t).
Local Abbreviation Ended := (Ended base overlay).
Local Abbreviation Scanning := (Scanning base overlay t).

Hypothesis baseOrdered : tableOrdered isDupSortTable base.
Hypothesis overlayOrdered : tableOrdered isDupSortTable overlay.

Lemma lowerBound_sorted (rows : list row) dupsort i r :
  tableOrdered dupsort rows -> nth_error rows i = Some r -> lowerBound r rows i.
Proof.
  intros Hs Hn j r' Hij Hn'. eapply tableOrdered_nth_le; eassumption.
Qed.

Lemma lowerBound_trans y y' (rows : list row) i :
  rowLe y y' -> lowerBound y' rows i -> lowerBound y rows i.
Proof.
  intros Hle Hb j r Hij Hn. eapply rowLe_trans; [eassumption|]. eapply Hb; eassumption.
Qed.

Lemma lowerBound_past y (rows : list row) i :
  length rows <= i -> lowerBound y rows i.
Proof.
  intros Hi j r Hij Hn. exfalso.
  assert (j < length rows) by (apply nth_error_Some; congruence). lia.
Qed.

Lemma lowerBound_mono y (rows : list row) i j :
  i <= j -> lowerBound y rows i -> lowerBound y rows j.
Proof. intros Hij Hb j' r Hj Hn. apply (Hb j' r); [lia|assumption]. Qed.

Lemma entryAt_Some (rows : list row) i k v :
  nth_error rows i = Some (k, v) ->
  entryAt rows i = {| key := Some k; value := Some v |}.
Proof. intros H. unfold entryAt. now rewrite (rowAt_Some _ _ _ _ H). Qed.

Lemma entryAt_None (rows : list row) i :
  length rows <= i -> entryAt rows i = emptyEntry.
Proof. intros H. unfold entryAt. now rewrite (rowAt_None _ _ H). Qed.

(** The merge step on two tables, the candidates being the rows under the
    two cursors. *)
Lemma goForward_list (m : state) dpos mpos memKey memValue dbKey dbValue :
  cursor m = dbAt dpos -> memCursor m = memAt mpos ->
  dpos <= length base -> mpos <= length overlay ->
  rowAt overlay mpos = (memKey, memValue, None) ->
  rowAt base dpos = (dbKey, dbValue, None) ->
  let r := goForward DupSort ChaindataTablesCfg memKey memValue dbKey dbValue Normal m in
  (dpos = length base /\ mpos = length overlay /\
   r = Returned ((None, None, None), m)) \/
  (exists msg, r = Panicked msg) \/
  (exists m', r = Returned ((None, None, None), m') /\ Ended m') \/
  (exists k v m', r = Returned ((Some k, Some v, None), m') /\
                  Track m' (k, v) /\
                  forall y, lowerBound y base dpos -> lowerBound y overlay mpos ->
                            rowLe y (k, v)).
Proof.
  intros Hc Hmc Hd Hm Hro Hrb r. subst r. rewrite goForward_unfold.
  pose proof (skipIntersection_list m dpos memKey memValue Hc Hd) as Hskip.
  rewrite Hrb in Hskip. simpl_cursor.
  destruct (rowAt_cases overlay mpos) as [(mk & mv & Hmn & Hmlt & Em)|[Hmge Em]];
    rewrite Em in Hro; injection Hro as <- <-.
  - (* the overlay has a row *)
    right. cbn [isNil andb].
    destruct Hskip as [[msg H]|(j & Hj & H)]; [left; exists msg; now rewrite H|].
    rewrite H. right. right.
    destruct (rowAt_cases base j) as [(dk & dv & Hdn & Hdlt & Ed)|[Hdge Ed]];
      rewrite Ed; cbv zeta; cbn [isNil].
    + destruct (dbIsSmaller (Some mk) (Some mv) (Some dk) (Some dv)) eqn:Esm.
      * apply dbIsSmaller_rows in Esm.
        do 3 eexists. split; [reflexivity|]. split.
        -- exists j, mpos. repeat split; simpl_cursor; auto; try lia.
           ++ now rewrite (entryAt_Some _ _ _ _ Hdn).
           ++ now rewrite (entryAt_Some _ _ _ _ Hmn).
           ++ eapply lowerBound_sorted; eassumption.
           ++ eapply lowerBound_trans; [apply rowLt_le; eassumption|].
              eapply lowerBound_sorted; eassumption.
        -- intros y Hyb Hyo. apply (Hyb j (dk, dv)); [lia|assumption].
      * assert (rowLe (mk, mv) (dk, dv)) as Hle.
        { destruct (rowLe_or_Lt (mk, mv) (dk, dv)) as [?|Hlt]; [assumption|].
          apply dbIsSmaller_rows in Hlt. congruence. }
        do 3 eexists. split; [reflexivity|]. split.
        -- exists j, mpos. repeat split; simpl_cursor; auto; try lia.
           ++ now rewrite (entryAt_Some _ _ _ _ Hdn).
           ++ now rewrite (entryAt_Some _ _ _ _ Hmn).
           ++ eapply lowerBound_trans; [eassumption|].
              eapply lowerBound_sorted; eassumption.
           ++ eapply lowerBound_sorted; eassumption.
        -- intros y Hyb Hyo. apply (Hyo mpos (mk, mv)); [lia|assumption].
    + rewrite dbIsSmaller_db_nil.
      do 3 eexists. split; [reflexivity|]. split.
      * exists j, mpos. repeat split; simpl_cursor; auto; try lia.
        -- now rewrite (entryAt_None _ _ Hdge).
        -- now rewrite (entryAt_Some _ _ _ _ Hmn).
        -- now apply lowerBound_past.
        -- eapply lowerBound_sorted; eassumption.
      * intros y Hyb Hyo. apply (Hyo mpos (mk, mv)); [lia|assumption].
  - (* the overlay has run out *)
    destruct (rowAt_cases base dpos) as [(dk0 & dv0 & Hdn0 & Hdlt0 & Ed0)|[Hdge0 Ed0]];
      rewrite Ed0 in Hrb; injection Hrb as <- <-.
    2:{ left. cbn. repeat split; lia. }
    right. cbn [isNil andb].
    destruct Hskip as [[msg H]|(j & Hj & H)]; [left; exists msg; now rewrite H|].
    rewrite H. right.
    destruct (rowAt_cases base j) as [(dk & dv & Hdn & Hdlt & Ed)|[Hdge Ed]];
      rewrite Ed; cbv zeta; cbn [isNil].
    + right. rewrite dbIsSmaller_mem_nil.
      do 3 eexists. split; [reflexivity|]. split.
      * exists j, mpos. repeat split; simpl_cursor; auto; try lia.
        -- now rewrite (entryAt_Some _ _ _ _ Hdn).
        -- now rewrite (entryAt_None _ _ Hmge).
        -- eapply lowerBound_sorted; eassumption.
        -- now apply lowerBound_past.
      * intros y Hyb Hyo. apply (Hyb j (dk, dv)); [lia|assumption].
    + left. rewrite dbIsSmaller_db_nil.
      eexists. split; [reflexivity|]. right. simpl_cursor.
      repeat split. rewrite Hmc. unfold memAt. do 2 f_equal. lia.
Qed.

Lemma lcNext_at (rows : list row) i :
  lcNext {| lcRows := rows; lcPos := Some i |} =
  (rowAt rows (S i), {| lcRows := rows; lcPos := Some (Nat.min (S i) (length rows)) |}).
Proof. reflexivity. Qed.

Lemma Ended_Next (m : state) :
  Ended m -> Next DupSort ChaindataTablesCfg m = Returned ((None, None, None), m).
Proof.
  intros [(Hp & Hc & Hv)|(Hp & Hmc & Hv)]; unfold Next; rewrite nextWith_unfold, Hp.
  - rewrite getNextOnDb_unfold, (stepCursor_Normal_list m (length base) Hc) by lia.
    replace (Nat.min (S (length base)) (length base)) with (length base) by lia.
    rewrite (rowAt_None base (S (length base))) by lia. simpl_cursor.
    rewrite skipDeleted_unfold. simpl_cursor. cbn [isNil negb andb].
    rewrite <- Hc, setCursor_same, Hv, goForward_unfold. reflexivity.
  - change (kv.Next (memCursor m)) with (lcNext (memCursor m)).
    rewrite Hmc. unfold memAt. rewrite lcNext_at.
    replace (Nat.min (S (length overlay)) (length overlay)) with (length overlay) by lia.
    rewrite (rowAt_None overlay (S (length overlay))) by lia. simpl_cursor.
    fold (memAt (length overlay)). rewrite <- Hmc, setMemCursor_same, Hv, goForward_unfold.
    reflexivity.
Qed.

Lemma Track_Next (m : state) y :
  Track m y ->
  let r := Next DupSort ChaindataTablesCfg m in
  (exists msg, r = Panicked msg) \/
  (exists m', r = Returned ((None, None, None), m') /\ Ended m') \/
  (exists k v m', r = Returned ((Some k, Some v, None), m') /\
                  Track m' (k, v) /\ rowLe y (k, v)).
Proof.
  intros (dpos & mpos & (Hc & Hmc & Hd & Hm & Hcd & Hcm) & Hyb & Hyo) r. subst r.
  unfold Next. rewrite nextWith_unfold. destruct (isPrevFromDb m) eqn:Hp.
  - destruct (getNextOnDb_list m dpos Hc Hd) as [[msg H]|(j & Hj & H)];
      rewrite H; [left; eauto|].
    rewrite (rowAt_eta base j). simpl_cursor. rewrite Hcm. cbn [entryAt key value].
    destruct (goForward_list (setCursor (dbAt j) m) j mpos
                (kveKey (rowAt overlay mpos)) (kveValue (rowAt overlay mpos))
                (kveKey (rowAt base j)) (kveValue (rowAt base j)))
      as [(Ej & Em & H')|[[msg H']|[(m' & H' & He)|(k & v & m' & H' & Ht & Hle)]]];
      try reflexivity; try assumption; try lia; try apply rowAt_eta; rewrite H'.
    + right. left. eexists. split; [reflexivity|]. left. simpl_cursor.
      repeat split; [assumption|now rewrite Ej|].
      now rewrite Hcm, (entryAt_None overlay mpos) by lia.
    + left. eauto.
    + right. left. eauto.
    + right. right. do 3 eexists. split; [reflexivity|]. split; [assumption|].
      apply Hle; [|assumption]. eapply lowerBound_mono; [|eassumption]. lia.
  - change (kv.Next (memCursor m)) with (lcNext (memCursor m)).
    rewrite Hmc. unfold memAt. rewrite lcNext_at.
    set (mpos' := Nat.min (S mpos) (length overlay)).
    assert (rowAt overlay (S mpos) = rowAt overlay mpos') as ->.
    { subst mpos'. destruct (Nat.le_gt_cases (S mpos) (length overlay)).
      - now replace (Nat.min (S mpos) (length overlay)) with (S mpos) by lia.
      - now rewrite !rowAt_None by lia. }
    rewrite (rowAt_eta overlay mpos'). simpl_cursor. rewrite Hcd. cbn [entryAt key value].
    fold (memAt mpos').
    destruct (goForward_list (setMemCursor (memAt mpos') m) dpos mpos'
                (kveKey (rowAt overlay mpos')) (kveValue (rowAt overlay mpos'))
                (kveKey (rowAt base dpos)) (kveValue (rowAt base dpos)))
      as [(Ej & Em & H')|[[msg H']|[(m' & H' & He)|(k & v & m' & H' & Ht & Hle)]]];
      try reflexivity; try assumption; try (subst mpos'; lia); try apply rowAt_eta;
      rewrite H'.
    + right. left. eexists. split; [reflexivity|]. right. simpl_cursor.
      repeat split; [assumption|now rewrite Em|].
      now rewrite Hcd, (entryAt_None base dpos) by lia.
    + left. eauto.
    + right. left. eauto.
    + right. right. do 3 eexists. split; [reflexivity|]. split; [assumption|].
      apply Hle; [assumption|]. eapply lowerBound_mono; [|eassumption].
      subst mpos'. lia.
Qed.

Lemma compareBytes_nil_r a : compareBytes a [] <> Lt.
Proof. destruct a; cbn; discriminate. Qed.

(** On a cleared table the intersection skip never reaches the base cursor:
    the stored base entry is nil, and a row of the overlay after its first
    has a key or a value that is not empty. *)
Lemma skipIntersection_cleared (m : state) i y k v :
  table m = t ->
  nth_error overlay i = Some y -> nth_error overlay (S i) = Some (k, v) ->
  (exists msg,
      skipIntersection DupSort ChaindataTablesCfg (Some k) (Some v) None None Normal m =
      Panicked msg) \/
  skipIntersection DupSort ChaindataTablesCfg (Some k) (Some v) None None Normal m =
  Returned ((None, None, None), m).
Proof.
  intros Ht Hn Hn'. rewrite skipIntersection_unfold, Ht. cbv zeta.
  destruct (bytes.Equal (Some k) None) eqn:Ek; [|now right].
  apply Equal_true_iff in Ek. cbn in Ek. subst k.
  assert (i < S i) as Hlt by lia.
  pose proof (StronglySorted_nth _ _ _ _ _ _ overlayOrdered Hlt Hn Hn') as Hord.
  unfold isDupSortTable in Hord.
  destruct (Z.land (kv.Flags (tableConfig ChaindataTablesCfg t)) DupSort =? 0)%Z;
    cbn [negb] in Hord.
  { exfalso. unfold keyLt, bytesLt in Hord. cbn [fst] in Hord.
    now apply compareBytes_nil_r in Hord. }
  destruct Hord as [Hord|[_ Hord]]; unfold bytesLt in Hord; cbn [fst snd] in Hord.
  { exfalso. now apply compareBytes_nil_r in Hord. }
  assert (v <> []) as Hv.
  { intros ->. now apply compareBytes_nil_r in Hord. }
  destruct (bytes.Equal (Some v) None) eqn:Ev.
  { apply Equal_true_iff in Ev. cbn in Ev. contradiction. }
  set (off := if kv.AutoDupSortKeysConversion (tableConfig ChaindataTablesCfg t)
              then dupOffset (tableConfig ChaindataTablesCfg t) else 0%Z).
  destruct (negb (off =? 0)%Z && (off <=? len (Some v))%Z && (off <=? len None)%Z) eqn:Ec;
    [|now right].
  left. apply andb_true_iff in Ec as [Ec E3]. apply andb_true_iff in Ec as [E1 E2].
  apply negb_true_iff, Z.eqb_neq in E1. apply Z.leb_le in E3. cbn in E3.
  unfold sliceTo at 1. destruct (Z.ltb_spec off 0); [|lia]. cbn [orb]. eauto.
Qed.

Lemma CTrack_Next (m : state) y :
  CTrack m y ->
  let r := Next DupSort ChaindataTablesCfg m in
  (exists msg, r = Panicked msg) \/
  (exists m', r = Returned ((None, None, None), m') /\ Ended m') \/
  (exists k v m', r = Returned ((Some k, Some v, None), m') /\
                  CTrack m' (k, v) /\ rowLe y (k, v)).
Proof.
  intros (i & Hp & Hmc & Hn & Hcd & Ht) r. subst r.
  assert (i < length overlay) as Hi by (apply nth_error_Some; congruence).
  unfold Next. rewrite nextWith_unfold, Hp.
  change (kv.Next (memCursor m)) with (lcNext (memCursor m)).
  rewrite Hmc. unfold memAt. rewrite lcNext_at.
  replace (Nat.min (S i) (length overlay)) with (S i) by lia. fold (memAt (S i)).
  rewrite Hcd. cbn [emptyEntry key value].
  destruct (rowAt_cases overlay (S i)) as [(k & v & Hn' & Hlt & E)|[Hge E]]; rewrite E;
    simpl_cursor; rewrite goForward_unfold; cbn [isNil andb].
  - destruct (skipIntersection_cleared (setMemCursor (memAt (S i)) m) i y k v Ht Hn Hn')
      as [[msg H]|H]; rewrite H; [left; eauto|].
    right. right. cbv zeta. rewrite dbIsSmaller_db_nil. cbn [isNil].
    do 3 eexists. split; [reflexivity|]. split.
    + exists (S i). simpl_cursor. repeat split; assumption.
    + eapply tableOrdered_nth_le; [exact overlayOrdered| |eassumption|eassumption]. lia.
  - right. left. eexists. split; [reflexivity|]. right. simpl_cursor.
    repeat split; [assumption| |now rewrite Hcd].
    unfold memAt. do 2 f_equal. lia.
Qed.

Lemma Scanning_Next (m : state) y :
  Scanning m y ->
  let r := Next DupSort ChaindataTablesCfg m in
  (exists msg, r = Panicked msg) \/
  (exists m', r = Returned ((None, None, None), m') /\ Ended m') \/
  (exists k v m', r = Returned ((Some k, Some v, None), m') /\
                  Scanning m' (k, v) /\ rowLe y (k, v)).
Proof.
  intros [H|H] r; subst r.
  - destruct (Track_Next m y H) as [?|[?|(k & v & m' & ? & ? & ?)]]; auto.
    right. right. exists k, v, m'. unfold Scanning. auto.
  - destruct (CTrack_Next m y H) as [?|[?|(k & v & m' & ? & ? & ?)]]; auto.
    right. right. exists k, v, m'. unfold Scanning. auto.
Qed.

Lemma entriesOf_nil_result rs :
  entriesOf ((None, None, None) :: rs) = entriesOf rs.
Proof. reflexivity. Qed.

Lemma entriesOf_row_result k v rs :
  entriesOf ((Some k, Some v, None) :: rs) = (k, v) :: entriesOf rs.
Proof. reflexivity. Qed.

Lemma runNexts_Ended n : forall m : state,
  Ended m -> entriesOf (runNexts DupSort ChaindataTablesCfg n m) = [].
Proof.
  induction n as [|n IH]; intros m He; [reflexivity|].
  cbn [runNexts]. rewrite (Ended_Next m He), entriesOf_nil_result. now apply IH.
Qed.

Lemma runNexts_Scanning n : forall (m : state) y,
  Scanning m y ->
  Forall (rowLe y) (entriesOf (runNexts DupSort ChaindataTablesCfg n m)) /\
  StronglySorted rowLe (entriesOf (runNexts DupSort ChaindataTablesCfg n m)).
Proof.
  induction n as [|n IH]; intros m y Hs; [split; constructor|].
  cbn [runNexts].
  destruct (Scanning_Next m y Hs)
    as [[msg ->]|[(m' & -> & He)|(k & v & m' & -> & Hs' & Hle)]].
  - split; constructor.
  - rewrite entriesOf_nil_result, (runNexts_Ended n m' He). split; constructor.
  - rewrite entriesOf_row_result. destruct (IH m' (k, v) Hs') as [Hall Hsorted]. split.
    + constructor; [assumption|].
      eapply Forall_impl; [|exact Hall]. intros r Hr. eapply rowLe_trans; eassumption.
    + constructor; assumption.
Qed.

Lemma lcFirst_new (rows : list row) :
  lcFirst {| lcRows := rows; lcPos := None |} =
  (rowAt rows 0, {| lcRows := rows; lcPos := Some 0 |}).
Proof. reflexivity. Qed.

Lemma First_newCursor mu :
  let r := First DupSort ChaindataTablesCfg (newCursor base overlay mu t) in
  (exists msg, r = Panicked msg) \/
  (exists m', r = Returned ((None, None, None), m') /\ Ended m') \/
  (exists k v m', r = Returned ((Some k, Some v, None), m') /\ Scanning m' (k, v)).
Proof.
  intros r. subst r. set (m0 := newCursor base overlay mu t).
  destruct (isTableCleared (mutation m0) (table m0)) eqn:Hcl.
  - (* cleared: the overlay alone *)
    rewrite (First_cleared_unfold _ _ m0 Hcl).
    change (kv.First (memCursor m0)) with (lcFirst {| lcRows := overlay; lcPos := None |}).
    rewrite lcFirst_new. fold (memAt 0).
    destruct (rowAt_cases overlay 0) as [(k & v & Hn & Hlt & E)|[Hge E]]; rewrite E;
      cbn [hasErr].
    + right. right. do 3 eexists. split; [reflexivity|]. right.
      exists 0. simpl_cursor. repeat split; assumption.
    + right. left. eexists. split; [reflexivity|]. right. simpl_cursor.
      repeat split. unfold memAt. do 2 f_equal. lia.
  - rewrite (First_uncleared_unfold _ _ m0 Hcl).
    change (kv.First (memCursor m0)) with (lcFirst {| lcRows := overlay; lcPos := None |}).
    change (kv.First (cursor m0)) with (lcFirst {| lcRows := base; lcPos := None |}).
    rewrite !lcFirst_new. fold (memAt 0). fold (dbAt 0).
    rewrite (rowAt_eta overlay 0). cbn [hasErr].
    rewrite (rowAt_eta base 0). cbn [hasErr]. cbv zeta.
    set (m1 := setCursor (dbAt 0) (setMemCursor (memAt 0) m0)).
    assert ((exists msg,
                (if negb (isNil (kveKey (rowAt base 0)))
                    && isEntryDeleted (mutation m0) (table m0)
                                      (contents (kveKey (rowAt base 0)))
                 then getNextOnDb ChaindataTablesCfg Normal m1
                 else Returned ((kveKey (rowAt base 0), kveValue (rowAt base 0), None), m1))
                = Panicked msg) \/
            (exists j, j <= length base /\
                (if negb (isNil (kveKey (rowAt base 0)))
                    && isEntryDeleted (mutation m0) (table m0)
                                      (contents (kveKey (rowAt base 0)))
                 then getNextOnDb ChaindataTablesCfg Normal m1
                 else Returned ((kveKey (rowAt base 0), kveValue (rowAt base 0), None), m1))
                = Returned (rowAt base j, setCursor (dbAt j) m1))) as Hdb.
    { destruct (negb (isNil (kveKey (rowAt base 0)))
                && isEntryDeleted (mutation m0) (table m0)
                                  (contents (kveKey (rowAt base 0)))).
      - destruct (getNextOnDb_list m1 0) as [?|(j & Hj & H)];
          [reflexivity|lia|now left|].
        right. exists j. split; [lia|assumption].
      - right. exists 0. split; [lia|]. now rewrite <- rowAt_eta. }
    destruct Hdb as [[msg ->]|(j & Hj & ->)]; [left; eauto|].
    rewrite (rowAt_eta base j). cbn [hasErr].
    destruct (goForward_list (setCursor (dbAt j) m1) j 0
                (kveKey (rowAt overlay 0)) (kveValue (rowAt overlay 0))
                (kveKey (rowAt base j)) (kveValue (rowAt base j)))
      as [(Ej & Em & H')|[[msg H']|[(m' & H' & He)|(k & v & m' & H' & Ht & Hle)]]];
      try reflexivity; try assumption; try lia; try apply rowAt_eta; rewrite H'.
    + right. left. eexists. split; [reflexivity|]. right.
      subst m1 m0. unfold newCursor. simpl_cursor.
      repeat split. unfold memAt. do 2 f_equal. lia.
    + left. eauto.
    + right. left. eauto.
    + right. right. do 3 eexists. split; [reflexivity|]. now left.
Qed.

Local Abbreviation Drained := (Drained base overlay).

Lemma lcFirst_at (rows : list row) pos :
  lcFirst {| lcRows := rows; lcPos := pos |} =
  (rowAt rows 0, {| lcRows := rows; lcPos := Some 0 |}).
Proof. reflexivity. Qed.

(** With both tables run off, [Next] returns at most the entry the cursor
    held, and the scan has ended after it. *)
Lemma Drained_Next (m : state) :
  Drained m ->
  (exists msg, Next DupSort ChaindataTablesCfg m = Panicked msg) \/
  (exists r m', Next DupSort ChaindataTablesCfg m = Returned (r, m') /\
                (Ended m' \/ (kveKey r = None /\ Drained m'))).
Proof.
  intros [Hc Hmc]. unfold Next. rewrite nextWith_unfold.
  destruct (isPrevFromDb m) eqn:Hp.
  - destruct (getNextOnDb_list m (length base) Hc) as [[msg H]|(j & Hj & H)];
      [lia|rewrite H; left; eauto|].
    rewrite H. assert (j = length base) as -> by lia.
    rewrite (rowAt_None base (length base)) by lia. cbn [hasErr]. simpl_cursor.
    rewrite <- Hc, setCursor_same, goForward_unfold.
    destruct (value (currentMemEntry m)) as [cv|] eqn:Ev; cbn [isNil andb].
    2:{ right. do 2 eexists. split; [reflexivity|]. right. now repeat split. }
    pose proof (skipIntersection_list m (length base) (key (currentMemEntry m)) (Some cv)
                  Hc (Nat.le_refl _)) as Hskip.
    rewrite (rowAt_None base (length base)) in Hskip by lia. simpl_cursor.
    destruct Hskip as [[msg Hs]|(j & Hj' & Hs)]; rewrite Hs; [left; eauto|].
    assert (j = length base) as -> by lia.
    rewrite (rowAt_None base (length base)) by lia. cbv zeta.
    rewrite dbIsSmaller_db_nil. cbn [isNil].
    right. do 2 eexists. split; [reflexivity|]. left. right. simpl_cursor.
    now repeat split.
  - change (kv.Next (memCursor m)) with (lcNext (memCursor m)).
    rewrite Hmc. unfold memAt. rewrite lcNext_at.
    replace (Nat.min (S (length overlay)) (length overlay)) with (length overlay) by lia.
    rewrite (rowAt_None overlay (S (length overlay))) by lia. cbn [hasErr].
    fold (memAt (length overlay)). rewrite <- Hmc, setMemCursor_same, goForward_unfold.
    destruct (value (currentDbEntry m)) as [dv|] eqn:Ev; cbn [isNil andb].
    2:{ right. do 2 eexists. split; [reflexivity|]. right. now repeat split. }
    destruct (skipIntersection_cases DupSort ChaindataTablesCfg None None
                (key (currentDbEntry m)) (Some dv) Normal m) as [Hs|[Hs|[msg Hs]]];
      rewrite Hs; [| |left; eauto].
    + destruct (getNextOnDb_list m (length base) Hc) as [[msg H]|(j & Hj & H)];
        [lia|rewrite H; left; eauto|].
      rewrite H. assert (j = length base) as -> by lia.
      rewrite (rowAt_None base (length base)) by lia. cbv zeta.
      rewrite dbIsSmaller_db_nil. cbn [isNil].
      right. do 2 eexists. split; [reflexivity|]. left. right. simpl_cursor.
      now repeat split.
    + cbv zeta.
      assert (dbIsSmaller None None (key (currentDbEntry m)) (Some dv) = true) as ->.
      { unfold dbIsSmaller. now destruct (bytes.Equal None (key (currentDbEntry m))). }
      cbn [isNil].
      right. do 2 eexists. split; [reflexivity|]. left. left. simpl_cursor.
      now repeat split.
Qed.

Lemma runNexts_Drained n : forall m : state,
  Drained m -> length (entriesOf (runNexts DupSort ChaindataTablesCfg n m)) <= 1.
Proof.
  induction n as [|n IH]; intros m Hd; [cbn; lia|].
  cbn [runNexts].
  destruct (Drained_Next m Hd) as [[msg ->]|(r & m' & -> & [He|[Hk Hd']])].
  - cbn. lia.
  - change (r :: runNexts DupSort ChaindataTablesCfg n m')
      with ([r] ++ runNexts DupSort ChaindataTablesCfg n m').
    unfold entriesOf. rewrite flat_map_app. fold (entriesOf [r]).
    fold (entriesOf (runNexts DupSort ChaindataTablesCfg n m')).
    rewrite (runNexts_Ended n m' He), app_nil_r. unfold entriesOf. cbn [flat_map].
    destruct (kveKey r); cbn; lia.
  - unfold entriesOf. cbn [flat_map]. rewrite Hk. cbn [app].
    fold (entriesOf (runNexts DupSort ChaindataTablesCfg n m')). now apply IH.
Qed.

(** [First] from any state of a cursor over the two tables, on a table that
    is not cleared or with no base entry held. *)
Lemma First_any (m0 : state) :
  lcRows (cursor m0) = base -> lcRows (memCursor m0) = overlay -> table m0 = t ->
  (isTableCleared (mutation m0) t = true -> currentDbEntry m0 = emptyEntry) ->
  let r := First DupSort ChaindataTablesCfg m0 in
  (exists msg, r = Panicked msg) \/
  (exists m', r = Returned ((None, None, None), m') /\ (Ended m' \/ Drained m')) \/
  (exists k v m', r = Returned ((Some k, Some v, None), m') /\ Scanning m' (k, v)).
Proof.
  intros Hb Ho Ht Hheld r. subst r.
  destruct (cursor m0) as [rows pos] eqn:Ec. destruct (memCursor m0) as [orows opos] eqn:Emc.
  cbn [lcRows] in Hb, Ho. subst rows orows.
  destruct (isTableCleared (mutation m0) (table m0)) eqn:Hcl.
  - (* cleared: the overlay alone *)
    rewrite (First_cleared_unfold _ _ m0 Hcl), Emc.
    change (kv.First {| lcRows := overlay; lcPos := opos |})
      with (lcFirst {| lcRows := overlay; lcPos := opos |}).
    rewrite lcFirst_at. fold (memAt 0). rewrite Ht in Hcl. specialize (Hheld Hcl).
    destruct (rowAt_cases overlay 0) as [(k & v & Hn & Hlt & E)|[Hge E]]; rewrite E;
      cbn [hasErr].
    + right. right. do 3 eexists. split; [reflexivity|]. right.
      exists 0. simpl_cursor. repeat split; assumption.
    + right. left. eexists. split; [reflexivity|]. left. right. simpl_cursor.
      repeat split; [|now rewrite Hheld]. unfold memAt. do 2 f_equal. lia.
  - rewrite (First_uncleared_unfold _ _ m0 Hcl), Emc, Ec.
    change (kv.First {| lcRows := overlay; lcPos := opos |})
      with (lcFirst {| lcRows := overlay; lcPos := opos |}).
    change (kv.First {| lcRows := base; lcPos := pos |})
      with (lcFirst {| lcRows := base; lcPos := pos |}).
    rewrite !lcFirst_at. fold (memAt 0). fold (dbAt 0).
    rewrite (rowAt_eta overlay 0). cbn [hasErr].
    rewrite (rowAt_eta base 0). cbn [hasErr]. cbv zeta.
    set (m1 := setCursor (dbAt 0) (setMemCursor (memAt 0) m0)).
    assert ((exists msg,
                (if negb (isNil (kveKey (rowAt base 0)))
                    && isEntryDeleted (mutation m0) (table m0)
                                      (contents (kveKey (rowAt base 0)))
                 then getNextOnDb ChaindataTablesCfg Normal m1
                 else Returned ((kveKey (rowAt base 0), kveValue (rowAt base 0), None), m1))
                = Panicked msg) \/
            (exists j, j <= length base /\
                (if negb (isNil (kveKey (rowAt base 0)))
                    && isEntryDeleted (mutation m0) (table m0)
                                      (contents (kveKey (rowAt base 0)))
                 then getNextOnDb ChaindataTablesCfg Normal m1
                 else Returned ((kveKey (rowAt base 0), kveValue (rowAt base 0), None), m1))
                = Returned (rowAt base j, setCursor (dbAt j) m1))) as Hdb.
    { destruct (negb (isNil (kveKey (rowAt base 0)))
                && isEntryDeleted (mutation m0) (table m0)
                                  (contents (kveKey (rowAt base 0)))).
      - destruct (getNextOnDb_list m1 0) as [?|(j & Hj & H)];
          [reflexivity|lia|now left|].
        right. exists j. split; [lia|assumption].
      - right. exists 0. split; [lia|]. now rewrite <- rowAt_eta. }
    destruct Hdb as [[msg ->]|(j & Hj & ->)]; [left; eauto|].
    rewrite (rowAt_eta base j). cbn [hasErr].
    destruct (goForward_list (setCursor (dbAt j) m1) j 0
                (kveKey (rowAt overlay 0)) (kveValue (rowAt overlay 0))
                (kveKey (rowAt base j)) (kveValue (rowAt base j)))
      as [(Ej & Em & H')|[[msg H']|[(m' & H' & He)|(k & v & m' & H' & Htr & Hle)]]];
      try reflexivity; try assumption; try lia; try apply rowAt_eta; rewrite H'.
    + right. left. eexists. split; [reflexivity|]. right. subst m1.
      unfold Drained. simpl_cursor. rewrite <- Ej, <- Em. now split.
    + left. eauto.
    + right. left. eauto.
    + right. right. do 3 eexists. split; [reflexivity|]. now left.
Qed.

(** C2, as the code has it.  Over two ordered tables, from any state of the
    cursor, the entries that [First] and any number of [Next] calls after it
    return come in key order, and in value order within a key, when the
    table is not cleared or the cursor holds no base entry. *)
Theorem scan_ordered (m : state) (n : nat) :
  lcRows (cursor m) = base -> lcRows (memCursor m) = overlay -> table m = t ->
  (isTableCleared (mutation m) t = true -> currentDbEntry m = emptyEntry) ->
  Sorted rowLe (entriesOf (runFirstNexts DupSort ChaindataTablesCfg n m)).
Proof.
  intros Hb Ho Ht Hheld. unfold runFirstNexts.
  destruct (First_any m Hb Ho Ht Hheld)
    as [[msg ->]|[(m' & -> & [He|Hd])|(k & v & m' & -> & Hs)]].
  - constructor.
  - rewrite entriesOf_nil_result, (runNexts_Ended n m' He). constructor.
  - rewrite entriesOf_nil_result. pose proof (runNexts_Drained n m' Hd) as Hlen.
    destruct (entriesOf (runNexts DupSort ChaindataTablesCfg n m')) as [|x [|y l]];
      [constructor|repeat constructor|cbn in Hlen; lia].
  - apply StronglySorted_Sorted. rewrite entriesOf_row_result.
    destruct (runNexts_Scanning n m' (k, v) Hs) as [Hall Hsorted].
    constructor; assumption.
Qed.

End ListScan.

(** ** The merge as a multiset *)

Lemma bytesLe_cons x a y b :
  bytesLe (x :: a) (y :: b) ->
  (Byte.to_N x < Byte.to_N y)%N \/ (x = y /\ bytesLe a b).
Proof.
  unfold bytesLe. cbn.
  destruct (N.compare_spec (Byte.to_N x) (Byte.to_N y)) as [E|L|G]; intros H.
  - right. split; [now apply to_N_inj|assumption].
  - now left.
  - congruence.
Qed.

Lemma bytesLe_antisym a b : bytesLe a b -> bytesLe b a -> a = b.
Proof.
  rewrite !bytesLe_cases. intros [H1|H1] [H2|H2]; auto.
  exfalso. apply (bytesLt_irrefl a). eapply bytesLt_trans; eassumption.
Qed.

(** Byte strings with a common prefix are next to each other in the order. *)
Lemma firstn_between n : forall a b c : list byte,
  n <= length a -> n <= length c -> firstn n a = firstn n c ->
  bytesLe a b -> bytesLe b c ->
  n <= length b /\ firstn n b = firstn n a.
Proof.
  induction n as [|n IH]; intros a b c Ha Hc He Hab Hbc; [split; [lia|reflexivity]|].
  destruct a as [|a0 a]; [cbn in Ha; lia|]. destruct c as [|c0 c]; [cbn in Hc; lia|].
  cbn in He. injection He as E0 He. subst c0.
  destruct b as [|b0 b].
  { exfalso. apply Hab. reflexivity. }
  apply bytesLe_cons in Hab. apply bytesLe_cons in Hbc.
  destruct Hab as [Hab|[-> Hab]]; destruct Hbc as [Hbc|[E Hbc]]; try lia.
  - subst. lia.
  - cbn in Ha, Hc. destruct (IH a b c) as [Hl Hf]; try assumption; try lia.
    cbn. split; [lia|]. now rewrite Hf.
Qed.

Section MergePermutation.

Variable DupSort : Z.
Variable config : kv.TableCfgItem.

Local Abbreviation inter := (rowsIntersect DupSort config).
Local Abbreviation merge := (mergeRows DupSort config).
Local Abbreviation unshadowed := (notShadowed DupSort config).

Local Abbreviation prefixLen := (prefixLen config).
Local Abbreviation prefixRule := (prefixRule config).

Lemma rowsIntersect_iff a b :
  inter a b = true <->
  fst a = fst b /\
  (Z.land (kv.Flags config) DupSort = 0%Z \/
   snd a = snd b \/
   (prefixRule = true /\ prefixLen <= length (snd a) /\ prefixLen <= length (snd b) /\
    firstn prefixLen (snd a) = firstn prefixLen (snd b))).
Proof.
  unfold rowsIntersect, intersectsb, prefixLen, prefixRule. cbv zeta.
  set (off := if kv.AutoDupSortKeysConversion config then dupOffset config else 0%Z).
  rewrite !andb_true_iff, !orb_true_iff, !andb_true_iff, !Equal_true_iff,
    bytesEqb_true_iff, Z.eqb_eq, !Z.leb_le.
  unfold len. cbn [contents]. intuition lia.
Qed.

Lemma rowsIntersect_sym a b : inter a b = true -> inter b a = true.
Proof. rewrite !rowsIntersect_iff. intuition congruence. Qed.

Lemma rowsIntersect_trans a b c :
  inter a b = true -> inter b c = true -> inter a c = true.
Proof. rewrite !rowsIntersect_iff. intuition congruence. Qed.

Lemma rowLe_same_key a b : rowLe a b -> fst a = fst b -> bytesLe (snd a) (snd b).
Proof.
  intros [H|[_ H]] E; [|assumption]. exfalso. rewrite E in H. now apply bytesLt_irrefl in H.
Qed.

Lemma rowLe_key a b : rowLe a b -> bytesLe (fst a) (fst b).
Proof.
  intros [H|[E _]]; apply bytesLe_cases; [now left|now right].
Qed.

(** The rows a row intersects are next to each other in the order. *)
Lemma rowsIntersect_convex x y z :
  rowLe x y -> rowLe y z -> inter x z = true -> inter x y = true.
Proof.
  intros Hxy Hyz. rewrite !rowsIntersect_iff. intros [Ek H].
  assert (fst x = fst y) as Exy.
  { apply bytesLe_antisym; [now apply rowLe_key|].
    rewrite Ek. now apply rowLe_key. }
  split; [assumption|].
  assert (bytesLe (snd x) (snd y)) as Hv1 by now apply rowLe_same_key.
  assert (bytesLe (snd y) (snd z)) as Hv2 by (apply rowLe_same_key; congruence).
  destruct H as [H|[H|(Hr & Hx & Hz & Hf)]]; [now left| |].
  - right. left. apply bytesLe_antisym; [assumption|]. now rewrite H.
  - right. right.
    destruct (firstn_between prefixLen (snd x) (snd y) (snd z)) as [Hl Hfy]; auto.
Qed.

Lemma rowsIntersect_empty_mem dk dv :
  dk <> [] -> intersectsb DupSort config None None (Some dk) (Some dv) = false.
Proof.
  intros H. unfold intersectsb. cbv zeta.
  destruct (bytes.Equal None (Some dk)) eqn:E; [|reflexivity].
  apply Equal_true_iff in E. cbn in E. congruence.
Qed.

Lemma notShadowed_skip m mem (db : list row) :
  (forall d, In d db -> inter m d = false) ->
  filter (unshadowed (m :: mem)) db = filter (unshadowed mem) db.
Proof.
  intros H. apply filter_ext_in. intros d Hd.
  unfold notShadowed. cbn [existsb]. now rewrite (H d Hd).
Qed.

Lemma notShadowed_nil (db : list row) : filter (unshadowed []) db = db.
Proof.
  induction db as [|d db IH]; [reflexivity|]. cbn. now rewrite IH.
Qed.

Lemma notShadowed_false m mem d :
  inter m d = true -> unshadowed (m :: mem) d = false.
Proof. intros H. unfold notShadowed. cbn [existsb]. now rewrite H. Qed.

Lemma notShadowed_true mem d :
  (forall o, In o mem -> inter o d = false) -> unshadowed mem d = true.
Proof.
  intros H. unfold notShadowed. apply negb_true_iff.
  destruct (existsb (fun o => inter o d) mem) eqn:E; [|reflexivity].
  apply existsb_exists in E as (o & Ho & Hi). rewrite (H o Ho) in Hi. discriminate.
Qed.

Lemma collisionFree_tail d (db : list row) :
  collisionFree DupSort config (d :: db) ->
  collisionFree DupSort config db /\ forall d', In d' db -> inter d d' = false.
Proof.
  intros H. inversion H as [|? ? Hs Hall]; subst. split; [assumption|].
  now rewrite Forall_forall in Hall.
Qed.

Lemma inter_false_iff a b : inter a b = false <-> inter a b <> true.
Proof. destruct (inter a b); split; congruence. Qed.

(** The merge returns the overlay's rows and the base rows no overlay row
    intersects, each once. *)
Lemma mergeRows_permutation fuel : forall mem db : list row,
  length mem + length db <= fuel ->
  StronglySorted rowLe mem -> StronglySorted rowLe db ->
  collisionFree DupSort config db ->
  Forall (fun r => fst r <> []) db ->
  Permutation (merge fuel mem db) (mem ++ filter (unshadowed mem) db).
Proof.
  induction fuel as [|fuel IH]; intros mem db Hfuel Hsm Hsd Hcf Hne.
  { destruct mem, db; cbn in Hfuel; try lia. constructor. }
  destruct mem as [|[mk mv] mem']; destruct db as [|[dk dv] db'].
  - constructor.
  - (* the overlay has run out *)
    cbn [mergeRows candOf isNil andb].
    inversion Hne as [|? ? Hk Hne']; subst. cbn in Hk.
    rewrite (rowsIntersect_empty_mem dk dv Hk). cbn [candOf].
    rewrite dbIsSmaller_mem_nil. cbn [app]. rewrite notShadowed_nil.
    constructor. rewrite <- (notShadowed_nil db') at 2.
    apply (IH [] db'); [cbn in *; lia|constructor|now inversion Hsd| |assumption].
    now apply collisionFree_tail in Hcf.
  - (* the base has run out *)
    cbn [mergeRows candOf isNil andb tl].
    assert ((if intersectsb DupSort config (Some mk) (Some mv) None None
             then @nil row else []) = []) as -> by now destruct (intersectsb _ _ _ _ _ _).
    cbn [candOf]. rewrite dbIsSmaller_db_nil. cbn [filter]. rewrite app_nil_r.
    constructor. rewrite <- (app_nil_r mem') at 2.
    apply (IH mem' []); [cbn in *; lia|now inversion Hsm|constructor|constructor|constructor].
  - cbn [mergeRows candOf isNil andb tl].
    change (intersectsb DupSort config (Some mk) (Some mv) (Some dk) (Some dv))
      with (inter (mk, mv) (dk, dv)).
    inversion Hsm as [|? ? Hsm' Hm]; subst. inversion Hsd as [|? ? Hsd' Hd]; subst.
    inversion Hne as [|? ? Hk Hne']; subst.
    destruct (collisionFree_tail _ _ Hcf) as [Hcf' Hfree].
    rewrite Forall_forall in Hm, Hd.
    destruct (inter (mk, mv) (dk, dv)) eqn:Ei.
    + (* the rows intersect: the base row is skipped *)
      assert (forall d', In d' db' -> inter (mk, mv) d' = false) as Hno.
      { intros d' Hd'. apply inter_false_iff. intros Hi.
        apply rowsIntersect_sym in Ei.
        pose proof (rowsIntersect_trans _ _ _ Ei Hi) as Hdd.
        rewrite (Hfree d' Hd') in Hdd. discriminate. }
      assert (dbIsSmaller (Some mk) (Some mv) (fst (candOf db')) (snd (candOf db')) = false)
        as Hsmall.
      { destruct db' as [|[dk1 dv1] db2]; [apply dbIsSmaller_db_nil|]. cbn [candOf fst snd].
        destruct (dbIsSmaller (Some mk) (Some mv) (Some dk1) (Some dv1)) eqn:E; [|reflexivity].
        exfalso. apply dbIsSmaller_rows in E.
        assert (inter (dk, dv) (dk1, dv1) = true) as Hdd.
        { apply rowsIntersect_convex with (z := (mk, mv)).
          - apply Hd. now left.
          - now apply rowLt_le.
          - now apply rowsIntersect_sym. }
        rewrite (Hfree (dk1, dv1)) in Hdd; [discriminate|now left]. }
      destruct (candOf db') as [dk1 dv1] eqn:Ec. cbn [fst snd] in Hsmall. rewrite Hsmall.
      cbn [app filter]. rewrite (notShadowed_false _ mem' _ Ei).
      constructor. rewrite (notShadowed_skip _ mem' db' Hno).
      apply IH; try assumption. cbn in *; lia.
    + cbn [candOf].
      destruct (dbIsSmaller (Some mk) (Some mv) (Some dk) (Some dv)) eqn:Es.
      * (* the base row is smaller *)
        apply dbIsSmaller_rows in Es.
        cbn [app filter].
        match goal with
        | |- context [if ?c then _ else _] => assert (c = true) as Hvis
        end.
        { apply notShadowed_true. intros o Ho. apply inter_false_iff. intros Hi.
          assert (rowLe (mk, mv) o) as Hmo.
          { destruct Ho as [<-|Ho]; [apply rowLe_refl|now apply Hm]. }
          assert (inter (dk, dv) (mk, mv) = true) as Hdm.
          { apply rowsIntersect_convex with (z := o).
            - now apply rowLt_le.
            - assumption.
            - now apply rowsIntersect_sym. }
          apply rowsIntersect_sym in Hdm. congruence. }
        rewrite Hvis.
        etransitivity;
          [|apply (Permutation_middle ((mk, mv) :: mem') _ (dk, dv))]. constructor.
        apply IH; try assumption. cbn in *; lia.
      * (* the overlay row is smaller or equal *)
        assert (rowLe (mk, mv) (dk, dv)) as Hle.
        { destruct (rowLe_or_Lt (mk, mv) (dk, dv)) as [?|Hlt]; [assumption|].
          apply dbIsSmaller_rows in Hlt. congruence. }
        assert (forall d', In d' ((dk, dv) :: db') -> inter (mk, mv) d' = false) as Hno.
        { intros d' Hd'. apply inter_false_iff. intros Hi.
          assert (rowLe (dk, dv) d') as Hdd.
          { destruct Hd' as [<-|Hd']; [apply rowLe_refl|now apply Hd]. }
          pose proof (rowsIntersect_convex _ _ _ Hle Hdd Hi). congruence. }
        cbn [app]. constructor. rewrite notShadowed_skip by exact Hno.
        apply IH; try assumption. cbn in *; lia.
Qed.

End MergePermutation.

(** ** The scan, exactly *)

Lemma skipn_nth_error {A} (l : list A) : forall i r,
  nth_error l i = Some r -> skipn i l = r :: skipn (S i) l.
Proof.
  induction l as [|x l IH]; intros [|i] r H; try discriminate.
  - cbn in H. injection H as ->. reflexivity.
  - cbn in H. apply IH in H. exact H.
Qed.

Lemma skipn_past {A} (l : list A) i : length l <= i -> skipn i l = [].
Proof. intros H. now apply skipn_all2. Qed.

Lemma candOf_rowAt (rows : list row) i :
  rowAt rows i = (fst (candOf (skipn i rows)), snd (candOf (skipn i rows)), None).
Proof.
  unfold rowAt. destruct (nth_error rows i) as [[k v]|] eqn:E.
  - now rewrite (skipn_nth_error rows i _ E).
  - apply nth_error_None in E. now rewrite skipn_past.
Qed.

Section IntersectTest.

Context {DB MEM : Type}.
Context {dbCursor : kv.CursorDupSort DB}.
Context {rwMemCursor : kv.RwCursorDupSort MEM}.
Variable DupSort : Z.
Variable ChaindataTablesCfg : kv.TableCfg.

Lemma intersectsb_iff config memKey memValue dbKey dbValue :
  intersectsb DupSort config memKey memValue dbKey dbValue = true <->
  candidatesIntersect DupSort config memKey memValue dbKey dbValue.
Proof.
  unfold intersectsb, candidatesIntersect, prefixesCollide. cbv zeta.
  rewrite !andb_true_iff, !orb_true_iff, !Equal_true_iff, Z.eqb_eq.
  destruct (kv.AutoDupSortKeysConversion config).
  - rewrite !andb_true_iff, negb_true_iff, Z.eqb_neq, !Z.leb_le, bytesEqb_true_iff.
    intuition.
  - cbn. intuition discriminate.
Qed.

(** [skipIntersection] steps the base cursor exactly when the test holds. *)
Lemma skipIntersection_exact memKey memValue dbKey dbValue t
      (m : memoryMutationCursor DB MEM) :
  (kv.AutoDupSortKeysConversion (tableConfig ChaindataTablesCfg (table m)) = true ->
   (0 <= dupOffset (tableConfig ChaindataTablesCfg (table m)))%Z) ->
  skipIntersection DupSort ChaindataTablesCfg memKey memValue dbKey dbValue t m =
  if intersectsb DupSort (tableConfig ChaindataTablesCfg (table m))
                 memKey memValue dbKey dbValue
  then getNextOnDb ChaindataTablesCfg t m
  else Returned ((dbKey, dbValue, None), m).
Proof.
  intros Hoff. rewrite skipIntersection_unfold. unfold intersectsb. cbv zeta.
  set (config := tableConfig ChaindataTablesCfg (table m)) in *.
  assert (0 <= (if kv.AutoDupSortKeysConversion config then dupOffset config else 0))%Z
    as Hpos.
  { destruct (kv.AutoDupSortKeysConversion config); [now apply Hoff|lia]. }
  set (off := if kv.AutoDupSortKeysConversion config then dupOffset config else 0%Z) in *.
  destruct (bytes.Equal memKey dbKey); cbn [andb]; [|reflexivity].
  destruct (Z.land (kv.Flags config) DupSort =? 0)%Z; cbn [orb]; [reflexivity|].
  destruct (bytes.Equal memValue dbValue); cbn [orb]; [reflexivity|].
  destruct (negb (off =? 0)%Z); cbn [andb]; [|reflexivity].
  destruct (Z.leb_spec off (len memValue)) as [L1|L1]; cbn [andb]; [|reflexivity].
  destruct (Z.leb_spec off (len dbValue)) as [L2|L2]; cbn [andb]; [|reflexivity].
  destruct (sliceTo_contents memValue off) as (p1 & -> & Hp1); [lia|].
  destruct (sliceTo_contents dbValue off) as (p2 & -> & Hp2); [lia|].
  rewrite <- Hp1, <- Hp2.
  destruct (bytes.Equal p1 p2) eqn:Ep.
  - apply Equal_true_iff in Ep. rewrite Ep, bytesEqb_refl. reflexivity.
  - apply Equal_false_iff, bytesEqb_false_iff in Ep. rewrite Ep. reflexivity.
Qed.

End IntersectTest.

Section ExactScan.

Variable DupSort : Z.
Variable ChaindataTablesCfg : kv.TableCfg.
Variable mu : MemoryMutation.
Variable t : string.
Variables base overlay : list row.

Hypothesis offsetNotNegative :
  kv.AutoDupSortKeysConversion (tableConfig ChaindataTablesCfg t) = true ->
  (0 <= dupOffset (tableConfig ChaindataTablesCfg t))%Z.
Hypothesis baseConvertible : Forall (convertible ChaindataTablesCfg t) base.

Local Abbreviation state := (memoryMutationCursor listCursor listCursor).
Local Abbreviation dbAt := (dbAt base).
Local Abbreviation memAt := (memAt overlay).
Local Abbreviation live := (liveb ChaindataTablesCfg mu t).
Local Abbreviation liveAt := (liveIdx ChaindataTablesCfg mu t base).
Local Abbreviation liveFrom := (liveRowsFrom ChaindataTablesCfg mu t base).
Local Abbreviation viewAt := (dbView ChaindataTablesCfg mu t base).
Local Abbreviation left := (pending ChaindataTablesCfg mu t base overlay).
Local Abbreviation merge := (mergeRows DupSort (tableConfig ChaindataTablesCfg t)).
Local Abbreviation interb := (intersectsb DupSort (tableConfig ChaindataTablesCfg t)).

Lemma convertAutoDupsort_live r :
  convertible ChaindataTablesCfg t r ->
  exists k,
    convertAutoDupsort ChaindataTablesCfg t (Some (fst r)) (Some (snd r)) [] = Returned k /\
    isEntryDeleted mu t (contents k) = negb (live r).
Proof.
  intros Hconv.
  destruct (convertAutoDupsort_returns ChaindataTablesCfg t (Some (fst r)) (Some (snd r))
                                       [])
    as [k Hk].
  { intros Ha Hl. split; [now apply offsetNotNegative|now apply Hconv]. }
  exists k. split; [exact Hk|]. unfold liveb, effectiveKey. rewrite Hk.
  now rewrite negb_involutive.
Qed.

Lemma liveIdx_end j : length base <= j -> liveAt j = j.
Proof.
  intros H. unfold liveIdx, firstIdxFrom. rewrite skipn_past by assumption. cbn. lia.
Qed.

Lemma liveIdx_here j r :
  nth_error base j = Some r -> live r = true -> liveAt j = j.
Proof.
  intros Hn Hl. unfold liveIdx, firstIdxFrom. rewrite (skipn_nth_error base j r Hn).
  cbn. rewrite Hl. lia.
Qed.

Lemma liveIdx_next j r :
  nth_error base j = Some r -> live r = false -> liveAt j = liveAt (S j).
Proof.
  intros Hn Hl. unfold liveIdx, firstIdxFrom. rewrite (skipn_nth_error base j r Hn).
  cbn [firstIdx]. rewrite Hl. lia.
Qed.

Lemma liveIdx_bounds j : j <= length base -> j <= liveAt j <= length base.
Proof.
  intros H. unfold liveIdx, firstIdxFrom.
  pose proof (firstIdx_le live (skipn j base)) as Hle.
  rewrite length_skipn in Hle. lia.
Qed.

Lemma liveRowsFrom_end j : length base <= j -> liveFrom j = [].
Proof. intros H. unfold liveRowsFrom. now rewrite skipn_past. Qed.

(** The base side's view at the first live index at or after [i]. *)
Lemma dbView_liveIdx : forall n i,
  length base - i <= n -> i <= length base -> viewAt (liveAt i) (liveFrom i).
Proof.
  induction n as [|n IH]; intros i Hn Hi.
  - left. rewrite liveIdx_end by lia. split; [lia|]. apply liveRowsFrom_end. lia.
  - destruct (nth_error base i) as [r|] eqn:E.
    + assert (i < length base) as Hlt by (apply nth_error_Some; congruence).
      destruct (live r) eqn:Hl.
      * rewrite (liveIdx_here i r E Hl). right. exists r. split; [assumption|].
        unfold liveRowsFrom. rewrite (skipn_nth_error base i r E). cbn [filter].
        now rewrite Hl.
      * rewrite (liveIdx_next i r E Hl).
        replace (liveFrom i) with (liveFrom (S i)); [apply IH; lia|].
        unfold liveRowsFrom. rewrite (skipn_nth_error base i r E). cbn [filter].
        now rewrite Hl.
    + apply nth_error_None in E. left. rewrite liveIdx_end by lia.
      split; [lia|]. apply liveRowsFrom_end. lia.
Qed.

Lemma skipDeleted_exact fuel : forall j (m : state),
  cursor m = dbAt j -> j <= length base -> mutation m = mu -> table m = t ->
  length base - j < fuel ->
  skipDeleted ChaindataTablesCfg fuel Normal (rowAt base j) m =
  Returned (rowAt base (liveAt j), setCursor (dbAt (liveAt j)) m).
Proof.
  induction fuel as [|fuel IH]; intros j m Hc Hj Hmu Ht Hfuel; [lia|].
  rewrite skipDeleted_unfold.
  destruct (rowAt_cases base j) as [(k & v & Hn & Hlt & E)|[Hge E]]; rewrite E;
    simpl_cursor; cbn [isNil negb andb].
  - rewrite Hmu, Ht.
    assert (convertible ChaindataTablesCfg t (k, v)) as Hconv.
    { rewrite Forall_forall in baseConvertible. apply baseConvertible.
      eapply nth_error_In; eassumption. }
    destruct (convertAutoDupsort_live (k, v) Hconv) as (ek & Hek & Hdel).
    cbn [fst snd] in Hek. rewrite valueRoom_list, Hek, Hdel.
    destruct (live (k, v)) eqn:Hl; cbn [negb].
    + rewrite (liveIdx_here j _ Hn Hl), E. now rewrite <- Hc, setCursor_same.
    + rewrite (stepCursor_Normal_list base m j Hc Hj), rowAt_err. simpl_cursor.
      replace (Nat.min (S j) (length base)) with (S j) by lia.
      rewrite (IH (S j)); [|reflexivity|lia|assumption|assumption|lia].
      now rewrite (liveIdx_next j _ Hn Hl), setCursor_setCursor.
  - rewrite (liveIdx_end j Hge), E. now rewrite <- Hc, setCursor_same.
Qed.

Lemma getNextOnDb_exact (m : state) i :
  cursor m = dbAt i -> i <= length base -> mutation m = mu -> table m = t ->
  let j := liveAt (Nat.min (S i) (length base)) in
  getNextOnDb ChaindataTablesCfg Normal m = Returned (rowAt base j, setCursor (dbAt j) m) /\
  j <= length base /\ viewAt j (liveFrom (S i)).
Proof.
  intros Hc Hi Hmu Ht j. subst j. split; [|split].
  - rewrite getNextOnDb_unfold, (stepCursor_Normal_list base m i Hc Hi), rowAt_err.
    simpl_cursor.
    change (kv.stepsLeft (dbAt (Nat.min (S i) (length base))))
      with (length base - Nat.min (S i) (length base)).
    destruct (Nat.eq_dec i (length base)) as [->|Hne].
    + replace (Nat.min (S (length base)) (length base)) with (length base) by lia.
      rewrite (rowAt_None base (S (length base))) by lia.
      rewrite <- (rowAt_None base (length base)) at 1 by lia.
      rewrite skipDeleted_exact; try reflexivity; try assumption; try lia.
    + replace (Nat.min (S i) (length base)) with (S i) by lia.
      rewrite skipDeleted_exact; try reflexivity; try assumption; try lia.
  - apply liveIdx_bounds. lia.
  - destruct (Nat.eq_dec i (length base)) as [->|Hne].
    + replace (Nat.min (S (length base)) (length base)) with (length base) by lia.
      rewrite (liveRowsFrom_end (S (length base))) by lia.
      rewrite <- (liveRowsFrom_end (length base)) by lia.
      apply (dbView_liveIdx (length base)); lia.
    + replace (Nat.min (S i) (length base)) with (S i) by lia.
      apply (dbView_liveIdx (length base)); lia.
Qed.

Local Abbreviation stepped := (stepsAs ChaindataTablesCfg mu t base overlay DupSort).

Lemma dbView_rowAt j db :
  viewAt j db -> rowAt base j = (fst (candOf db), snd (candOf db), None).
Proof.
  intros [[-> ->]|([k v] & Hn & ->)].
  - now rewrite rowAt_None by lia.
  - now rewrite (rowAt_Some _ _ _ _ Hn).
Qed.

Lemma dbView_tl j db : viewAt j db -> tl db = liveFrom (S j).
Proof.
  intros [[-> ->]|(r & Hn & ->)]; cbn [tl]; [|reflexivity].
  now rewrite liveRowsFrom_end by lia.
Qed.

Lemma entryAt_candOf (rows : list row) i :
  entryAt rows i =
  {| key := fst (candOf (skipn i rows)); value := snd (candOf (skipn i rows)) |}.
Proof. unfold entryAt. now rewrite candOf_rowAt. Qed.

Lemma skipn_S_tl {A} (l : list A) : forall i, skipn (S i) l = tl (skipn i l).
Proof.
  induction l as [|x l IH]; intros [|i]; try reflexivity.
  cbn [skipn]. rewrite <- IH. reflexivity.
Qed.

Lemma stored_entry (k v : slice) :
  (k, v) = (None, None) \/ (exists a b, (k, v) = (Some a, Some b)) ->
  (if isNil v then emptyEntry else {| key := k; value := v |}) = {| key := k; value := v |}.
Proof. intros [H|(a & b & H)]; injection H as -> ->; reflexivity. Qed.

Lemma candOf_shape (rows : list row) :
  (fst (candOf rows), snd (candOf rows)) = (None, None) \/
  (exists a b, (fst (candOf rows), snd (candOf rows)) = (Some a, Some b)).
Proof. destruct rows as [|[k v] rows]; cbn; eauto. Qed.

(** The end of the merge step: the comparison, the stored entries, the flag. *)
Lemma merge_step_done (m1 : state) j1 mp mem db1 :
  cursor m1 = dbAt j1 -> memCursor m1 = memAt mp ->
  j1 <= length base -> mp <= length overlay ->
  mutation m1 = mu -> table m1 = t ->
  mem = skipn mp overlay -> viewAt j1 db1 ->
  let mk := fst (candOf mem) in
  let mv := snd (candOf mem) in
  let dk1 := fst (candOf db1) in
  let dv1 := snd (candOf db1) in
  let prev := dbIsSmaller mk mv dk1 dv1 in
  let r :=
    Returned
      ((if prev then (dk1, dv1, None) else (mk, mv, None)) : kve,
       {| cursor := cursor m1;
          memCursor := memCursor m1;
          isPrevFromDb := prev;
          currentDbEntry :=
            if isNil dv1 then emptyEntry else {| key := dk1; value := dv1 |};
          currentMemEntry :=
            if isNil mv then emptyEntry else {| key := mk; value := mv |};
          mutation := mutation m1;
          table := table m1 |}) in
  if prev then
    exists d db2 m',
      db1 = d :: db2 /\
      r = Returned ((Some (fst d), Some (snd d), None), m') /\
      left m' mem db2
  else
    match mem with
    | [] => exists m', r = Returned ((None, None, None), m')
    | o :: mem' =>
        exists m',
          r = Returned ((Some (fst o), Some (snd o), None), m') /\
          left m' mem' db1
    end.
Proof.
  intros Hc Hmc Hj Hmp Hmu Ht Hmem Hv mk mv dk1 dv1 prev r.
  assert (forall b,
             synced base overlay
               {| cursor := cursor m1; memCursor := memCursor m1; isPrevFromDb := b;
                  currentDbEntry :=
                    if isNil dv1 then emptyEntry else {| key := dk1; value := dv1 |};
                  currentMemEntry :=
                    if isNil mv then emptyEntry else {| key := mk; value := mv |};
                  mutation := mutation m1; table := table m1 |} j1 mp) as Hsync.
  { intros b. unfold synced. simpl_cursor. repeat split; try assumption.
    - subst dk1 dv1. rewrite stored_entry by apply candOf_shape.
      unfold entryAt. now rewrite (dbView_rowAt j1 db1 Hv).
    - subst mk mv. rewrite stored_entry by apply candOf_shape.
      now rewrite entryAt_candOf, Hmem. }
  subst r. destruct prev eqn:Ep.
  - destruct db1 as [|[dk dv] db2].
    { subst prev dk1 dv1. cbn [candOf fst snd] in Ep.
      rewrite dbIsSmaller_db_nil in Ep. discriminate. }
    do 3 eexists. split; [reflexivity|]. split; [reflexivity|].
    exists j1, mp. split; [apply Hsync|]. simpl_cursor. repeat split; try assumption.
    destruct Hv as [[_ Hv]|(r & _ & Hv)]; [discriminate|]. now injection Hv.
  - destruct mem as [|[ok ov] mem'].
    + eexists. reflexivity.
    + eexists. split; [reflexivity|].
      exists j1, mp. split; [apply Hsync|]. simpl_cursor. repeat split; try assumption.
      rewrite skipn_S_tl, <- Hmem. reflexivity.
Qed.

(** The merge step, exactly. *)
Lemma goForward_exact (m : state) j mp mem db :
  cursor m = dbAt j -> memCursor m = memAt mp ->
  j <= length base -> mp <= length overlay ->
  mutation m = mu -> table m = t ->
  mem = skipn mp overlay -> viewAt j db ->
  (isNil (snd (candOf mem)) && isNil (snd (candOf db)) = true ->
   goForward DupSort ChaindataTablesCfg (fst (candOf mem)) (snd (candOf mem))
             (fst (candOf db)) (snd (candOf db)) Normal m =
   Returned ((None, None, None), m)) /\
  stepped (goForward DupSort ChaindataTablesCfg (fst (candOf mem)) (snd (candOf mem))
                     (fst (candOf db)) (snd (candOf db)) Normal m) mem db.
Proof.
  intros Hc Hmc Hj Hmp Hmu Ht Hmem Hv. rewrite goForward_unfold. unfold stepsAs. cbv zeta.
  destruct (isNil (snd (candOf mem)) && isNil (snd (candOf db))) eqn:Enil.
  { split; [reflexivity|]. eexists. reflexivity. }
  split; [discriminate|].
  rewrite skipIntersection_exact by (rewrite Ht; exact offsetNotNegative). rewrite Ht.
  destruct (interb (fst (candOf mem)) (snd (candOf mem)) (fst (candOf db))
                   (snd (candOf db))) eqn:Ei.
  - destruct (getNextOnDb_exact m j Hc Hj Hmu Ht) as (Hg & Hj1 & Hv1). cbv zeta in *.
    rewrite Hg, (dbView_tl j db Hv).
    rewrite (dbView_rowAt _ _ Hv1).
    apply (merge_step_done
             (setCursor (dbAt (liveAt (Nat.min (S j) (length base)))) m)
             (liveAt (Nat.min (S j) (length base))) mp mem (liveFrom (S j)));
      try assumption; reflexivity.
  - apply (merge_step_done m j mp mem db); assumption.
Qed.

(** [Next] from a state between two calls is one merge step on the rows
    left. *)
Lemma Next_exact (m : state) mem db :
  left m mem db -> stepped (Next DupSort ChaindataTablesCfg m) mem db.
Proof.
  intros (dpos & mpos & (Hc & Hmc & Hd & Hm & Hcd & Hcm) & Hmu & Ht & Hside).
  unfold Next. rewrite nextWith_unfold. destruct (isPrevFromDb m) eqn:Hp.
  - destruct Hside as [Hmem Hdb].
    destruct (getNextOnDb_exact m dpos Hc Hd Hmu Ht) as (Hg & Hj & Hv). cbv zeta in *.
    rewrite Hg, (dbView_rowAt _ _ Hv). simpl_cursor.
    rewrite Hcm, entryAt_candOf, <- Hmem, Hdb. cbn [key value].
    apply (goForward_exact
             (setCursor (dbAt (liveAt (Nat.min (S dpos) (length base)))) m)
             (liveAt (Nat.min (S dpos) (length base))) mpos mem (liveFrom (S dpos)));
      try assumption; reflexivity.
  - destruct Hside as [Hmem Hv].
    change (kv.Next (memCursor m)) with (lcNext (memCursor m)).
    rewrite Hmc. unfold memAt. rewrite lcNext_at.
    set (mpos' := Nat.min (S mpos) (length overlay)).
    assert (mem = skipn mpos' overlay) as Hmem'.
    { subst mpos'. destruct (Nat.le_gt_cases (S mpos) (length overlay)).
      - now replace (Nat.min (S mpos) (length overlay)) with (S mpos) by lia.
      - now rewrite Hmem, !skipn_past by lia. }
    rewrite candOf_rowAt, <- Hmem. simpl_cursor.
    rewrite Hcd. unfold entryAt. rewrite (dbView_rowAt _ _ Hv). cbn [key value fst snd].
    fold (memAt mpos').
    apply (goForward_exact (setMemCursor (memAt mpos') m) dpos mpos' mem db);
      try assumption; try reflexivity. subst mpos'. lia.
Qed.

Lemma tl_length {A} (l : list A) : length (tl l) <= length l.
Proof. destruct l; cbn; lia. Qed.

(** A merge step and the calls of [Next] after it return what the merge of
    the rows left returns and end with the nil key, when the calls after it
    do. *)
Lemma stepsAs_merge fuel r mem db :
  (forall (m : state) mem db,
      left m mem db -> length mem + length db < fuel ->
      scanNexts DupSort ChaindataTablesCfg fuel m = Some (merge fuel mem db)) ->
  stepped r mem db ->
  length mem + length db < S fuel ->
  match r with
  | Returned ((Some k, v, None), m') =>
      option_map (cons (k, contents v)) (scanNexts DupSort ChaindataTablesCfg fuel m')
  | Returned ((None, _, None), _) => Some []
  | _ => None
  end = Some (merge (S fuel) mem db).
Proof.
  intros IH Hs Hlen. unfold stepsAs in Hs. cbv zeta in Hs. cbn [mergeRows].
  destruct (candOf mem) as [mk mv] eqn:Em, (candOf db) as [dk dv] eqn:Ed.
  cbn [fst snd] in Hs.
  destruct (isNil mv && isNil dv).
  { destruct Hs as [m' ->]. reflexivity. }
  assert (length (if interb mk mv dk dv then tl db else db) <= length db) as Hdb.
  { destruct (interb mk mv dk dv); [apply tl_length|lia]. }
  destruct (candOf (if interb mk mv dk dv then tl db else db)) as [dk1 dv1] eqn:Ed1.
  cbn [fst snd] in Hs.
  destruct (dbIsSmaller mk mv dk1 dv1).
  - destruct Hs as ([k v] & db2 & m' & E & -> & Hl'). rewrite E in *.
    cbn [fst snd contents length] in *.
    rewrite (IH _ _ _ Hl') by lia. reflexivity.
  - destruct mem as [|[k v] mem'].
    + destruct Hs as [m' ->]. reflexivity.
    + destruct Hs as (m' & -> & Hl'). cbn [fst snd contents length] in *.
      rewrite (IH _ _ _ Hl') by lia. reflexivity.
Qed.

(** The calls of [Next] return what the merge of the rows left returns, and
    then the nil key. *)
Lemma scanNexts_exact : forall fuel (m : state) mem db,
  left m mem db -> length mem + length db < fuel ->
  scanNexts DupSort ChaindataTablesCfg fuel m = Some (merge fuel mem db).
Proof.
  induction fuel as [|fuel IH]; intros m mem db Hl Hlen; [lia|].
  cbn [scanNexts]. apply stepsAs_merge; [exact IH| |assumption]. now apply Next_exact.
Qed.

Lemma dbFirst_length (rows : list row) :
  length (dbFirst ChaindataTablesCfg mu t rows) <= length rows.
Proof.
  destruct rows as [|r rest]; [reflexivity|]. cbn [dbFirst length].
  pose proof (filter_length_le live rest).
  destruct (isEntryDeleted mu t (fst r)); cbn [length]; lia.
Qed.

Lemma dbFirst_cases (rows : list row) :
  (rows = [] /\ dbFirst ChaindataTablesCfg mu t rows = []) \/
  (exists r,
      nth_error rows 0 = Some r /\
      dbFirst ChaindataTablesCfg mu t rows =
      if isEntryDeleted mu t (fst r) then filter live (skipn 1 rows)
      else r :: filter live (skipn 1 rows)).
Proof. destruct rows as [|r rest]; [left|right; exists r]; split; reflexivity. Qed.

(** [First] on a new cursor of a table that is not cleared is one merge step
    on the overlay and the base rows [First] keeps. *)
Lemma First_exact :
  isTableCleared mu t = false ->
  stepped (First DupSort ChaindataTablesCfg (newCursor base overlay mu t))
          overlay (dbFirst ChaindataTablesCfg mu t base).
Proof.
  intros Hcl. set (m0 := newCursor base overlay mu t).
  rewrite (First_uncleared_unfold _ _ m0 Hcl).
  change (kv.First (memCursor m0)) with (lcFirst {| lcRows := overlay; lcPos := None |}).
  change (kv.First (cursor m0)) with (lcFirst {| lcRows := base; lcPos := None |}).
  change (mutation m0) with mu. change (table m0) with t.
  rewrite !lcFirst_new. fold (memAt 0). fold (dbAt 0).
  rewrite (candOf_rowAt overlay 0). cbn [hasErr skipn]. cbv zeta.
  set (m1 := setCursor (dbAt 0) (setMemCursor (memAt 0) m0)).
  destruct (dbFirst_cases base) as [[Hb ->]|([k v] & Hn & ->)].
  - assert (length base = 0) as Hlen by (rewrite Hb; reflexivity).
    rewrite (rowAt_None base 0) by lia. cbn [isNil negb andb hasErr].
    apply (goForward_exact m1 0 0 overlay []); try reflexivity; try lia.
    left. split; [lia|reflexivity].
  - rewrite (rowAt_Some base 0 k v Hn). cbn [isNil negb andb contents fst].
    destruct (isEntryDeleted mu t k).
    + destruct (getNextOnDb_exact m1 0) as (Hg & Hj & Hv); try reflexivity; try lia.
      cbv zeta in *. rewrite Hg, (dbView_rowAt _ _ Hv). cbn [hasErr].
      apply (goForward_exact
               (setCursor (dbAt (liveAt (Nat.min 1 (length base)))) m1)
               (liveAt (Nat.min 1 (length base))) 0 overlay (liveFrom 1));
        try assumption; try reflexivity; lia.
    + cbn [hasErr].
      apply (goForward_exact m1 0 0 overlay ((k, v) :: liveFrom 1));
        try reflexivity; try lia.
      right. exists (k, v). split; [assumption|reflexivity].
Qed.

(** The full scan of a table that is not cleared returns what the merge of
    the overlay and the base rows [First] keeps returns, and then the nil
    key. *)
Lemma scan_exact fuel :
  isTableCleared mu t = false ->
  length overlay + length base <= fuel ->
  scan DupSort ChaindataTablesCfg fuel (newCursor base overlay mu t) =
  Some (merge (S fuel) overlay (dbFirst ChaindataTablesCfg mu t base)).
Proof.
  intros Hcl Hlen. unfold scan. pose proof (dbFirst_length base).
  apply stepsAs_merge; [apply scanNexts_exact| |lia].
  now apply First_exact.
Qed.

End ExactScan.

(** ** The scan of a cleared table, exactly *)

Section ClearedScan.

Variable DupSort : Z.
Variable ChaindataTablesCfg : kv.TableCfg.
Variable t : string.
Variables base overlay : list row.

Hypothesis offsetNotNegative :
  kv.AutoDupSortKeysConversion (tableConfig ChaindataTablesCfg t) = true ->
  (0 <= dupOffset (tableConfig ChaindataTablesCfg t))%Z.
Hypothesis overlayOrdered :
  tableOrdered (isDupSortTable DupSort ChaindataTablesCfg t) overlay.

Local Abbreviation state := (memoryMutationCursor listCursor listCursor).
Local Abbreviation memAt := (memAt overlay).
Local Abbreviation interb := (intersectsb DupSort (tableConfig ChaindataTablesCfg t)).

(** An overlay row after the first does not intersect the nil candidate. *)
Lemma intersectsb_cleared i y k v :
  nth_error overlay i = Some y -> nth_error overlay (S i) = Some (k, v) ->
  interb (Some k) (Some v) None None = false.
Proof.
  intros Hn Hn'. destruct (interb (Some k) (Some v) None None) eqn:E; [|reflexivity].
  exfalso. unfold intersectsb in E. cbv zeta in E.
  apply andb_true_iff in E as [Ek E]. apply Equal_true_iff in Ek. cbn in Ek. subst k.
  assert (i < S i) as Hlt by lia.
  pose proof (StronglySorted_nth _ _ _ _ _ _ overlayOrdered Hlt Hn Hn') as Hord.
  unfold isDupSortTable in Hord.
  destruct (Z.land (kv.Flags (tableConfig ChaindataTablesCfg t)) DupSort =? 0)%Z;
    cbn [negb orb] in Hord, E.
  { unfold keyLt, bytesLt in Hord. cbn [fst] in Hord.
    now apply compareBytes_nil_r in Hord. }
  destruct Hord as [Hord|[_ Hord]]; unfold bytesLt in Hord; cbn [fst snd] in Hord.
  { now apply compareBytes_nil_r in Hord. }
  assert (v <> []) as Hv.
  { intros ->. now apply compareBytes_nil_r in Hord. }
  apply orb_true_iff in E as [E|E].
  { apply Equal_true_iff in E. cbn in E. contradiction. }
  rewrite !andb_true_iff in E. destruct E as [[[E1 E2] E3] _].
  apply negb_true_iff, Z.eqb_neq in E1. apply Z.leb_le in E3. cbn in E3.
  destruct (kv.AutoDupSortKeysConversion (tableConfig ChaindataTablesCfg t)) eqn:Ea;
    [|now apply E1].
  pose proof (offsetNotNegative eq_refl). lia.
Qed.

Lemma Next_cleared (m : state) i :
  isPrevFromDb m = false -> memCursor m = memAt i -> i < length overlay ->
  currentDbEntry m = emptyEntry -> table m = t ->
  exists m',
    Next DupSort ChaindataTablesCfg m = Returned (rowAt overlay (S i), m') /\
    isPrevFromDb m' = false /\ memCursor m' = memAt (S i) /\
    currentDbEntry m' = emptyEntry /\ table m' = t.
Proof.
  intros Hp Hmc Hi Hcd Ht.
  assert (exists y, nth_error overlay i = Some y) as [y Hn].
  { destruct (nth_error overlay i) eqn:E; [eauto|]. apply nth_error_None in E. lia. }
  unfold Next. rewrite nextWith_unfold, Hp.
  change (kv.Next (memCursor m)) with (lcNext (memCursor m)).
  rewrite Hmc. unfold memAt. rewrite lcNext_at.
  replace (Nat.min (S i) (length overlay)) with (S i) by lia. fold (memAt (S i)).
  rewrite Hcd. cbn [emptyEntry key value].
  destruct (rowAt_cases overlay (S i)) as [(k & v & Hn' & Hlt & E)|[Hge E]]; rewrite E;
    simpl_cursor; rewrite goForward_unfold; cbn [isNil andb].
  - rewrite skipIntersection_exact by (simpl_cursor; rewrite Ht; exact offsetNotNegative).
    simpl_cursor. rewrite Ht, (intersectsb_cleared i y k v Hn Hn'). cbv zeta.
    rewrite dbIsSmaller_db_nil. cbn [isNil].
    eexists. split; [reflexivity|]. simpl_cursor. repeat split; assumption.
  - eexists. split; [reflexivity|]. simpl_cursor. repeat split; assumption.
Qed.

Lemma scanNexts_cleared : forall fuel (m : state) i,
  isPrevFromDb m = false -> memCursor m = memAt i -> i < length overlay ->
  currentDbEntry m = emptyEntry -> table m = t ->
  length overlay - i <= fuel ->
  scanNexts DupSort ChaindataTablesCfg fuel m = Some (skipn (S i) overlay).
Proof.
  induction fuel as [|fuel IH]; intros m i Hp Hmc Hi Hcd Ht Hfuel; [lia|].
  cbn [scanNexts].
  destruct (Next_cleared m i Hp Hmc Hi Hcd Ht) as (m' & -> & Hp' & Hmc' & Hcd' & Ht').
  destruct (rowAt_cases overlay (S i)) as [(k & v & Hn' & Hlt & E)|[Hge E]]; rewrite E.
  - rewrite (IH m' (S i)) by (assumption || lia). unfold option_map, contents.
    now rewrite (skipn_nth_error overlay (S i) _ Hn').
  - now rewrite skipn_past by lia.
Qed.

(** The full scan of a cleared table returns the overlay's rows, and then
    the nil key. *)
Lemma scan_cleared mu fuel :
  isTableCleared mu t = true -> length overlay <= fuel ->
  scan DupSort ChaindataTablesCfg fuel (newCursor base overlay mu t) = Some overlay.
Proof.
  intros Hcl Hfuel. unfold scan. set (m0 := newCursor base overlay mu t).
  rewrite (First_cleared_unfold _ _ m0 Hcl).
  change (kv.First (memCursor m0)) with (lcFirst {| lcRows := overlay; lcPos := None |}).
  rewrite lcFirst_new. fold (memAt 0).
  destruct (rowAt_cases overlay 0) as [(k & v & Hn & Hlt & E)|[Hge E]]; rewrite E;
    cbn [hasErr].
  - rewrite (scanNexts_cleared fuel _ 0); try reflexivity; try lia.
    unfold option_map, contents. symmetry.
    exact (f_equal Some (skipn_nth_error overlay 0 _ Hn)).
  - f_equal. symmetry. apply length_zero_iff_nil. lia.
Qed.

End ClearedScan.

(** ** Merge equivalence *)

Lemma tableOrdered_le dupsort (rows : list row) :
  tableOrdered dupsort rows -> StronglySorted rowLe rows.
Proof.
  unfold tableOrdered. induction 1 as [|x l Hs IH Hall]; constructor; [assumption|].
  eapply Forall_impl; [|exact Hall]. intros y.
  destruct dupsort; [apply rowLt_le|apply keyLt_le].
Qed.

Lemma Forall_filter_keeps {A} (P : A -> Prop) p (l : list A) :
  Forall P l -> Forall P (filter p l).
Proof.
  rewrite !Forall_forall. intros H x Hx. apply filter_In in Hx. now apply H.
Qed.

Lemma StronglySorted_filter {A} (R : A -> A -> Prop) p (l : list A) :
  StronglySorted R l -> StronglySorted R (filter p l).
Proof.
  induction 1 as [|x l Hs IH Hall]; cbn [filter]; [constructor|].
  destruct (p x); [|assumption]. constructor; [assumption|].
  now apply Forall_filter_keeps.
Qed.

Lemma filter_filter_andb {A} (p q : A -> bool) (l : list A) :
  filter p (filter q l) = filter (fun x => q x && p x) l.
Proof.
  induction l as [|x l IH]; [reflexivity|]. cbn [filter].
  destruct (q x); cbn [filter andb]; rewrite IH; reflexivity.
Qed.

Section MergeEquivalence.

Variable DupSort : Z.
Variable ChaindataTablesCfg : kv.TableCfg.
Variable mu : MemoryMutation.
Variable t : string.
Variables base overlay : list row.

Local Abbreviation config := (tableConfig ChaindataTablesCfg t).
Local Abbreviation kept := (dbFirst ChaindataTablesCfg mu t).

Lemma dbFirst_sorted (R : row -> row -> Prop) (rows : list row) :
  StronglySorted R rows -> StronglySorted R (kept rows).
Proof.
  intros H. destruct rows as [|r rest]; [constructor|]. cbn [dbFirst].
  inversion H as [|? ? Hs Hall]; subst.
  destruct (isEntryDeleted mu t (fst r)).
  - now apply StronglySorted_filter.
  - constructor; [now apply StronglySorted_filter|now apply Forall_filter_keeps].
Qed.

Lemma dbFirst_Forall (P : row -> Prop) (rows : list row) :
  Forall P rows -> Forall P (kept rows).
Proof.
  intros H. destruct rows as [|r rest]; [constructor|]. cbn [dbFirst].
  inversion H as [|? ? Hr Hrest]; subst.
  destruct (isEntryDeleted mu t (fst r)).
  - now apply Forall_filter_keeps.
  - constructor; [assumption|now apply Forall_filter_keeps].
Qed.

Lemma dbFirst_agrees (rows : list row) :
  firstRowAgrees ChaindataTablesCfg mu t rows ->
  kept rows = filter (liveb ChaindataTablesCfg mu t) rows.
Proof.
  destruct rows as [|r rest]; [reflexivity|]. intros H. cbn [dbFirst filter].
  rewrite (H r eq_refl). now destruct (liveb ChaindataTablesCfg mu t r).
Qed.

Hypothesis offsetNotNegative :
  kv.AutoDupSortKeysConversion config = true -> (0 <= dupOffset config)%Z.
Hypothesis baseConvertible : Forall (convertible ChaindataTablesCfg t) base.
Hypothesis baseOrdered :
  tableOrdered (isDupSortTable DupSort ChaindataTablesCfg t) base.
Hypothesis overlayOrdered :
  tableOrdered (isDupSortTable DupSort ChaindataTablesCfg t) overlay.
Hypothesis baseKeys : Forall (fun r : row => fst r <> []) base.
Hypothesis baseCollisionFree : collisionFree DupSort config base.

Lemma merge_kept_permutation fuel :
  length overlay + length base <= fuel ->
  Permutation (mergeRows DupSort config (S fuel) overlay (kept base))
              (overlay ++ filter (notShadowed DupSort config overlay) (kept base)).
Proof.
  intros Hfuel. pose proof (dbFirst_length ChaindataTablesCfg mu t base).
  apply mergeRows_permutation.
  - lia.
  - exact (tableOrdered_le _ _ overlayOrdered).
  - apply dbFirst_sorted. exact (tableOrdered_le _ _ baseOrdered).
  - apply dbFirst_sorted. exact baseCollisionFree.
  - apply dbFirst_Forall. exact baseKeys.
Qed.

(** X1.  Merge equivalence as the code has it.  Over two ordered tables, a
    base with no empty key, no two intersecting rows and values long enough
    for the key conversion, the full scan of a new cursor ([First], then
    [Next] until the nil key) ends with the nil key and returns, each once:
    the overlay's rows alone when the table is cleared; otherwise the
    overlay's rows and the base rows that are kept and that no overlay row
    intersects.  A base row is kept when its effective key is not deleted;
    the first base row is kept when its raw key is not deleted. *)
Theorem scan_merges_kept_rows fuel :
  length overlay + length base <= fuel ->
  exists rows,
    scan DupSort ChaindataTablesCfg fuel (newCursor base overlay mu t) = Some rows /\
    Permutation rows (keptScanMerged ChaindataTablesCfg mu t DupSort base overlay).
Proof.
  intros Hfuel. unfold keptScanMerged. destruct (isTableCleared mu t) eqn:Hcl.
  - exists overlay. split; [|apply Permutation_refl].
    apply scan_cleared; try assumption. lia.
  - eexists. split; [apply scan_exact; assumption|].
    now apply merge_kept_permutation.
Qed.

(** X2.  Merge equivalence as the specification has it (section 8), for a
    base whose first row [First] decides on as [Next] would: under the
    conditions of X1 the full scan of a new cursor ends with the nil key and
    returns, each once, the overlay's rows alone when the table is cleared,
    and otherwise the overlay's rows and the base rows whose effective key
    is not deleted and that no overlay row intersects. *)
Theorem scan_merge_equivalence fuel :
  firstRowAgrees ChaindataTablesCfg mu t base ->
  length overlay + length base <= fuel ->
  exists rows,
    scan DupSort ChaindataTablesCfg fuel (newCursor base overlay mu t) = Some rows /\
    Permutation rows (specScanMerged ChaindataTablesCfg mu t DupSort base overlay).
Proof.
  intros Hag Hfuel. unfold specScanMerged. destruct (isTableCleared mu t) eqn:Hcl.
  - exists overlay. split; [|apply Permutation_refl].
    apply scan_cleared; try assumption. lia.
  - eexists. split; [apply scan_exact; assumption|].
    rewrite <- filter_filter_andb, <- (dbFirst_agrees base Hag).
    now apply merge_kept_permutation.
Qed.

End MergeEquivalence.

(** ** Errors *)

Section Errors.

Context {DB MEM : Type}.
Context {dbCursor : kv.CursorDupSort DB}.
Context {rwMemCursor : kv.RwCursorDupSort MEM}.
Variable DupSort : Z.
Variable ChaindataTablesCfg : kv.TableCfg.

Local Abbreviation state := (memoryMutationCursor DB MEM).
Local Abbreviation errorAlone := (@errorAlone DB MEM).

Lemma Seek_uncleared_unfold seek (m : state) :
  isTableCleared (mutation m) (table m) = false ->
  Seek DupSort ChaindataTablesCfg seek m =
  let '((dbKey, dbValue, err), c) := kv.Seek seek (cursor m) in
  let m1 := setCursor c m in
  if hasErr err then Returned ((None, None, err), m1)
  else
    match (if negb (isNil dbKey)
              && isEntryDeleted (mutation m) (table m) (contents dbKey)
           then getNextOnDb ChaindataTablesCfg Normal m1
           else Returned ((dbKey, dbValue, err), m1)) with
    | Returned ((dbKey, dbValue, err), m2) =>
        if hasErr err then Returned ((None, None, err), m2)
        else
          let '((memKey, memValue, err), mc) := kv.Seek seek (memCursor m2) in
          if hasErr err then Returned ((None, None, err), setMemCursor mc m2)
          else goForward DupSort ChaindataTablesCfg memKey memValue dbKey dbValue Normal
                         (setMemCursor mc m2)
    | Panicked msg => Panicked msg
    end.
Proof.
  intros Hc. unfold Seek, bind, gets, ret, onMemCursor, onCursor. rewrite Hc.
  destruct (kv.Seek seek (cursor m)) as [[[dbKey dbValue] err] c]. simpl_cursor.
  destruct (hasErr err) eqn:E; [reflexivity|]. cbv zeta.
  destruct (negb (isNil dbKey) && isEntryDeleted (mutation m) (table m) (contents dbKey)).
  - destruct (getNextOnDb ChaindataTablesCfg Normal (setCursor c m))
      as [[[[k v] e] m2]|msg]; [|reflexivity].
    destruct (hasErr e); [reflexivity|].
    destruct (kv.Seek seek (memCursor m2)) as [[[memKey memValue] err'] mc].
    destruct (hasErr err'); reflexivity.
  - rewrite E. simpl_cursor.
    destruct (kv.Seek seek (memCursor m)) as [[[memKey memValue] err'] mc].
    destruct (hasErr err'); reflexivity.
Qed.

Lemma error_result (err : option error) (m m' : state) (r : kve) :
  Returned ((None, None, err), m) = Returned (r, m') ->
  kveKey r = None /\ kveValue r = None.
Proof. intros H. injection H as <- <-. now split. Qed.

Lemma entry_result (k v : slice) (m m' : state) (r : kve) :
  Returned ((k, v, None), m) = Returned (r, m') -> kveErr r = None.
Proof. intros H. now injection H as <- <-. Qed.

Lemma goForward_errorAlone memKey memValue dbKey dbValue t :
  errorAlone (goForward DupSort ChaindataTablesCfg memKey memValue dbKey dbValue t).
Proof.
  intros m r m' H He. rewrite goForward_unfold in H.
  destruct (isNil memValue && isNil dbValue); [now apply error_result in H|].
  destruct (skipIntersection DupSort ChaindataTablesCfg memKey memValue dbKey dbValue t m)
    as [[[[k v] [e|]] m1]|msg]; [now apply error_result in H| |discriminate].
  cbv zeta in H. exfalso. apply He.
  destruct (dbIsSmaller memKey memValue k v); now apply entry_result in H.
Qed.

Lemma nextWith_errorAlone t (memStep : MEM -> kve * MEM) :
  errorAlone (nextWith DupSort ChaindataTablesCfg t memStep).
Proof.
  intros m r m' H He. rewrite nextWith_unfold in H. destruct (isPrevFromDb m).
  - destruct (getNextOnDb ChaindataTablesCfg t m) as [[[[k v] err] m1]|msg];
      [|discriminate].
    destruct (hasErr err); [now apply error_result in H|].
    exact (goForward_errorAlone _ _ _ _ _ _ _ _ H He).
  - destruct (memStep (memCursor m)) as [[[memK memV] err] mc].
    destruct (hasErr err); [now apply error_result in H|].
    exact (goForward_errorAlone _ _ _ _ _ _ _ _ H He).
Qed.

Lemma First_errorAlone : errorAlone (First DupSort ChaindataTablesCfg).
Proof.
  intros m r m' H He. destruct (isTableCleared (mutation m) (table m)) eqn:Hc.
  - rewrite (First_cleared_unfold _ _ m Hc) in H.
    destruct (kv.First (memCursor m)) as [[[memKey memValue] err] mc].
    destruct (hasErr err); [now apply error_result in H|].
    apply entry_result in H. contradiction.
  - rewrite (First_uncleared_unfold _ _ m Hc) in H.
    destruct (kv.First (memCursor m)) as [[[memKey memValue] err] mc].
    destruct (hasErr err); [now apply error_result in H|].
    destruct (kv.First (cursor m)) as [[[dbKey dbValue] err'] c]. cbv zeta in H.
    destruct (hasErr err') eqn:E; [now apply error_result in H|].
    destruct (negb (isNil dbKey) && isEntryDeleted (mutation m) (table m) (contents dbKey)).
    + destruct (getNextOnDb ChaindataTablesCfg Normal (setCursor c (setMemCursor mc m)))
        as [[[[k v] e] m2]|msg]; [|discriminate].
      destruct (hasErr e); [now apply error_result in H|].
      exact (goForward_errorAlone _ _ _ _ _ _ _ _ H He).
    + rewrite E in H. exact (goForward_errorAlone _ _ _ _ _ _ _ _ H He).
Qed.

Lemma Seek_errorAlone seek (m : state) r m' :
  isTableCleared (mutation m) (table m) = false ->
  Seek DupSort ChaindataTablesCfg seek m = Returned (r, m') ->
  kveErr r <> None -> kveKey r = None /\ kveValue r = None.
Proof.
  intros Hc H He. rewrite (Seek_uncleared_unfold seek m Hc) in H.
  destruct (kv.Seek seek (cursor m)) as [[[dbKey dbValue] err] c]. cbv zeta in H.
  destruct (hasErr err) eqn:E; [now apply error_result in H|].
  assert (forall k v (m2 : state),
             (let '((memKey, memValue, err), mc) := kv.Seek seek (memCursor m2) in
              if hasErr err then Returned ((None, None, err), setMemCursor mc m2)
              else goForward DupSort ChaindataTablesCfg memKey memValue k v Normal
                             (setMemCursor mc m2)) = Returned (r, m') ->
             kveKey r = None /\ kveValue r = None) as Hmem.
  { intros k v m2 H2.
    destruct (kv.Seek seek (memCursor m2)) as [[[memKey memValue] err'] mc].
    destruct (hasErr err'); [now apply error_result in H2|].
    exact (goForward_errorAlone _ _ _ _ _ _ _ _ H2 He). }
  destruct (negb (isNil dbKey) && isEntryDeleted (mutation m) (table m) (contents dbKey)).
  - destruct (getNextOnDb ChaindataTablesCfg Normal (setCursor c m))
      as [[[[k v] e] m2]|msg]; [|discriminate].
    destruct (hasErr e); [now apply error_result in H|]. exact (Hmem _ _ _ H).
  - rewrite E in H. exact (Hmem _ _ _ H).
Qed.

Lemma Last_unfold (m : state) :
  Last DupSort ChaindataTablesCfg m =
  let '((memKey, memValue, err), mc) := kv.Last (memCursor m) in
  if hasErr err then Returned ((None, None, err), setMemCursor mc m)
  else
    let '((dbKey, dbValue, err), c) := kv.Last (cursor m) in
    let m1 := setCursor c (setMemCursor mc m) in
    if hasErr err then Returned ((None, None, err), m1)
    else
      match skipIntersection DupSort ChaindataTablesCfg memKey memValue dbKey dbValue
                             Normal m1 with
      | Panicked msg => Panicked msg
      | Returned ((dbKey', dbValue', Some e), m2) => Returned ((None, None, Some e), m2)
      | Returned ((dbKey', dbValue', None), m2) =>
          let m3 := setCurrentMemEntry {| key := memKey; value := memValue |}
                      (setCurrentDbEntry {| key := dbKey'; value := dbValue' |} m2) in
          let fromMem := Returned ((memKey, memValue, None),
                                   setIsPrevFromDb false (setCurrentDbEntry emptyEntry m3)) in
          let fromDb := Returned ((dbKey', dbValue', None),
                                  setIsPrevFromDb true (setCurrentMemEntry emptyEntry m3)) in
          if negb (isNil dbKey')
             && isEntryDeleted (mutation m2) (table m2) (contents dbKey')
          then fromMem
          else if isNil dbValue' then
            Returned ((memKey, memValue, None), setIsPrevFromDb false m3)
          else if isNil memValue then
            Returned ((dbKey', dbValue', None), setIsPrevFromDb true m3)
          else if (bytes.Compare memKey dbKey' =? 0)%Z then
            if (0 <? bytes.Compare memValue dbValue')%Z then fromMem else fromDb
          else if (0 <? bytes.Compare memKey dbKey')%Z then fromMem else fromDb
      end.
Proof.
  unfold Last, bind, onMemCursor.
  destruct (kv.Last (memCursor m)) as [[[memKey memValue] err] mc].
  destruct (hasErr err); [reflexivity|]. unfold onCursor at 1. simpl_cursor.
  destruct (kv.Last (cursor m)) as [[[dbKey dbValue] err'] c].
  destruct (hasErr err'); [reflexivity|]. cbv zeta.
  destruct (skipIntersection DupSort ChaindataTablesCfg memKey memValue dbKey dbValue
              Normal (setCursor c (setMemCursor mc m)))
    as [[[[dbKey' dbValue'] [e|]] m2]|msg]; try reflexivity.
  cbn [hasErr]. unfold modify, gets, ret. simpl_cursor.
  repeat match goal with
         | |- context [if ?b then _ else _] => destruct b; try reflexivity
         end.
Qed.

Lemma Last_errorAlone : errorAlone (Last DupSort ChaindataTablesCfg).
Proof.
  intros m r m' H He. rewrite Last_unfold in H.
  destruct (kv.Last (memCursor m)) as [[[memKey memValue] err] mc].
  destruct (hasErr err); [now apply error_result in H|].
  destruct (kv.Last (cursor m)) as [[[dbKey dbValue] err'] c]. cbv zeta in H.
  destruct (hasErr err'); [now apply error_result in H|].
  destruct (skipIntersection DupSort ChaindataTablesCfg memKey memValue dbKey dbValue
              Normal (setCursor c (setMemCursor mc m)))
    as [[[[dbKey' dbValue'] [e|]] m2]|msg]; [now apply error_result in H| |discriminate].
  exfalso. apply He.
  repeat match type of H with
         | context [if ?b then _ else _] => destruct b
         end; now apply entry_result in H.
Qed.

(** X6.  Errors come alone.  Over any base and overlay cursor, a result of
    [First], [Next], [NextDup], [NextNoDup] or [Last] that carries an error
    has the nil key and the nil value, and so has a result of [Seek] on a
    table that is not cleared. *)
Theorem errors_come_alone :
  errorAlone (First DupSort ChaindataTablesCfg) /\
  errorAlone (Next DupSort ChaindataTablesCfg) /\
  errorAlone (NextDup DupSort ChaindataTablesCfg) /\
  errorAlone (NextNoDup DupSort ChaindataTablesCfg) /\
  errorAlone (Last DupSort ChaindataTablesCfg) /\
  (forall seek (m : state) r m',
      isTableCleared (mutation m) (table m) = false ->
      Seek DupSort ChaindataTablesCfg seek m = Returned (r, m') ->
      kveErr r <> None -> kveKey r = None /\ kveValue r = None).
Proof.
  split; [exact First_errorAlone|].
  split; [exact (nextWith_errorAlone Normal kv.Next)|].
  split; [exact (nextWith_errorAlone Dup kv.NextDup)|].
  split; [exact (nextWith_errorAlone NoDup kv.NextNoDup)|].
  split; [exact Last_errorAlone|]. exact Seek_errorAlone.
Qed.

End Errors.

(** ** Panics *)

Section Panics.

Context {DB MEM : Type}.
Context {dbCursor : kv.CursorDupSort DB}.
Context {rwMemCursor : kv.RwCursorDupSort MEM}.
Variable DupSort : Z.
Variable ChaindataTablesCfg : kv.TableCfg.

Local Abbreviation state := (memoryMutationCursor DB MEM).
Local Abbreviation plain := (plainTable ChaindataTablesCfg).

Lemma convertAutoDupsort_plain t key value room :
  plain t -> convertAutoDupsort ChaindataTablesCfg t key value room = Returned key.
Proof. intros H. rewrite convertAutoDupsort_unfold, H. reflexivity. Qed.

Lemma returnsFrom_ret {A} (a : A) (m m0 : state) :
  table m = table m0 -> exists a' m', Returned (a, m) = Returned (a', m') /\ table m' = table m0.
Proof. intros H. now exists a, m. Qed.

Lemma stepCursor_frame t (m : state) :
  exists r m', stepCursor t m = Returned (r, m') /\ table m' = table m.
Proof.
  destruct t; unfold stepCursor, onCursor.
  - destruct (kv.Next (cursor m)) as [r c]. now exists r, (setCursor c m).
  - destruct (kv.NextDup (cursor m)) as [r c]. now exists r, (setCursor c m).
  - destruct (kv.NextNoDup (cursor m)) as [r c]. now exists r, (setCursor c m).
Qed.

Lemma skipDeleted_plain t : forall fuel (r : kve) (m : state),
  plain (table m) -> returnsFrom (skipDeleted ChaindataTablesCfg fuel t r) m.
Proof.
  unfold returnsFrom.
  induction fuel as [|fuel IH]; intros r m Hp; rewrite skipDeleted_unfold;
    (destruct (negb (isNil (kveKey r)) && negb (isNil (kveValue r)));
     [|now apply returnsFrom_ret]);
    rewrite (convertAutoDupsort_plain _ _ _ _ Hp);
    (destruct (isEntryDeleted (mutation m) (table m) (contents (kveKey r)));
     [|now apply returnsFrom_ret]); [now apply returnsFrom_ret|].
  destruct (stepCursor_frame t m) as (r' & m1 & -> & Ht).
  destruct (hasErr (kveErr r')); [now apply returnsFrom_ret|].
  destruct (IH r' m1) as (a & m' & -> & Ht'); [now rewrite Ht|].
  apply returnsFrom_ret. simpl_cursor. congruence.
Qed.

Lemma getNextOnDb_plain t (m : state) :
  plain (table m) -> returnsFrom (getNextOnDb ChaindataTablesCfg t) m.
Proof.
  intros Hp. unfold returnsFrom. rewrite getNextOnDb_unfold.
  destruct (stepCursor_frame t m) as (r & m1 & -> & Ht).
  destruct (hasErr (kveErr r)); [now apply returnsFrom_ret|].
  destruct (skipDeleted_plain t (S (kv.stepsLeft (cursor m1))) r m1) as (a & m' & -> & Ht');
    [now rewrite Ht|].
  apply returnsFrom_ret. simpl_cursor. congruence.
Qed.

Lemma skipIntersection_plain memKey memValue dbKey dbValue t (m : state) :
  plain (table m) ->
  returnsFrom (skipIntersection DupSort ChaindataTablesCfg memKey memValue dbKey dbValue t) m.
Proof.
  intros Hp. unfold returnsFrom. rewrite skipIntersection_exact.
  - destruct (intersectsb DupSort (tableConfig ChaindataTablesCfg (table m))
                          memKey memValue dbKey dbValue).
    + now apply getNextOnDb_plain.
    + now apply returnsFrom_ret.
  - intros Ha. unfold plainTable in Hp. congruence.
Qed.

Lemma goForward_plain memKey memValue dbKey dbValue t (m : state) :
  plain (table m) ->
  returnsFrom (goForward DupSort ChaindataTablesCfg memKey memValue dbKey dbValue t) m.
Proof.
  intros Hp. unfold returnsFrom. rewrite goForward_unfold.
  destruct (isNil memValue && isNil dbValue); [now apply returnsFrom_ret|].
  destruct (skipIntersection_plain memKey memValue dbKey dbValue t m Hp)
    as ([[k v] [e|]] & m1 & -> & Ht); now apply returnsFrom_ret.
Qed.

Lemma nextWith_plain t (memStep : MEM -> kve * MEM) (m : state) :
  plain (table m) -> returnsFrom (nextWith DupSort ChaindataTablesCfg t memStep) m.
Proof.
  intros Hp. unfold returnsFrom. rewrite nextWith_unfold. destruct (isPrevFromDb m).
  - destruct (getNextOnDb_plain t m Hp) as ([[k v] err] & m1 & -> & Ht).
    destruct (hasErr err); [now apply returnsFrom_ret|].
    destruct (goForward_plain (key (currentMemEntry m1)) (value (currentMemEntry m1))
                              k v t m1) as (a & m' & -> & Ht'); [now rewrite Ht|].
    apply returnsFrom_ret. simpl_cursor. congruence.
  - destruct (memStep (memCursor m)) as [[[memK memV] err] mc].
    destruct (hasErr err); [now apply returnsFrom_ret|].
    destruct (goForward_plain memK memV (key (currentDbEntry m)) (value (currentDbEntry m))
                              t (setMemCursor mc m) Hp) as (a & m' & -> & Ht').
    now apply returnsFrom_ret.
Qed.

Lemma First_plain (m : state) :
  plain (table m) -> returnsFrom (First DupSort ChaindataTablesCfg) m.
Proof.
  intros Hp. unfold returnsFrom. destruct (isTableCleared (mutation m) (table m)) eqn:Hc.
  - rewrite (First_cleared_unfold _ _ m Hc).
    destruct (kv.First (memCursor m)) as [[[memKey memValue] err] mc].
    destruct (hasErr err); now apply returnsFrom_ret.
  - rewrite (First_uncleared_unfold _ _ m Hc).
    destruct (kv.First (memCursor m)) as [[[memKey memValue] err] mc].
    destruct (hasErr err); [now apply returnsFrom_ret|].
    destruct (kv.First (cursor m)) as [[[dbKey dbValue] err'] c]. cbv zeta.
    destruct (hasErr err') eqn:E; [now apply returnsFrom_ret|].
    destruct (negb (isNil dbKey) && isEntryDeleted (mutation m) (table m) (contents dbKey)).
    + destruct (getNextOnDb_plain Normal (setCursor c (setMemCursor mc m)) Hp)
        as ([[k v] e] & m2 & -> & Ht).
      destruct (hasErr e); [now apply returnsFrom_ret|].
      destruct (goForward_plain memKey memValue k v Normal m2) as (a & m' & -> & Ht');
        [now rewrite Ht|].
      apply returnsFrom_ret. simpl_cursor. congruence.
    + rewrite E.
      destruct (goForward_plain memKey memValue dbKey dbValue Normal
                                (setCursor c (setMemCursor mc m)) Hp)
        as (a & m' & -> & Ht').
      now apply returnsFrom_ret.
Qed.

Lemma Seek_plain seek (m : state) :
  plain (table m) -> returnsFrom (Seek DupSort ChaindataTablesCfg seek) m.
Proof.
  intros Hp. unfold returnsFrom. destruct (isTableCleared (mutation m) (table m)) eqn:Hc.
  - rewrite (Seek_cleared_unfold _ _ seek m Hc).
    destruct (kv.Seek seek (memCursor m)) as [r mc]. now apply returnsFrom_ret.
  - rewrite (Seek_uncleared_unfold _ _ seek m Hc).
    destruct (kv.Seek seek (cursor m)) as [[[dbKey dbValue] err] c]. cbv zeta.
    destruct (hasErr err) eqn:E; [now apply returnsFrom_ret|].
    assert (forall k v (m2 : state),
               table m2 = table m ->
               exists a m',
                 (let '((memKey, memValue, err), mc) := kv.Seek seek (memCursor m2) in
                  if hasErr err then Returned ((None, None, err), setMemCursor mc m2)
                  else goForward DupSort ChaindataTablesCfg memKey memValue k v Normal
                                 (setMemCursor mc m2)) = Returned (a, m') /\
                 table m' = table m) as Hmem.
    { intros k v m2 Ht.
      destruct (kv.Seek seek (memCursor m2)) as [[[memKey memValue] err'] mc].
      destruct (hasErr err'); [now apply returnsFrom_ret|].
      destruct (goForward_plain memKey memValue k v Normal (setMemCursor mc m2))
        as (a & m' & -> & Ht'); [simpl_cursor; now rewrite Ht|].
      apply returnsFrom_ret. simpl_cursor. congruence. }
    destruct (negb (isNil dbKey) && isEntryDeleted (mutation m) (table m) (contents dbKey)).
    + destruct (getNextOnDb_plain Normal (setCursor c m) Hp) as ([[k v] e] & m2 & -> & Ht).
      destruct (hasErr e); [now apply returnsFrom_ret|]. now apply Hmem.
    + rewrite E. now apply Hmem.
Qed.

Lemma SeekExact_returns seek (m : state) : returnsFrom (SeekExact seek) m.
Proof.
  unfold returnsFrom. rewrite SeekExact_unfold.
  destruct (kv.SeekExact seek (memCursor m)) as [[[memKey memValue] err] mc].
  destruct (hasErr err); [now apply returnsFrom_ret|].
  destruct (negb (isNil memKey)).
  - destruct (kv.Seek seek (cursor m)) as [[[dbKey dbValue] err'] c].
    now apply returnsFrom_ret.
  - destruct (kv.SeekExact seek (cursor m)) as [[[dbKey dbValue] err'] c].
    destruct (hasErr err'); [now apply returnsFrom_ret|].
    destruct (negb (isNil dbKey) && negb (isTableCleared (mutation m) (table m))
              && negb (isEntryDeleted (mutation m) (table m) (contents seek)));
      [|now apply returnsFrom_ret].
    destruct (kv.Seek seek mc) as [[[memKey' memValue'] err''] mc'].
    now apply returnsFrom_ret.
Qed.

(** The end of [SeekBothRange], after the base side's value is known. *)
Local Ltac seek_tail :=
  match goal with
  | |- context [hasErr ?e] => destruct (hasErr e); [reflexivity|]
  end;
  unfold bind at 1; unfold onMemCursor;
  match goal with
  | |- context [kv.SeekBothRange ?k ?v (memCursor ?m2)] =>
      destruct (kv.SeekBothRange k v (memCursor m2)) as [[? ?e'] ?mc]
  end;
  match goal with
  | |- context [hasErr ?e] => destruct (hasErr e); [reflexivity|]
  end;
  unfold bind, ret;
  match goal with
  | |- context [goForward ?d ?c ?a ?b ?x ?y ?t ?m2] =>
      destruct (goForward d c a b x y t m2) as [[[[? ?] ?] ?]|?]; reflexivity
  end.

Lemma SeekBothRange_unfold key value (m : state) :
  SeekBothRange DupSort ChaindataTablesCfg key value m =
  if isNil value then
    match SeekExact key m with
    | Returned ((_, v, err), m1) => Returned ((v, err), m1)
    | Panicked msg => Panicked msg
    end
  else
    let '((dbValue, err), c) := kv.SeekBothRange key value (cursor m) in
    let m1 := setCursor c m in
    if hasErr err then Returned ((None, err), m1)
    else
      match (if negb (isNil dbValue) then
               match convertAutoDupsort ChaindataTablesCfg (table m) key dbValue
                                        (kv.valueRoom c) with
               | Panicked msg => Panicked msg
               | Returned ekey =>
                   if isEntryDeleted (mutation m) (table m) (contents ekey) then
                     match getNextOnDb ChaindataTablesCfg Dup m1 with
                     | Returned ((_, dbValue', err'), m2) => Returned ((dbValue', err'), m2)
                     | Panicked msg => Panicked msg
                     end
                   else Returned ((dbValue, err), m1)
               end
             else Returned ((dbValue, err), m1)) with
      | Panicked msg => Panicked msg
      | Returned ((dbValue, err), m2) =>
          if hasErr err then Returned ((None, err), m2)
          else
            let '((memValue, err), mc) := kv.SeekBothRange key value (memCursor m2) in
            if hasErr err then Returned ((None, err), setMemCursor mc m2)
            else
              match goForward DupSort ChaindataTablesCfg key memValue key dbValue Normal
                              (setMemCursor mc m2) with
              | Returned ((_, retValue, err), m3) => Returned ((retValue, err), m3)
              | Panicked msg => Panicked msg
              end
      end.
Proof.
  unfold SeekBothRange. destruct (isNil value).
  { unfold bind, ret. destruct (SeekExact key m) as [[[[k v] e] m1]|msg]; reflexivity. }
  unfold bind at 1. unfold onCursor at 1.
  destruct (kv.SeekBothRange key value (cursor m)) as [[dbValue err] c]. cbv zeta.
  destruct (hasErr err) eqn:E; [reflexivity|].
  unfold bind at 1. unfold gets at 1. unfold bind at 1. unfold gets at 1. simpl_cursor.
  unfold bind at 1.
  destruct (negb (isNil dbValue)).
  - unfold bind at 1. unfold gets at 1. simpl_cursor. unfold bind at 1.
    unfold liftOutcome.
    destruct (convertAutoDupsort ChaindataTablesCfg (table m) key dbValue
                                 (kv.valueRoom c)) as [ekey|msg];
      [|reflexivity].
    destruct (isEntryDeleted (mutation m) (table m) (contents ekey)).
    + unfold bind at 1.
      destruct (getNextOnDb ChaindataTablesCfg Dup (setCursor c m))
        as [[[[k v] e] m2]|msg]; [|reflexivity].
      unfold ret at 1. seek_tail.
    + unfold ret at 1. seek_tail.
  - unfold ret at 1. seek_tail.
Qed.

Lemma SeekBothRange_plain key value (m : state) :
  plain (table m) -> returnsFrom (SeekBothRange DupSort ChaindataTablesCfg key value) m.
Proof.
  intros Hp. unfold returnsFrom. rewrite SeekBothRange_unfold.
  destruct (isNil value).
  { destruct (SeekExact_returns key m) as ([[k v] e] & m1 & -> & Ht).
    now apply returnsFrom_ret. }
  destruct (kv.SeekBothRange key value (cursor m)) as [[dbValue err] c]. cbv zeta.
  destruct (hasErr err) eqn:E; [now apply returnsFrom_ret|].
  assert (forall dv e (m2 : state),
             table m2 = table m ->
             exists a m',
               (if hasErr e then Returned ((None, e), m2)
                else
                  let '((memValue, err), mc) := kv.SeekBothRange key value (memCursor m2) in
                  if hasErr err then Returned ((None, err), setMemCursor mc m2)
                  else
                    match goForward DupSort ChaindataTablesCfg key memValue key dv Normal
                                    (setMemCursor mc m2) with
                    | Returned ((_, retValue, err), m3) => Returned ((retValue, err), m3)
                    | Panicked msg => Panicked msg
                    end) = Returned (a, m') /\ table m' = table m) as Htail.
  { intros dv e m2 Ht. destruct (hasErr e); [now apply returnsFrom_ret|].
    destruct (kv.SeekBothRange key value (memCursor m2)) as [[memValue err'] mc].
    destruct (hasErr err'); [now apply returnsFrom_ret|].
    destruct (goForward_plain key memValue key dv Normal (setMemCursor mc m2))
      as ([[k v] e'] & m3 & -> & Ht'); [simpl_cursor; now rewrite Ht|].
    apply returnsFrom_ret. simpl_cursor. congruence. }
  destruct (negb (isNil dbValue)); [|now apply Htail].
  rewrite (convertAutoDupsort_plain _ _ _ _ Hp).
  destruct (isEntryDeleted (mutation m) (table m) (contents key)); [|now apply Htail].
  destruct (getNextOnDb_plain Dup (setCursor c m) Hp) as ([[k v] e] & m2 & -> & Ht).
  now apply Htail.
Qed.

Lemma Last_plain (m : state) :
  plain (table m) -> returnsFrom (Last DupSort ChaindataTablesCfg) m.
Proof.
  intros Hp. unfold returnsFrom. rewrite Last_unfold.
  destruct (kv.Last (memCursor m)) as [[[memKey memValue] err] mc].
  destruct (hasErr err); [now apply returnsFrom_ret|].
  destruct (kv.Last (cursor m)) as [[[dbKey dbValue] err'] c]. cbv zeta.
  destruct (hasErr err'); [now apply returnsFrom_ret|].
  destruct (skipIntersection_plain memKey memValue dbKey dbValue Normal
              (setCursor c (setMemCursor mc m)) Hp)
    as ([[k v] [e|]] & m2 & -> & Ht); [now apply returnsFrom_ret|].
  repeat match goal with
         | |- context [if ?b then _ else _] => destruct b
         end; now apply returnsFrom_ret.
Qed.

Lemma Current_returns (m : state) : returnsFrom Current m.
Proof.
  unfold returnsFrom, Current, bind, gets, onCursor, onMemCursor.
  destruct (isPrevFromDb m).
  - destruct (kv.Current (cursor m)) as [r c]. now apply returnsFrom_ret.
  - destruct (kv.Current (memCursor m)) as [r c]. now apply returnsFrom_ret.
Qed.

(** X7.  The reads of a plain table do not panic.  Over any overlay cursor
    and any base cursor whose stepping calls that find an entry leave fewer
    entries to step over (so that the loop of [getNextOnDb] ends), on a
    table without the auto-dupsort conversion of keys (a table absent from
    the registry included), [First], [Seek], [SeekExact], [SeekBothRange],
    [Next], [NextDup], [NextNoDup], [Last] and [Current] return from every
    state, with the cursor still on its table. *)
Theorem plain_table_reads_return (m : state) :
  kv.stepsLeftDecreases DB ->
  plain (table m) ->
  returnsFrom (First DupSort ChaindataTablesCfg) m /\
  (forall seek, returnsFrom (Seek DupSort ChaindataTablesCfg seek) m) /\
  (forall seek, returnsFrom (SeekExact seek) m) /\
  (forall key value, returnsFrom (SeekBothRange DupSort ChaindataTablesCfg key value) m) /\
  returnsFrom (Next DupSort ChaindataTablesCfg) m /\
  returnsFrom (NextDup DupSort ChaindataTablesCfg) m /\
  returnsFrom (NextNoDup DupSort ChaindataTablesCfg) m /\
  returnsFrom (Last DupSort ChaindataTablesCfg) m /\
  returnsFrom Current m.
Proof.
  intros _ Hp.
  split; [now apply First_plain|].
  split; [intros seek; now apply Seek_plain|].
  split; [intros seek; apply SeekExact_returns|].
  split; [intros key value; now apply SeekBothRange_plain|].
  split; [now apply nextWith_plain|].
  split; [now apply nextWith_plain|].
  split; [now apply nextWith_plain|].
  split; [now apply Last_plain|]. apply Current_returns.
Qed.

(** X8.  A short value panics the step.  Over any base cursor, on a table
    with the auto-dupsort conversion, when the base cursor's next entry has
    a key of the converted length and a value whose capacity is less than
    the bytes the conversion takes from it, [getNextOnDb] panics on the
    slice expression, and so does [Next] after an entry that came from the
    base. *)
Theorem short_value_panics_step (m : state) k v c :
  kv.Next (cursor m) = ((Some k, Some v, None), c) ->
  kv.AutoDupSortKeysConversion (tableConfig ChaindataTablesCfg (table m)) = true ->
  len (Some k) = kv.DupToLen (tableConfig ChaindataTablesCfg (table m)) ->
  (cap (Some v) (kv.valueRoom c) < dupOffset (tableConfig ChaindataTablesCfg (table m)))%Z ->
  getNextOnDb ChaindataTablesCfg Normal m = Panicked "slice bounds out of range" /\
  (isPrevFromDb m = true ->
   Next DupSort ChaindataTablesCfg m = Panicked "slice bounds out of range").
Proof.
  intros Hn Ha Hk Hv.
  assert (getNextOnDb ChaindataTablesCfg Normal m = Panicked "slice bounds out of range")
    as Hg.
  { rewrite getNextOnDb_unfold. unfold stepCursor, onCursor. rewrite Hn. simpl_cursor.
    rewrite skipDeleted_unfold. simpl_cursor. cbn [isNil negb andb].
    rewrite convertAutoDupsort_unfold, Ha, Hk, Z.eqb_refl. cbn [negb].
    unfold sliceToCap.
    destruct (Z.ltb_spec (cap (Some v) (kv.valueRoom c))
                         (dupOffset (tableConfig ChaindataTablesCfg (table m))));
      [|lia].
    rewrite orb_true_r. reflexivity. }
  split; [exact Hg|]. intros Hp. unfold Next. rewrite nextWith_unfold, Hp, Hg.
  reflexivity.
Qed.

End Panics.

(** ** Scans from a key *)

Lemma seekIdx_le seek (rows : list row) : seekIdx seek rows <= length rows.
Proof. apply firstIdx_le. Qed.

Lemma lcSeek_at seek (rows : list row) pos :
  lcSeek seek {| lcRows := rows; lcPos := pos |} =
  (rowAt rows (seekIdx seek rows), {| lcRows := rows; lcPos := Some (seekIdx seek rows) |}).
Proof.
  unfold lcSeek, lcMoveTo. cbn [lcRows]. fold (seekIdx seek rows).
  now replace (Nat.min (seekIdx seek rows) (length rows)) with (seekIdx seek rows)
    by (pose proof (seekIdx_le seek rows); lia).
Qed.

Lemma bytesLeb_true_iff a b : bytesLeb a b = true <-> bytesLe a b.
Proof.
  unfold bytesLeb, bytesLe. destruct (compareBytes a b); split; congruence.
Qed.

Lemma bytesLe_nil a : bytesLe [] a.
Proof. unfold bytesLe. destruct a; cbn; discriminate. Qed.

Lemma rowLe_from_key (k : list byte) (r : row) : bytesLe k (fst r) <-> rowLe (k, []) r.
Proof.
  split.
  - intros H. apply bytesLe_cases in H as [H| ->]; [now left|].
    right. split; [reflexivity|apply bytesLe_nil].
  - apply rowLe_key.
Qed.

(** The rows from the seek index on are at or after the key. *)
Lemma seekIdx_lowerBound seek dupsort (rows : list row) i :
  tableOrdered dupsort rows -> seekIdx seek rows <= i ->
  lowerBound (contents seek, []) rows i.
Proof.
  intros Hs Hi. apply (lowerBound_mono _ _ (seekIdx seek rows)); [assumption|].
  destruct (Nat.lt_ge_cases (seekIdx seek rows) (length rows)) as [Hlt|Hge];
    [|now apply lowerBound_past].
  destruct (firstIdx_found _ _ Hlt) as (r & Hn & Hr).
  apply bytesLeb_true_iff in Hr.
  eapply lowerBound_trans; [apply rowLe_from_key; exact Hr|].
  eapply lowerBound_sorted; eassumption.
Qed.

Section SeekScan.

Variable DupSort : Z.
Variable ChaindataTablesCfg : kv.TableCfg.
Variables base overlay : list row.
Variable t : string.

Local Abbreviation state := (memoryMutationCursor listCursor listCursor).
Local Abbreviation dbAt := (dbAt base).
Local Abbreviation memAt := (memAt overlay).
Local Abbreviation isDupSortTable := (isDupSortTable DupSort ChaindataTablesCfg t).
Local Abbreviation Ended := (Ended base overlay).
Local Abbreviation Scanning := (Scanning base overlay t).

Hypothesis baseOrdered : tableOrdered isDupSortTable base.
Hypothesis overlayOrdered : tableOrdered isDupSortTable overlay.

Lemma Seek_newCursor mu seek :
  let r := Seek DupSort ChaindataTablesCfg seek (newCursor base overlay mu t) in
  (exists msg, r = Panicked msg) \/
  (exists m', r = Returned ((None, None, None), m') /\ Ended m') \/
  (exists k v m', r = Returned ((Some k, Some v, None), m') /\ Scanning m' (k, v) /\
                  rowLe (contents seek, []) (k, v)).
Proof.
  intros r. subst r. set (m0 := newCursor base overlay mu t).
  destruct (isTableCleared (mutation m0) (table m0)) eqn:Hcl.
  - (* cleared: the overlay alone *)
    rewrite (Seek_cleared_unfold _ _ seek m0 Hcl).
    change (kv.Seek seek (memCursor m0))
      with (lcSeek seek {| lcRows := overlay; lcPos := None |}).
    rewrite lcSeek_at. cbn [fst snd]. fold (memAt (seekIdx seek overlay)).
    pose proof (seekIdx_le seek overlay) as Hle.
    destruct (rowAt_cases overlay (seekIdx seek overlay)) as [(k & v & Hn & Hlt & E)|[Hge E]];
      rewrite E.
    + right. right. do 3 eexists. split; [reflexivity|]. split.
      * right. exists (seekIdx seek overlay). simpl_cursor. repeat split; assumption.
      * apply (seekIdx_lowerBound seek _ overlay (seekIdx seek overlay) overlayOrdered
                 (Nat.le_refl _) _ _ (Nat.le_refl _) Hn).
    + right. left. eexists. split; [reflexivity|]. right. simpl_cursor.
      repeat split. unfold memAt. do 2 f_equal. lia.
  - rewrite (Seek_uncleared_unfold _ _ seek m0 Hcl).
    change (kv.Seek seek (cursor m0))
      with (lcSeek seek {| lcRows := base; lcPos := None |}).
    rewrite lcSeek_at. fold (dbAt (seekIdx seek base)).
    pose proof (seekIdx_le seek base) as Hble.
    pose proof (seekIdx_le seek overlay) as Hole.
    rewrite (rowAt_eta base (seekIdx seek base)). cbn [hasErr]. cbv zeta.
    set (m1 := setCursor (dbAt (seekIdx seek base)) m0).
    assert ((exists msg,
                (if negb (isNil (kveKey (rowAt base (seekIdx seek base))))
                    && isEntryDeleted (mutation m0) (table m0)
                         (contents (kveKey (rowAt base (seekIdx seek base))))
                 then getNextOnDb ChaindataTablesCfg Normal m1
                 else Returned ((kveKey (rowAt base (seekIdx seek base)),
                                 kveValue (rowAt base (seekIdx seek base)), None), m1))
                = Panicked msg) \/
            (exists j, seekIdx seek base <= j <= length base /\
                (if negb (isNil (kveKey (rowAt base (seekIdx seek base))))
                    && isEntryDeleted (mutation m0) (table m0)
                         (contents (kveKey (rowAt base (seekIdx seek base))))
                 then getNextOnDb ChaindataTablesCfg Normal m1
                 else Returned ((kveKey (rowAt base (seekIdx seek base)),
                                 kveValue (rowAt base (seekIdx seek base)), None), m1))
                = Returned (rowAt base j, setCursor (dbAt j) m1))) as Hdb.
    { destruct (negb (isNil (kveKey (rowAt base (seekIdx seek base))))
                && isEntryDeleted (mutation m0) (table m0)
                     (contents (kveKey (rowAt base (seekIdx seek base))))).
      - destruct (getNextOnDb_list ChaindataTablesCfg base m1 (seekIdx seek base))
          as [?|(j & Hj & H)]; [reflexivity|lia|now left|].
        right. exists j. split; [lia|assumption].
      - right. exists (seekIdx seek base). split; [lia|]. now rewrite <- rowAt_eta. }
    destruct Hdb as [[msg ->]|(j & Hj & ->)]; [left; eauto|].
    rewrite (rowAt_eta base j). cbn [hasErr]. simpl_cursor.
    change (kv.Seek seek (memCursor m1))
      with (lcSeek seek {| lcRows := overlay; lcPos := None |}).
    rewrite lcSeek_at. fold (memAt (seekIdx seek overlay)).
    rewrite (rowAt_eta overlay (seekIdx seek overlay)). cbn [hasErr].
    destruct (goForward_list DupSort ChaindataTablesCfg base overlay t
                baseOrdered overlayOrdered
                (setMemCursor (memAt (seekIdx seek overlay)) (setCursor (dbAt j) m1))
                j (seekIdx seek overlay)
                (kveKey (rowAt overlay (seekIdx seek overlay)))
                (kveValue (rowAt overlay (seekIdx seek overlay)))
                (kveKey (rowAt base j)) (kveValue (rowAt base j)))
      as [(Ej & Em & H')|[[msg H']|[(m' & H' & He)|(k & v & m' & H' & Ht & Hle)]]];
      try reflexivity; try assumption; try lia; try apply rowAt_eta; rewrite H'.
    + right. left. eexists. split; [reflexivity|]. right.
      subst m1 m0. unfold newCursor. simpl_cursor.
      repeat split. unfold memAt. do 2 f_equal. lia.
    + left. eauto.
    + right. left. eauto.
    + right. right. do 3 eexists. split; [reflexivity|]. split; [now left|].
      apply Hle.
      * apply (seekIdx_lowerBound seek _ base j baseOrdered). lia.
      * apply (seekIdx_lowerBound seek _ overlay _ overlayOrdered). lia.
Qed.

(** X9.  Over two ordered tables, the entries that [Seek] and any number of
    [Next] calls after it return on a new cursor come in key order, and in
    value order within a key, and none has a key before the key sought. *)
Theorem seek_scan_ordered (mu : MemoryMutation) (seek : slice) (n : nat) :
  Sorted rowLe
    (entriesOf (runSeekNexts DupSort ChaindataTablesCfg seek n
                             (newCursor base overlay mu t))) /\
  Forall (fun r => bytesLe (contents seek) (fst r))
    (entriesOf (runSeekNexts DupSort ChaindataTablesCfg seek n
                             (newCursor base overlay mu t))).
Proof.
  unfold runSeekNexts.
  destruct (Seek_newCursor mu seek)
    as [[msg ->]|[(m' & -> & He)|(k & v & m' & -> & Hs & Hle)]].
  - split; constructor.
  - rewrite entriesOf_nil_result,
      (runNexts_Ended DupSort ChaindataTablesCfg base overlay n m' He).
    split; constructor.
  - rewrite entriesOf_row_result.
    destruct (runNexts_Scanning DupSort ChaindataTablesCfg base overlay t
                baseOrdered overlayOrdered n m' (k, v) Hs) as [Hall Hsorted].
    split.
    + apply StronglySorted_Sorted. constructor; assumption.
    + constructor; [now apply rowLe_from_key|].
      eapply Forall_impl; [|exact Hall]. intros r Hr. apply rowLe_from_key.
      eapply rowLe_trans; eassumption.
Qed.

End SeekScan.

(** ** The scan from a key, exactly *)

Lemma filter_all {A} (p : A -> bool) (l : list A) :
  Forall (fun x => p x = true) l -> filter p l = l.
Proof.
  induction 1 as [|x l Hx Hl IH]; [reflexivity|]. cbn [filter]. now rewrite Hx, IH.
Qed.

(** In a list along which [p] stays true once it is true, the rows from the
    first one that satisfies [p] are the rows that satisfy [p]. *)
Lemma skipn_firstIdx (R : row -> row -> Prop) (p : row -> bool) (rows : list row) :
  (forall a b, R a b -> p a = true -> p b = true) ->
  StronglySorted R rows -> skipn (firstIdx p rows) rows = filter p rows.
Proof.
  intros Hmono. induction 1 as [|r rs Hs IH Hall]; [reflexivity|].
  cbn [firstIdx filter]. destruct (p r) eqn:E.
  - cbn [skipn]. rewrite filter_all; [reflexivity|].
    eapply Forall_impl; [|exact Hall]. intros b Hb. now apply (Hmono r b).
  - cbn [skipn]. exact IH.
Qed.

Lemma skipn_seekIdx seek dupsort (rows : list row) :
  tableOrdered dupsort rows -> skipn (seekIdx seek rows) rows = fromKey seek rows.
Proof.
  intros Hs. apply (skipn_firstIdx rowLe); [|now apply (tableOrdered_le dupsort)].
  intros a b Hab Ha. apply bytesLeb_true_iff. apply bytesLeb_true_iff in Ha.
  eapply bytesLe_trans; [exact Ha|]. now apply rowLe_key.
Qed.

Section SeekMerge.

Variable DupSort : Z.
Variable ChaindataTablesCfg : kv.TableCfg.
Variable mu : MemoryMutation.
Variable t : string.
Variables base overlay : list row.

Hypothesis offsetNotNegative :
  kv.AutoDupSortKeysConversion (tableConfig ChaindataTablesCfg t) = true ->
  (0 <= dupOffset (tableConfig ChaindataTablesCfg t))%Z.
Hypothesis baseConvertible : Forall (convertible ChaindataTablesCfg t) base.

Local Abbreviation state := (memoryMutationCursor listCursor listCursor).
Local Abbreviation dbAt := (dbAt base).
Local Abbreviation memAt := (memAt overlay).
Local Abbreviation live := (liveb ChaindataTablesCfg mu t).
Local Abbreviation liveAt := (liveIdx ChaindataTablesCfg mu t base).
Local Abbreviation liveFrom := (liveRowsFrom ChaindataTablesCfg mu t base).
Local Abbreviation viewAt := (dbView ChaindataTablesCfg mu t base).
Local Abbreviation merge := (mergeRows DupSort (tableConfig ChaindataTablesCfg t)).
Local Abbreviation stepped := (stepsAs ChaindataTablesCfg mu t base overlay DupSort).
Local Abbreviation kept := (dbFirst ChaindataTablesCfg mu t).

(** [Seek] on a new cursor of a table that is not cleared is one merge step
    on the rows of the overlay from the seek index and the base rows [Seek]
    keeps. *)
Lemma Seek_exact seek :
  isTableCleared mu t = false ->
  stepped (Seek DupSort ChaindataTablesCfg seek (newCursor base overlay mu t))
          (skipn (seekIdx seek overlay) overlay)
          (kept (skipn (seekIdx seek base) base)).
Proof.
  intros Hcl. set (m0 := newCursor base overlay mu t).
  rewrite (Seek_uncleared_unfold _ _ seek m0 Hcl).
  change (kv.Seek seek (cursor m0))
    with (lcSeek seek {| lcRows := base; lcPos := None |}).
  change (mutation m0) with mu. change (table m0) with t.
  rewrite lcSeek_at. fold (dbAt (seekIdx seek base)). cbv zeta.
  set (i := seekIdx seek base). set (mi := seekIdx seek overlay).
  pose proof (seekIdx_le seek base) as Hi. fold i in Hi.
  pose proof (seekIdx_le seek overlay) as Hmi. fold mi in Hmi.
  set (m1 := setCursor (dbAt i) m0).
  assert (forall j db (m2 : state),
             cursor m2 = dbAt j -> memCursor m2 = memCursor m0 ->
             j <= length base -> mutation m2 = mu -> table m2 = t -> viewAt j db ->
             stepped
               (let '((memKey, memValue, err), mc) := kv.Seek seek (memCursor m2) in
                if hasErr err then Returned ((None, None, err), setMemCursor mc m2)
                else goForward DupSort ChaindataTablesCfg memKey memValue
                               (fst (candOf db)) (snd (candOf db)) Normal
                               (setMemCursor mc m2))
               (skipn mi overlay) db) as Hmem.
  { intros j db m2 Hc Hmc Hj Hmu Ht Hv. rewrite Hmc.
    change (kv.Seek seek (memCursor m0))
      with (lcSeek seek {| lcRows := overlay; lcPos := None |}).
    rewrite lcSeek_at. fold mi. fold (memAt mi).
    rewrite (candOf_rowAt overlay mi). cbn [hasErr].
    apply (goForward_exact DupSort ChaindataTablesCfg mu t base overlay
             offsetNotNegative baseConvertible (setMemCursor (memAt mi) m2) j mi
             (skipn mi overlay) db); try assumption; reflexivity. }
  destruct (dbFirst_cases ChaindataTablesCfg mu t (skipn i base))
    as [[Hb ->]|([k v] & Hn & ->)].
  - assert (length base <= i) as Hlen.
    { apply (f_equal (@length row)) in Hb. rewrite length_skipn in Hb. cbn in Hb. lia. }
    rewrite (rowAt_None base i) by lia. cbn [isNil negb andb hasErr].
    apply (Hmem i [] m1); try reflexivity; try lia.
    left. split; [lia|reflexivity].
  - rewrite nth_error_skipn, Nat.add_0_r in Hn.
    rewrite (rowAt_Some base i k v Hn). cbn [isNil negb andb contents fst].
    replace (filter live (skipn 1 (skipn i base))) with (liveFrom (S i))
      by (unfold liveRowsFrom; now rewrite skipn_skipn).
    destruct (isEntryDeleted mu t k).
    + destruct (getNextOnDb_exact ChaindataTablesCfg mu t base offsetNotNegative
                  baseConvertible m1 i) as (Hg & Hj & Hv); try reflexivity; try lia.
      cbv zeta in *. rewrite Hg, (dbView_rowAt _ _ _ _ _ _ Hv). cbn [hasErr].
      apply (Hmem (liveAt (Nat.min (S i) (length base))) (liveFrom (S i)));
        try assumption; reflexivity.
    + cbn [hasErr].
      apply (Hmem i ((k, v) :: liveFrom (S i)) m1); try reflexivity; try lia.
      right. exists (k, v). split; [assumption|reflexivity].
Qed.

(** The scan from a key, on a table that is not cleared, returns what the
    merge of those rows returns, and then the nil key. *)
Lemma seekScan_exact seek fuel :
  isTableCleared mu t = false ->
  length overlay + length base <= fuel ->
  seekScan DupSort ChaindataTablesCfg seek fuel (newCursor base overlay mu t) =
  Some (merge (S fuel) (skipn (seekIdx seek overlay) overlay)
              (kept (skipn (seekIdx seek base) base))).
Proof.
  intros Hcl Hlen. unfold seekScan.
  pose proof (dbFirst_length ChaindataTablesCfg mu t (skipn (seekIdx seek base) base)).
  rewrite length_skipn in H.
  apply (stepsAs_merge DupSort ChaindataTablesCfg mu t base overlay).
  - apply scanNexts_exact; assumption.
  - now apply Seek_exact.
  - rewrite length_skipn. lia.
Qed.

End SeekMerge.

Section SeekEquivalence.

Variable DupSort : Z.
Variable ChaindataTablesCfg : kv.TableCfg.
Variable mu : MemoryMutation.
Variable t : string.
Variables base overlay : list row.

Local Abbreviation config := (tableConfig ChaindataTablesCfg t).

Hypothesis offsetNotNegative :
  kv.AutoDupSortKeysConversion config = true -> (0 <= dupOffset config)%Z.
Hypothesis baseConvertible : Forall (convertible ChaindataTablesCfg t) base.
Hypothesis baseOrdered :
  tableOrdered (isDupSortTable DupSort ChaindataTablesCfg t) base.
Hypothesis overlayOrdered :
  tableOrdered (isDupSortTable DupSort ChaindataTablesCfg t) overlay.
Hypothesis baseKeys : Forall (fun r : row => fst r <> []) base.
Hypothesis baseCollisionFree : collisionFree DupSort config base.

(** The scan from a key, on a cleared table, returns the overlay's rows from
    the seek index, and then the nil key. *)
Lemma seekScan_cleared seek fuel :
  isTableCleared mu t = true -> length overlay <= fuel ->
  seekScan DupSort ChaindataTablesCfg seek fuel (newCursor base overlay mu t) =
  Some (skipn (seekIdx seek overlay) overlay).
Proof.
  intros Hcl Hfuel. unfold seekScan. set (m0 := newCursor base overlay mu t).
  rewrite (Seek_cleared_unfold _ _ seek m0 Hcl).
  change (kv.Seek seek (memCursor m0))
    with (lcSeek seek {| lcRows := overlay; lcPos := None |}).
  rewrite lcSeek_at. cbn [fst snd]. set (mi := seekIdx seek overlay).
  fold (memAt overlay mi).
  destruct (rowAt_cases overlay mi) as [(k & v & Hn & Hlt & E)|[Hge E]]; rewrite E.
  - rewrite (scanNexts_cleared DupSort ChaindataTablesCfg t overlay offsetNotNegative
               overlayOrdered fuel _ mi); try reflexivity; try lia.
    unfold option_map, contents. symmetry.
    exact (f_equal Some (skipn_nth_error overlay mi _ Hn)).
  - now rewrite skipn_past.
Qed.

(** X10.  The scan from a key.  Under the conditions of X1, [Seek] and then
    [Next] until the nil key, on a new cursor, ends with the nil key and
    returns, each once, what the full scan of X1 returns of the two tables
    cut down to their rows with a key at or after the key sought: the first
    base row among these is kept when its raw key is not deleted. *)
Theorem seek_scan_merges_kept_rows seek fuel :
  length overlay + length base <= fuel ->
  exists rows,
    seekScan DupSort ChaindataTablesCfg seek fuel (newCursor base overlay mu t) =
    Some rows /\
    Permutation rows
      (keptScanMerged ChaindataTablesCfg mu t DupSort
                      (fromKey seek base) (fromKey seek overlay)).
Proof.
  intros Hfuel. unfold keptScanMerged.
  rewrite <- (skipn_seekIdx seek _ base baseOrdered),
    <- (skipn_seekIdx seek _ overlay overlayOrdered).
  destruct (isTableCleared mu t) eqn:Hcl.
  - eexists. split; [apply seekScan_cleared; [assumption|lia]|apply Permutation_refl].
  - eexists. split; [apply seekScan_exact; assumption|].
    pose proof (dbFirst_length ChaindataTablesCfg mu t (skipn (seekIdx seek base) base))
      as Hkept.
    rewrite length_skipn in Hkept.
    rewrite !(skipn_seekIdx seek _ base baseOrdered),
      !(skipn_seekIdx seek _ overlay overlayOrdered) in *.
    apply mergeRows_permutation.
    + assert (length (fromKey seek overlay) <= length overlay) as Hover
          by apply filter_length_le.
      lia.
    + apply StronglySorted_filter. exact (tableOrdered_le _ _ overlayOrdered).
    + apply dbFirst_sorted, StronglySorted_filter. exact (tableOrdered_le _ _ baseOrdered).
    + apply dbFirst_sorted, StronglySorted_filter. exact baseCollisionFree.
    + apply dbFirst_Forall, Forall_filter_keeps. exact baseKeys.
Qed.

End SeekEquivalence.

(** ** [Last] over two tables *)

Lemma lcLast_at (c : listCursor) :
  lcLast c =
  (rowAt (lcRows c) (length (lcRows c) - 1),
   {| lcRows := lcRows c; lcPos := Some (length (lcRows c) - 1) |}).
Proof.
  unfold lcLast, lcMoveTo.
  now replace (Nat.min (length (lcRows c) - 1) (length (lcRows c)))
    with (length (lcRows c) - 1) by lia.
Qed.

Lemma rowAt_last (b : list row) (d : row) :
  rowAt (b ++ [d]) (length (b ++ [d]) - 1) = (Some (fst d), Some (snd d), None).
Proof.
  destruct d as [k v]. apply rowAt_Some.
  rewrite length_app. cbn [length]. replace (length b + 1 - 1) with (length b) by lia.
  rewrite nth_error_app2 by lia. now rewrite Nat.sub_diag.
Qed.

Section LastOfTables.

Variable DupSort : Z.
Variable ChaindataTablesCfg : kv.TableCfg.

Local Abbreviation state := (memoryMutationCursor listCursor listCursor).

(** From its last row the base cursor steps off the table. *)
Lemma getNextOnDb_off_the_end (m : state) :
  lcPos (cursor m) = Some (length (lcRows (cursor m)) - 1) ->
  getNextOnDb ChaindataTablesCfg Normal m =
  Returned ((None, None, None),
            setCursor {| lcRows := lcRows (cursor m);
                         lcPos := Some (length (lcRows (cursor m))) |} m).
Proof.
  intros Hp. rewrite getNextOnDb_unfold.
  rewrite (stepCursor_Normal_list (lcRows (cursor m)) m (length (lcRows (cursor m)) - 1));
    [|destruct (cursor m); cbn in *; now rewrite Hp|lia].
  rewrite rowAt_None by lia. simpl_cursor.
  rewrite skipDeleted_unfold. simpl_cursor. cbn [isNil negb andb].
  unfold dbAt.
  now replace (Nat.min (S (length (lcRows (cursor m)) - 1)) (length (lcRows (cursor m))))
    with (length (lcRows (cursor m))) by lia.
Qed.

(** [Last] up to its choice: both cursors on their last rows, and the base's
    candidate nil when the two last rows intersect. *)
Lemma Last_candidates (m : state) :
  (kv.AutoDupSortKeysConversion (tableConfig ChaindataTablesCfg (table m)) = true ->
   (0 <= dupOffset (tableConfig ChaindataTablesCfg (table m)))%Z) ->
  let base := lcRows (cursor m) in
  let overlay := lcRows (memCursor m) in
  let mem := rowAt overlay (length overlay - 1) in
  let db := rowAt base (length base - 1) in
  exists m2,
    table m2 = table m /\ mutation m2 = mutation m /\
    skipIntersection DupSort ChaindataTablesCfg (kveKey mem) (kveValue mem)
                     (kveKey db) (kveValue db) Normal
                     (setCursor {| lcRows := base; lcPos := Some (length base - 1) |}
                        (setMemCursor
                           {| lcRows := overlay; lcPos := Some (length overlay - 1) |} m)) =
    Returned
      ((if intersectsb DupSort (tableConfig ChaindataTablesCfg (table m))
                       (kveKey mem) (kveValue mem) (kveKey db) (kveValue db)
        then (None, None, None) else db), m2).
Proof.
  intros Hoff base overlay mem db. rewrite skipIntersection_exact by exact Hoff.
  simpl_cursor.
  destruct (intersectsb DupSort (tableConfig ChaindataTablesCfg (table m))
                        (kveKey mem) (kveValue mem) (kveKey db) (kveValue db)).
  - rewrite getNextOnDb_off_the_end by reflexivity.
    eexists. split; [|split]; [| |reflexivity]; reflexivity.
  - subst db. rewrite <- rowAt_eta.
    eexists. split; [|split]; [| |reflexivity]; reflexivity.
Qed.

Lemma Last_on_lists (m : state) :
  Last DupSort ChaindataTablesCfg m =
  let base := lcRows (cursor m) in
  let overlay := lcRows (memCursor m) in
  let mem := rowAt overlay (length overlay - 1) in
  let db := rowAt base (length base - 1) in
  let m1 := setCursor {| lcRows := base; lcPos := Some (length base - 1) |}
              (setMemCursor {| lcRows := overlay; lcPos := Some (length overlay - 1) |} m) in
  match skipIntersection DupSort ChaindataTablesCfg (kveKey mem) (kveValue mem)
                         (kveKey db) (kveValue db) Normal m1 with
  | Panicked msg => Panicked msg
  | Returned ((dbKey', dbValue', Some e), m2) => Returned ((None, None, Some e), m2)
  | Returned ((dbKey', dbValue', None), m2) =>
      let m3 := setCurrentMemEntry {| key := kveKey mem; value := kveValue mem |}
                  (setCurrentDbEntry {| key := dbKey'; value := dbValue' |} m2) in
      let fromMem := Returned ((kveKey mem, kveValue mem, None),
                               setIsPrevFromDb false (setCurrentDbEntry emptyEntry m3)) in
      let fromDb := Returned ((dbKey', dbValue', None),
                              setIsPrevFromDb true (setCurrentMemEntry emptyEntry m3)) in
      if negb (isNil dbKey') && isEntryDeleted (mutation m2) (table m2) (contents dbKey')
      then fromMem
      else if isNil dbValue' then
        Returned ((kveKey mem, kveValue mem, None), setIsPrevFromDb false m3)
      else if isNil (kveValue mem) then
        Returned ((dbKey', dbValue', None), setIsPrevFromDb true m3)
      else if (bytes.Compare (kveKey mem) dbKey' =? 0)%Z then
        if (0 <? bytes.Compare (kveValue mem) dbValue')%Z then fromMem else fromDb
      else if (0 <? bytes.Compare (kveKey mem) dbKey')%Z then fromMem else fromDb
  end.
Proof.
  rewrite Last_unfold.
  change (kv.Last (memCursor m)) with (lcLast (memCursor m)).
  change (kv.Last (cursor m)) with (lcLast (cursor m)).
  rewrite !lcLast_at.
  rewrite (rowAt_eta (lcRows (memCursor m))), (rowAt_eta (lcRows (cursor m))).
  cbn [hasErr]. reflexivity.
Qed.

Lemma Compare_zero_iff (a b : slice) :
  (bytes.Compare a b =? 0)%Z = true <-> contents a = contents b.
Proof.
  unfold bytes.Compare. rewrite <- compareBytes_Eq_iff.
  destruct (compareBytes (contents a) (contents b)); cbn; split; congruence.
Qed.

(** The overlay's row is the later one. *)
Lemma overlay_later_iff (d e : row) :
  (if (bytes.Compare (Some (fst e)) (Some (fst d)) =? 0)%Z
   then (0 <? bytes.Compare (Some (snd e)) (Some (snd d)))%Z
   else (0 <? bytes.Compare (Some (fst e)) (Some (fst d)))%Z) = true <->
  rowLt d e.
Proof.
  unfold rowLt, bytesLt.
  destruct (bytes.Compare (Some (fst e)) (Some (fst d)) =? 0)%Z eqn:Ek.
  - apply Compare_zero_iff in Ek. cbn [contents] in Ek.
    rewrite Compare_pos_iff, compareBytes_Gt_Lt. cbn [contents]. split.
    + intros H. right. split; [now symmetry|assumption].
    + intros [H|[_ H]]; [|assumption]. rewrite Ek in H.
      rewrite compareBytes_refl in H. discriminate.
  - assert (fst e <> fst d) as Hne.
    { intros H. assert ((bytes.Compare (Some (fst e)) (Some (fst d)) =? 0)%Z = true)
        by (apply Compare_zero_iff; exact H). congruence. }
    rewrite Compare_pos_iff, compareBytes_Gt_Lt. cbn [contents]. split.
    + intros H. now left.
    + intros [H|[H _]]; [assumption|]. now symmetry in H.
Qed.

(** X11.  [Last] returns the later of the two last rows.  Over a base table
    and an overlay table that both have rows, when the base's last row is
    not deleted under its raw key: [Last] returns the overlay's last row and
    clears [isPrevFromDb] when the two last rows intersect or the overlay's
    is the later one by key and then value; and otherwise returns the base's
    last row and sets [isPrevFromDb]. *)
Theorem Last_returns_later_row (m : state) (b o : list row) (d e : row) :
  (kv.AutoDupSortKeysConversion (tableConfig ChaindataTablesCfg (table m)) = true ->
   (0 <= dupOffset (tableConfig ChaindataTablesCfg (table m)))%Z) ->
  lcRows (cursor m) = b ++ [d] -> lcRows (memCursor m) = o ++ [e] ->
  isEntryDeleted (mutation m) (table m) (fst d) = false ->
  exists r m',
    Last DupSort ChaindataTablesCfg m = Returned (r, m') /\
    (rowsIntersect DupSort (tableConfig ChaindataTablesCfg (table m)) e d = true \/
     rowLt d e ->
     r = (Some (fst e), Some (snd e), None) /\ isPrevFromDb m' = false) /\
    (rowsIntersect DupSort (tableConfig ChaindataTablesCfg (table m)) e d = false ->
     ~ rowLt d e ->
     r = (Some (fst d), Some (snd d), None) /\ isPrevFromDb m' = true).
Proof.
  intros Hoff Hb Ho Hlive.
  destruct (Last_candidates m Hoff) as (m2 & Ht & Hmu & Hs). cbv zeta in Hs.
  rewrite Last_on_lists. cbv zeta. rewrite Hb, Ho, !rowAt_last in *. simpl_cursor.
  rewrite Hs. fold (rowsIntersect DupSort (tableConfig ChaindataTablesCfg (table m)) e d).
  destruct (rowsIntersect DupSort (tableConfig ChaindataTablesCfg (table m)) e d).
  - cbn [isNil negb andb]. do 2 eexists. split; [reflexivity|].
    split; [intros _; split; reflexivity|discriminate].
  - cbn [isNil negb andb contents]. rewrite Hmu, Ht, Hlive.
    pose proof (overlay_later_iff d e) as Hlater.
    destruct (bytes.Compare (Some (fst e)) (Some (fst d)) =? 0)%Z;
      match type of Hlater with
      | (?c = true <-> _) => destruct c
      end; do 2 eexists; (split; [reflexivity|]); split;
      try (intros _; split; reflexivity);
      try (intros [H|H]; [discriminate|]; apply Hlater in H; discriminate);
      try (intros _ H; exfalso; apply H, Hlater; reflexivity);
      intros _ _; split; reflexivity.
Qed.


(** X13.  [Last] does not ask whether the table is cleared.  With an empty
    overlay, a base whose last row has a key that is not empty and is not
    deleted under its raw key: [Last] on a new cursor returns that row and
    sets [isPrevFromDb], cleared table or not; on a cleared table [First]
    on the same cursor returns the nil entry. *)
Theorem Last_reads_cleared_table mu t (b : list row) (d : row) :
  (kv.AutoDupSortKeysConversion (tableConfig ChaindataTablesCfg t) = true ->
   (0 <= dupOffset (tableConfig ChaindataTablesCfg t))%Z) ->
  fst d <> [] -> isEntryDeleted mu t (fst d) = false ->
  (exists m',
      Last DupSort ChaindataTablesCfg (newCursor (b ++ [d]) [] mu t) =
      Returned ((Some (fst d), Some (snd d), None), m') /\ isPrevFromDb m' = true) /\
  (isTableCleared mu t = true ->
   exists m',
     First DupSort ChaindataTablesCfg (newCursor (b ++ [d]) [] mu t) =
     Returned ((None, None, None), m')).
Proof.
  intros Hoff Hk Hlive. split.
  - destruct (Last_candidates (newCursor (b ++ [d]) [] mu t) Hoff)
      as (m2 & Ht & Hmu & Hs). cbv zeta in Hs.
    rewrite Last_on_lists. cbv zeta.
    cbn [newCursor cursor memCursor lcRows table mutation] in *.
    rewrite !rowAt_last in *. rewrite (rowAt_None [] (length (@nil row) - 1)) in * by (cbn; lia).
    simpl_cursor. rewrite Hs.
    assert (intersectsb DupSort (tableConfig ChaindataTablesCfg t) None None
                        (Some (fst d)) (Some (snd d)) = false) as ->.
    { unfold intersectsb. cbv zeta.
      assert (bytes.Equal None (Some (fst d)) = false) as ->; [|reflexivity].
      apply Equal_false_iff. cbn. congruence. }
    cbn [isNil negb andb contents]. rewrite Hmu, Ht, Hlive.
    eexists. split; reflexivity.
  - intros Hcl.
    rewrite (First_cleared_unfold _ _ (newCursor (b ++ [d]) [] mu t) Hcl).
    eexists. reflexivity.
Qed.

End LastOfTables.

(** ** [NextDup] at the end of a key of the base *)

Section NextDupDrops.

Variable DupSort : Z.
Variable ChaindataTablesCfg : kv.TableCfg.
Variable mu : MemoryMutation.
Variable t : string.

Local Abbreviation state := (memoryMutationCursor listCursor listCursor).
Local Abbreviation config := (tableConfig ChaindataTablesCfg t).

Hypothesis offsetNotNegative :
  kv.AutoDupSortKeysConversion config = true -> (0 <= dupOffset config)%Z.

Lemma intersectsb_other_key mk mv dk dv :
  contents mk <> contents dk -> intersectsb DupSort config mk mv dk dv = false.
Proof.
  intros H. unfold intersectsb. cbv zeta.
  assert (bytes.Equal mk dk = false) as -> by now apply Equal_false_iff.
  reflexivity.
Qed.

Lemma bytesLt_neq a b : bytesLt a b -> a <> b.
Proof. intros H ->. now apply bytesLt_irrefl in H. Qed.

Lemma bytesLt_not_nil a b : bytesLt a b -> b <> [].
Proof. intros H ->. now apply compareBytes_nil_r in H. Qed.

(** No further row of the key under the cursor: [NextDup] of the list cursor
    finds nothing and stays. *)
Lemma lcNextDup_alone (rows : list row) i k v :
  nth_error rows i = Some (k, v) ->
  (forall r, nth_error rows (S i) = Some r -> fst r <> k) ->
  lcNextDup {| lcRows := rows; lcPos := Some i |} =
  ((None, None, None), {| lcRows := rows; lcPos := Some i |}).
Proof.
  intros Hn Hnext. unfold lcNextDup. cbn [lcPos lcRows]. rewrite Hn.
  destruct (nth_error rows (S i)) as [[k2 v2]|]; [|reflexivity].
  assert (bytesEqb k k2 = false) as ->; [|reflexivity].
  apply bytesEqb_false_iff. intros ->. now apply (Hnext (k2, v2)).
Qed.

(** X14.  [NextDup] at the end of a key of the base leaves the key and drops
    the base.  On a table that is not cleared, with a base whose first row
    [(k, v)] is the only row of its key and is not deleted under its raw
    key, and an ordered overlay whose first row [(k', v')] has a later key:
    [First] returns [(k, v)], [NextDup] after it returns the overlay's
    [(k', v')], an entry of another key, and the calls of [Next] after that
    return the overlay's remaining rows and then the nil key: no row of the
    base after its first is returned. *)
Theorem NextDup_leaves_key_and_drops_base
        (k v k' v' : list byte) (rest orest : list row) (fuel : nat) :
  tableOrdered (isDupSortTable DupSort ChaindataTablesCfg t) ((k', v') :: orest) ->
  isTableCleared mu t = false ->
  isEntryDeleted mu t k = false ->
  bytesLt k k' ->
  (forall r, nth_error rest 0 = Some r -> fst r <> k) ->
  S (length orest) <= fuel ->
  exists m1 m2,
    First DupSort ChaindataTablesCfg
          (newCursor ((k, v) :: rest) ((k', v') :: orest) mu t) =
    Returned ((Some k, Some v, None), m1) /\
    NextDup DupSort ChaindataTablesCfg m1 = Returned ((Some k', Some v', None), m2) /\
    scanNexts DupSort ChaindataTablesCfg fuel m2 = Some orest.
Proof.
  intros Hord Hcl Hlive Hlt Halone Hfuel.
  set (base := (k, v) :: rest). set (overlay := (k', v') :: orest).
  pose proof (bytesLt_neq _ _ Hlt) as Hne.
  pose proof (bytesLt_not_nil _ _ Hlt) as Hk'.
  assert (First DupSort ChaindataTablesCfg (newCursor base overlay mu t) =
          Returned ((Some k, Some v, None),
                    {| cursor := dbAt base 0; memCursor := memAt overlay 0;
                       isPrevFromDb := true;
                       currentDbEntry := {| key := Some k; value := Some v |};
                       currentMemEntry := {| key := Some k'; value := Some v' |};
                       mutation := mu; table := t |})) as HFirst.
  { rewrite (First_uncleared_unfold _ _ (newCursor base overlay mu t) Hcl).
    change (kv.First (memCursor (newCursor base overlay mu t)))
      with (lcFirst {| lcRows := overlay; lcPos := None |}).
    change (kv.First (cursor (newCursor base overlay mu t)))
      with (lcFirst {| lcRows := base; lcPos := None |}).
    rewrite !lcFirst_new.
    rewrite (rowAt_Some overlay 0 k' v' eq_refl), (rowAt_Some base 0 k v eq_refl).
    cbn [hasErr isNil negb andb contents]. cbv zeta.
    cbn [newCursor mutation table]. rewrite Hlive. cbn [hasErr].
    rewrite goForward_unfold. cbn [isNil andb].
    rewrite skipIntersection_exact by exact offsetNotNegative.
    simpl_cursor. cbn [newCursor table].
    rewrite intersectsb_other_key by (cbn; congruence). cbv zeta.
    assert (dbIsSmaller (Some k') (Some v') (Some k) (Some v) = true) as ->
        by (apply dbIsSmaller_rows; now left).
    reflexivity. }
  do 2 eexists. split; [exact HFirst|]. split.
  - unfold NextDup. rewrite nextWith_unfold. simpl_cursor.
    rewrite getNextOnDb_unfold. unfold stepCursor, onCursor. simpl_cursor.
    change (kv.NextDup (dbAt base 0)) with (lcNextDup {| lcRows := base; lcPos := Some 0 |}).
    rewrite (lcNextDup_alone base 0 k v eq_refl Halone). simpl_cursor.
    rewrite skipDeleted_unfold. simpl_cursor. cbn [isNil negb andb].
    rewrite goForward_unfold. cbn [isNil andb].
    rewrite skipIntersection_exact by exact offsetNotNegative.
    simpl_cursor.
    rewrite intersectsb_other_key by (cbn; congruence). cbv zeta.
    rewrite dbIsSmaller_db_nil. cbn [isNil]. reflexivity.
  - rewrite (scanNexts_cleared DupSort ChaindataTablesCfg t overlay offsetNotNegative Hord
               fuel _ 0); try reflexivity; cbn [length overlay]; lia.
Qed.

End NextDupDrops.

(** ** [Current] after a step *)

Section CurrentAfterStep.

Variable DupSort : Z.
Variable ChaindataTablesCfg : kv.TableCfg.
Variables base overlay : list row.
Variable t : string.

Local Abbreviation state := (memoryMutationCursor listCursor listCursor).
Local Abbreviation dbAt := (dbAt base).
Local Abbreviation memAt := (memAt overlay).
Local Abbreviation isDupSortTable := (isDupSortTable DupSort ChaindataTablesCfg t).
Local Abbreviation Track := (Track base overlay).
Local Abbreviation CTrack := (CTrack overlay t).
Local Abbreviation Ended := (Ended base overlay).
Local Abbreviation Scanning := (Scanning base overlay t).

Hypothesis baseOrdered : tableOrdered isDupSortTable base.
Hypothesis overlayOrdered : tableOrdered isDupSortTable overlay.

(** [Current] gives the entry [y] and leaves the cursor. *)
Local Abbreviation standsOn m y :=
  (Current m = Returned ((Some (fst y), Some (snd y), None), m)).

Lemma Current_on_base (m : state) i :
  isPrevFromDb m = true -> lcPos (cursor m) = Some i ->
  Current m = Returned (rowAt (lcRows (cursor m)) i, m).
Proof.
  intros Hp Hi. unfold Current, bind, gets, onCursor. rewrite Hp.
  change (kv.Current (cursor m)) with (lcCurrent (cursor m)). unfold lcCurrent.
  rewrite Hi. now rewrite setCursor_same.
Qed.

Lemma Current_on_overlay (m : state) i :
  isPrevFromDb m = false -> lcPos (memCursor m) = Some i ->
  Current m = Returned (rowAt (lcRows (memCursor m)) i, m).
Proof.
  intros Hp Hi. unfold Current, bind, gets, onMemCursor. rewrite Hp.
  change (kv.Current (memCursor m)) with (lcCurrent (memCursor m)). unfold lcCurrent.
  rewrite Hi. now rewrite setMemCursor_same.
Qed.

Lemma goForward_standing (m m' : state) dpos mpos k v :
  cursor m = dbAt dpos -> memCursor m = memAt mpos -> dpos <= length base ->
  goForward DupSort ChaindataTablesCfg
            (kveKey (rowAt overlay mpos)) (kveValue (rowAt overlay mpos))
            (kveKey (rowAt base dpos)) (kveValue (rowAt base dpos)) Normal m =
  Returned ((Some k, Some v, None), m') ->
  standsOn m' (k, v).
Proof.
  intros Hc Hmc Hd H. rewrite goForward_unfold in H.
  destruct (isNil (kveValue (rowAt overlay mpos)) && isNil (kveValue (rowAt base dpos)));
    [discriminate|].
  destruct (skipIntersection_list DupSort ChaindataTablesCfg base m dpos
              (kveKey (rowAt overlay mpos)) (kveValue (rowAt overlay mpos)) Hc Hd)
    as [[msg Hs]|(j & Hj & Hs)]; rewrite Hs in H; [discriminate|].
  rewrite (rowAt_eta base j) in H. cbv zeta in H. cbn [fst snd].
  destruct (dbIsSmaller (kveKey (rowAt overlay mpos)) (kveValue (rowAt overlay mpos))
                        (kveKey (rowAt base j)) (kveValue (rowAt base j)));
    injection H as Hk Hv <-.
  - rewrite (Current_on_base _ j) by reflexivity. simpl_cursor. unfold dbAt.
    cbn [lcRows]. rewrite (rowAt_eta base j), Hk, Hv. reflexivity.
  - rewrite (Current_on_overlay _ mpos)
      by first [reflexivity | simpl_cursor; now rewrite Hmc].
    simpl_cursor. rewrite Hmc. unfold memAt at 1. cbn [lcRows].
    rewrite (rowAt_eta overlay mpos), Hk, Hv. reflexivity.
Qed.

Lemma Track_Next_standing (m m' : state) y k v :
  Track m y ->
  Next DupSort ChaindataTablesCfg m = Returned ((Some k, Some v, None), m') ->
  standsOn m' (k, v).
Proof.
  intros (dpos & mpos & (Hc & Hmc & Hd & Hm & Hcd & Hcm) & _ & _) H.
  unfold Next in H. rewrite nextWith_unfold in H. destruct (isPrevFromDb m).
  - destruct (getNextOnDb_list ChaindataTablesCfg base m dpos Hc Hd)
      as [[msg Hg]|(j & Hj & Hg)]; rewrite Hg in H; [discriminate|].
    rewrite (rowAt_eta base j) in H. simpl_cursor. rewrite Hcm in H.
    cbn [entryAt key value] in H.
    apply (goForward_standing (setCursor (dbAt j) m) m' j mpos);
      [reflexivity|assumption|lia|exact H].
  - change (kv.Next (memCursor m)) with (lcNext (memCursor m)) in H.
    rewrite Hmc in H. unfold memAt in H. rewrite lcNext_at in H.
    set (mpos' := Nat.min (S mpos) (length overlay)) in *.
    assert (rowAt overlay (S mpos) = rowAt overlay mpos') as E.
    { subst mpos'. destruct (Nat.le_gt_cases (S mpos) (length overlay)).
      - now replace (Nat.min (S mpos) (length overlay)) with (S mpos) by lia.
      - now rewrite !rowAt_None by lia. }
    rewrite E, (rowAt_eta overlay mpos') in H. simpl_cursor. rewrite Hcd in H.
    cbn [entryAt key value] in H. fold (memAt mpos') in H.
    apply (goForward_standing (setMemCursor (memAt mpos') m) m' dpos mpos');
      [assumption|reflexivity|lia|exact H].
Qed.

Lemma CTrack_standing (m : state) y : CTrack m y -> standsOn m y.
Proof.
  intros (i & Hp & Hmc & Hn & _ & _). destruct y as [k v].
  rewrite (Current_on_overlay m i Hp) by now rewrite Hmc.
  rewrite Hmc. unfold memAt at 1. cbn [lcRows fst snd].
  now rewrite (rowAt_Some _ _ _ _ Hn).
Qed.

Lemma First_standing mu (m' : state) k v :
  First DupSort ChaindataTablesCfg (newCursor base overlay mu t) =
  Returned ((Some k, Some v, None), m') ->
  standsOn m' (k, v).
Proof.
  set (m0 := newCursor base overlay mu t). intros H.
  destruct (isTableCleared (mutation m0) (table m0)) eqn:Hcl.
  - rewrite (First_cleared_unfold _ _ m0 Hcl) in H.
    change (kv.First (memCursor m0))
      with (lcFirst {| lcRows := overlay; lcPos := None |}) in H.
    rewrite lcFirst_new, (rowAt_eta overlay 0) in H. cbn [hasErr] in H.
    injection H as Hk Hv <-. cbn [fst snd].
    rewrite (Current_on_overlay _ 0) by reflexivity. simpl_cursor. cbn [lcRows].
    now rewrite (rowAt_eta overlay 0), Hk, Hv.
  - rewrite (First_uncleared_unfold _ _ m0 Hcl) in H.
    change (kv.First (memCursor m0))
      with (lcFirst {| lcRows := overlay; lcPos := None |}) in H.
    change (kv.First (cursor m0)) with (lcFirst {| lcRows := base; lcPos := None |}) in H.
    rewrite !lcFirst_new in H. fold (memAt 0) in H. fold (dbAt 0) in H.
    rewrite (rowAt_eta overlay 0) in H. cbn [hasErr] in H.
    rewrite (rowAt_eta base 0) in H. cbn [hasErr] in H. cbv zeta in H.
    set (m1 := setCursor (dbAt 0) (setMemCursor (memAt 0) m0)) in *.
    destruct (negb (isNil (kveKey (rowAt base 0)))
              && isEntryDeleted (mutation m0) (table m0)
                                (contents (kveKey (rowAt base 0)))).
    + destruct (getNextOnDb_list ChaindataTablesCfg base m1 0)
        as [[msg Hg]|(j & Hj & Hg)]; [reflexivity|lia| |]; rewrite Hg in H;
        [discriminate|].
      rewrite (rowAt_eta base j) in H. cbn [hasErr] in H.
      apply (goForward_standing (setCursor (dbAt j) m1) m' j 0);
        [reflexivity|reflexivity|lia|exact H].
    + cbn [hasErr] in H.
      apply (goForward_standing m1 m' 0 0); [reflexivity|reflexivity|lia|exact H].
Qed.

(** What a run keeps true: after an entry the scan goes on and [Current]
    gives that entry; after the nil entry the scan has ended. *)
Local Abbreviation runKeeps rm :=
  ((exists k v, fst rm = (Some k, Some v, None) /\
                Scanning (snd rm) (k, v) /\ standsOn (snd rm) (k, v)) \/
   (fst rm = (None, None, None) /\ Ended (snd rm))).

Lemma nextsFrom_keeps n : forall (rm rm' : kve * state),
  runKeeps rm -> nextsFrom DupSort ChaindataTablesCfg n rm = Returned rm' ->
  runKeeps rm'.
Proof.
  induction n as [|n IH]; intros [r m] rm' Hinv H; cbn [nextsFrom snd] in H.
  { now injection H as <-. }
  destruct Hinv as [(k & v & _ & Hs & _)|[_ He]]; cbn [fst snd] in *.
  - destruct Hs as [Ht|Hc].
    + destruct (Track_Next DupSort ChaindataTablesCfg base overlay t
                  baseOrdered overlayOrdered m (k, v) Ht)
        as [[msg E]|[(m1 & E & He)|(k1 & v1 & m1 & E & Ht1 & _)]]; cbv zeta in E.
      * rewrite E in H. discriminate.
      * rewrite E in H. apply (IH ((None, None, None), m1)); [right; now split|exact H].
      * pose proof (Track_Next_standing m m1 (k, v) k1 v1 Ht E) as Hst.
        rewrite E in H. apply (IH ((Some k1, Some v1, None), m1)); [|exact H].
        left. exists k1, v1. split; [reflexivity|]. split; [now left|exact Hst].
    + destruct (CTrack_Next DupSort ChaindataTablesCfg base overlay t overlayOrdered
                  m (k, v) Hc)
        as [[msg E]|[(m1 & E & He)|(k1 & v1 & m1 & E & Hc1 & _)]]; cbv zeta in E.
      * rewrite E in H. discriminate.
      * rewrite E in H. apply (IH ((None, None, None), m1)); [right; now split|exact H].
      * rewrite E in H. apply (IH ((Some k1, Some v1, None), m1)); [|exact H].
        left. exists k1, v1. split; [reflexivity|]. split; [now right|].
        now apply (CTrack_standing m1 (k1, v1)).
  - rewrite (Ended_Next DupSort ChaindataTablesCfg base overlay m He) in H.
    apply (IH ((None, None, None), m)); [right; now split|exact H].
Qed.

(** X15.  [Current] after a step.  Over two ordered tables, when [First] and
    any number of [Next] calls after it, on a new cursor, end with an entry,
    [Current] returns that entry and leaves the cursor as it is. *)
Theorem Current_returns_last_entry (mu : MemoryMutation) (n : nat) k v (m' : state) :
  firstThenNexts DupSort ChaindataTablesCfg n (newCursor base overlay mu t) =
  Returned ((Some k, Some v, None), m') ->
  Current m' = Returned ((Some k, Some v, None), m').
Proof.
  unfold firstThenNexts. intros H.
  destruct (First_newCursor DupSort ChaindataTablesCfg base overlay t
              baseOrdered overlayOrdered mu)
    as [[msg E]|[(m1 & E & He)|(k1 & v1 & m1 & E & Hs)]]; cbv zeta in E.
  - rewrite E in H. discriminate.
  - rewrite E in H.
    assert (runKeeps ((None, None, None) : kve, m1)) as Hinv by (right; now split).
    destruct (nextsFrom_keeps n _ _ Hinv H)
      as [(k2 & v2 & Hr & _ & Hst)|[Hr _]]; cbn [fst snd] in *; [|discriminate].
    injection Hr as <- <-. exact Hst.
  - pose proof (First_standing mu m1 k1 v1 E) as Hst1. rewrite E in H.
    assert (runKeeps ((Some k1, Some v1, None) : kve, m1)) as Hinv.
    { left. exists k1, v1. split; [reflexivity|]. split; assumption. }
    destruct (nextsFrom_keeps n _ _ Hinv H)
      as [(k2 & v2 & Hr & _ & Hst)|[Hr _]]; cbn [fst snd] in *; [|discriminate].
    injection Hr as <- <-. exact Hst.
Qed.

End CurrentAfterStep.

(** ** [Next] after [SeekExact] *)

Lemma lcSeekExact_at seek (c : listCursor) k v :
  nth_error (lcRows c)
            (firstIdx (fun r => bytesEqb (fst r) (contents seek)) (lcRows c)) = Some (k, v) ->
  lcSeekExact seek c =
  ((Some k, Some v, None),
   {| lcRows := lcRows c;
      lcPos := Some (firstIdx (fun r => bytesEqb (fst r) (contents seek)) (lcRows c)) |}).
Proof.
  intros Hn. unfold lcSeekExact. cbv zeta.
  assert (firstIdx (fun r => bytesEqb (fst r) (contents seek)) (lcRows c) < length (lcRows c))
    as Hlt by (apply nth_error_Some; congruence).
  destruct (Nat.ltb_spec (firstIdx (fun r => bytesEqb (fst r) (contents seek)) (lcRows c))
                         (length (lcRows c))); [|lia].
  unfold lcMoveTo. rewrite (rowAt_Some _ _ _ _ Hn).
  now replace (Nat.min (firstIdx (fun r => bytesEqb (fst r) (contents seek)) (lcRows c))
                       (length (lcRows c)))
    with (firstIdx (fun r => bytesEqb (fst r) (contents seek)) (lcRows c)) by lia.
Qed.

Section NextAfterSeekExact.

Variable DupSort : Z.
Variable ChaindataTablesCfg : kv.TableCfg.

Local Abbreviation state := (memoryMutationCursor listCursor listCursor).

(** X16.  [Next] after [SeekExact] returns the base row the overlay
    replaces.  When the overlay's first row of the key [k] is [(k, v1)] and
    the next overlay row, if any, has a later key, and the base's first row
    at or after [k] is [(k, v0)]: [SeekExact] of [k] returns the overlay's
    [(k, v1)], and [Next] after it returns the base's [(k, v0)] and sets
    [isPrevFromDb], whether that row is deleted, the table cleared or the
    table dup-sort or not. *)
Theorem Next_after_SeekExact_returns_base_row (m : state) (k v0 v1 : list byte) :
  (kv.AutoDupSortKeysConversion (tableConfig ChaindataTablesCfg (table m)) = true ->
   (0 <= dupOffset (tableConfig ChaindataTablesCfg (table m)))%Z) ->
  k <> [] ->
  let i := firstIdx (fun r => bytesEqb (fst r) k) (lcRows (memCursor m)) in
  nth_error (lcRows (memCursor m)) i = Some (k, v1) ->
  (forall r, nth_error (lcRows (memCursor m)) (S i) = Some r -> bytesLt k (fst r)) ->
  nth_error (lcRows (cursor m)) (seekIdx (Some k) (lcRows (cursor m))) = Some (k, v0) ->
  exists m1 m2,
    SeekExact (Some k) m = Returned ((Some k, Some v1, None), m1) /\
    Next DupSort ChaindataTablesCfg m1 = Returned ((Some k, Some v0, None), m2) /\
    isPrevFromDb m2 = true.
Proof.
  intros Hoff Hk i Hmem Hnext Hdb.
  assert (SeekExact (Some k) m =
          Returned ((Some k, Some v1, None),
                    {| cursor := {| lcRows := lcRows (cursor m);
                                    lcPos := Some (seekIdx (Some k) (lcRows (cursor m))) |};
                       memCursor := {| lcRows := lcRows (memCursor m); lcPos := Some i |};
                       isPrevFromDb := false;
                       currentDbEntry := {| key := Some k; value := Some v0 |};
                       currentMemEntry := {| key := Some k; value := Some v1 |};
                       mutation := mutation m; table := table m |})) as HSeek.
  { rewrite SeekExact_unfold.
    change (kv.SeekExact (Some k) (memCursor m)) with (lcSeekExact (Some k) (memCursor m)).
    rewrite (lcSeekExact_at (Some k) (memCursor m) k v1 Hmem). cbn [hasErr isNil negb].
    change (kv.Seek (Some k) (cursor m)) with (lcSeek (Some k) (cursor m)).
    destruct (cursor m) as [rows pos] eqn:Ec. cbn [lcRows] in *.
    rewrite lcSeek_at, (rowAt_Some _ _ _ _ Hdb). reflexivity. }
  do 2 eexists. split; [exact HSeek|].
  unfold Next. rewrite nextWith_unfold. simpl_cursor.
  change (kv.Next {| lcRows := lcRows (memCursor m); lcPos := Some i |})
    with (lcNext {| lcRows := lcRows (memCursor m); lcPos := Some i |}).
  rewrite lcNext_at, (rowAt_eta (lcRows (memCursor m)) (S i)). cbn [hasErr].
  rewrite goForward_unfold. rewrite andb_false_r.
  rewrite skipIntersection_exact by exact Hoff. simpl_cursor.
  assert (contents (kveKey (rowAt (lcRows (memCursor m)) (S i))) <> k) as Hother.
  { destruct (rowAt_cases (lcRows (memCursor m)) (S i)) as [(k2 & w & Hn & _ & E)|[_ E]];
      rewrite E; cbn [kveKey fst contents]; [|congruence].
    intros ->. apply Hnext in Hn. cbn [fst] in Hn. now apply bytesLt_irrefl in Hn. }
  rewrite (intersectsb_other_key DupSort ChaindataTablesCfg (table m)) by exact Hother.
  cbv zeta.
  assert (dbIsSmaller (kveKey (rowAt (lcRows (memCursor m)) (S i)))
                      (kveValue (rowAt (lcRows (memCursor m)) (S i)))
                      (Some k) (Some v0) = true) as ->.
  { destruct (rowAt_cases (lcRows (memCursor m)) (S i)) as [(k2 & w & Hn & _ & E)|[_ E]];
      rewrite E; cbn [kveKey kveValue fst snd].
    - apply dbIsSmaller_rows. left. exact (Hnext _ Hn).
    - apply dbIsSmaller_mem_nil. }
  split; reflexivity.
Qed.

End NextAfterSeekExact.

(** ** The entry kept for the next step *)

Section StoredEntries.

Context {DB MEM : Type}.
Context {dbCursor : kv.CursorDupSort DB}.
Context {rwMemCursor : kv.RwCursorDupSort MEM}.
Variable DupSort : Z.
Variable ChaindataTablesCfg : kv.TableCfg.

Local Abbreviation state := (memoryMutationCursor DB MEM).
Local Abbreviation storesEntry := (@storesEntry DB MEM).

Lemma goForward_stores memKey memValue dbKey dbValue t (m : state) :
  storesEntry (goForward DupSort ChaindataTablesCfg memKey memValue dbKey dbValue t) m.
Proof.
  intros k v m' H. rewrite goForward_unfold in H.
  destruct (isNil memValue && isNil dbValue); [discriminate|].
  destruct (skipIntersection DupSort ChaindataTablesCfg memKey memValue dbKey dbValue t m)
    as [[[[dk dv] [e|]] m1]|msg]; [discriminate| |discriminate].
  cbv zeta in H.
  destruct (dbIsSmaller memKey memValue dk dv); injection H as -> -> <-;
    reflexivity.
Qed.

Lemma nextWith_stores t (memStep : MEM -> kve * MEM) (m : state) :
  storesEntry (nextWith DupSort ChaindataTablesCfg t memStep) m.
Proof.
  intros k v m' H. rewrite nextWith_unfold in H. destruct (isPrevFromDb m).
  - destruct (getNextOnDb ChaindataTablesCfg t m) as [[[[dk dv] err] m1]|msg];
      [|discriminate].
    destruct (hasErr err); [discriminate|]. exact (goForward_stores _ _ _ _ _ _ _ _ _ H).
  - destruct (memStep (memCursor m)) as [[[memK memV] err] mc].
    destruct (hasErr err); [discriminate|]. exact (goForward_stores _ _ _ _ _ _ _ _ _ H).
Qed.

Lemma First_stores (m : state) :
  isTableCleared (mutation m) (table m) = false ->
  storesEntry (First DupSort ChaindataTablesCfg) m.
Proof.
  intros Hc k v m' H. rewrite (First_uncleared_unfold _ _ m Hc) in H.
  destruct (kv.First (memCursor m)) as [[[memKey memValue] err] mc].
  destruct (hasErr err); [discriminate|].
  destruct (kv.First (cursor m)) as [[[dbKey dbValue] err'] c]. cbv zeta in H.
  destruct (hasErr err') eqn:E; [discriminate|].
  destruct (negb (isNil dbKey) && isEntryDeleted (mutation m) (table m) (contents dbKey)).
  - destruct (getNextOnDb ChaindataTablesCfg Normal (setCursor c (setMemCursor mc m)))
      as [[[[dk dv] e] m2]|msg]; [|discriminate].
    destruct (hasErr e); [discriminate|]. exact (goForward_stores _ _ _ _ _ _ _ _ _ H).
  - rewrite E in H. exact (goForward_stores _ _ _ _ _ _ _ _ _ H).
Qed.

Lemma Seek_stores seek (m : state) :
  isTableCleared (mutation m) (table m) = false ->
  storesEntry (Seek DupSort ChaindataTablesCfg seek) m.
Proof.
  intros Hc k v m' H. rewrite (Seek_uncleared_unfold _ _ seek m Hc) in H.
  destruct (kv.Seek seek (cursor m)) as [[[dbKey dbValue] err] c]. cbv zeta in H.
  destruct (hasErr err) eqn:E; [discriminate|].
  destruct (negb (isNil dbKey) && isEntryDeleted (mutation m) (table m) (contents dbKey)).
  - destruct (getNextOnDb ChaindataTablesCfg Normal (setCursor c m))
      as [[[[dk dv] e] m2]|msg]; [|discriminate].
    destruct (hasErr e); [discriminate|].
    destruct (kv.Seek seek (memCursor m2)) as [[[memKey memValue] err'] mc].
    destruct (hasErr err'); [discriminate|]. exact (goForward_stores _ _ _ _ _ _ _ _ _ H).
  - rewrite E in H.
    destruct (kv.Seek seek (memCursor (setCursor c m))) as [[[memKey memValue] err'] mc].
    destruct (hasErr err'); [discriminate|]. exact (goForward_stores _ _ _ _ _ _ _ _ _ H).
Qed.

Lemma SeekExact_stores seek (m : state) : storesEntry (SeekExact seek) m.
Proof.
  intros k v m' H. rewrite SeekExact_unfold in H.
  destruct (kv.SeekExact seek (memCursor m)) as [[[memKey memValue] err] mc].
  destruct (hasErr err); [discriminate|].
  destruct (negb (isNil memKey)).
  - destruct (kv.Seek seek (cursor m)) as [[[dbKey dbValue] err'] c].
    now injection H as -> -> -> <-.
  - destruct (kv.SeekExact seek (cursor m)) as [[[dbKey dbValue] err'] c].
    destruct (hasErr err'); [discriminate|].
    destruct (negb (isNil dbKey) && negb (isTableCleared (mutation m) (table m))
              && negb (isEntryDeleted (mutation m) (table m) (contents seek)));
      [|discriminate].
    destruct (kv.Seek seek mc) as [[[memKey' memValue'] err''] mc'].
    now injection H as -> -> -> <-.
Qed.

Lemma Last_stores (m : state) : storesEntry (Last DupSort ChaindataTablesCfg) m.
Proof.
  intros k v m' H. rewrite Last_unfold in H.
  destruct (kv.Last (memCursor m)) as [[[memKey memValue] err] mc].
  destruct (hasErr err); [discriminate|].
  destruct (kv.Last (cursor m)) as [[[dbKey dbValue] err'] c]. cbv zeta in H.
  destruct (hasErr err'); [discriminate|].
  destruct (skipIntersection DupSort ChaindataTablesCfg memKey memValue dbKey dbValue
              Normal (setCursor c (setMemCursor mc m)))
    as [[[[dk dv] [e|]] m2]|msg]; [discriminate| |discriminate].
  repeat match type of H with
         | context [if ?b then _ else _] => destruct b
         end; injection H as -> -> <-; reflexivity.
Qed.

(** X17.  The cursor keeps the entry it returned.  Over any base and overlay
    cursor, when [Next], [NextDup], [NextNoDup], [Last] or [SeekExact]
    returns an entry with a value and no error, the entry is the one stored
    for the side [isPrevFromDb] names: [currentDbEntry] when it is set,
    [currentMemEntry] when it is not.  So it is after [First] and [Seek] on
    a table that is not cleared. *)
Theorem returned_entry_is_stored (m : state) :
  storesEntry (Next DupSort ChaindataTablesCfg) m /\
  storesEntry (NextDup DupSort ChaindataTablesCfg) m /\
  storesEntry (NextNoDup DupSort ChaindataTablesCfg) m /\
  storesEntry (Last DupSort ChaindataTablesCfg) m /\
  (forall seek, storesEntry (SeekExact seek) m) /\
  (isTableCleared (mutation m) (table m) = false ->
   storesEntry (First DupSort ChaindataTablesCfg) m /\
   forall seek, storesEntry (Seek DupSort ChaindataTablesCfg seek) m).
Proof.
  repeat split.
  - apply nextWith_stores.
  - apply nextWith_stores.
  - apply nextWith_stores.
  - apply Last_stores.
  - intros seek. apply SeekExact_stores.
  - now apply First_stores.
  - intros seek. now apply Seek_stores.
Qed.

End StoredEntries.

(** ** [NextNoDup] with the key in both tables *)

Lemma firstIdxFrom_le p (rows : list row) i :
  i <= length rows -> i <= firstIdxFrom p rows i <= length rows.
Proof.
  intros Hi. unfold firstIdxFrom. pose proof (firstIdx_le p (skipn i rows)) as H.
  rewrite length_skipn in H. lia.
Qed.

Lemma lcNextNoDup_at (rows : list row) i k v :
  nth_error rows i = Some (k, v) ->
  lcNextNoDup {| lcRows := rows; lcPos := Some i |} =
  (rowAt rows (firstIdxFrom (fun r => negb (bytesEqb (fst r) k)) rows (S i)),
   {| lcRows := rows;
      lcPos := Some (firstIdxFrom (fun r => negb (bytesEqb (fst r) k)) rows (S i)) |}).
Proof.
  intros Hn. unfold lcNextNoDup. cbn [lcPos lcRows]. rewrite Hn. unfold lcMoveTo.
  cbn [lcRows].
  assert (i < length rows) as Hi by (apply nth_error_Some; congruence).
  pose proof (firstIdxFrom_le (fun r => negb (bytesEqb (fst r) k)) rows (S i) Hi).
  now replace (Nat.min (firstIdxFrom (fun r => negb (bytesEqb (fst r) k)) rows (S i))
                       (length rows))
    with (firstIdxFrom (fun r => negb (bytesEqb (fst r) k)) rows (S i)) by lia.
Qed.

Section NextNoDupRepeats.

Variable DupSort : Z.
Variable ChaindataTablesCfg : kv.TableCfg.
Variable t : string.
Variable base : list row.

Local Abbreviation state := (memoryMutationCursor listCursor listCursor).
Local Abbreviation config := (tableConfig ChaindataTablesCfg t).
Local Abbreviation dbAt := (dbAt base).

Hypothesis plainT : plainTable ChaindataTablesCfg t.
Hypothesis dupSortT : isDupSortTable DupSort ChaindataTablesCfg t = true.

Lemma intersectsb_other_value mk mv dk dv :
  contents mv <> contents dv -> intersectsb DupSort config mk mv dk dv = false.
Proof.
  intros H. unfold intersectsb. cbv zeta. unfold plainTable in plainT. rewrite plainT.
  unfold isDupSortTable in dupSortT. apply negb_true_iff in dupSortT. rewrite dupSortT.
  assert (bytes.Equal mv dv = false) as -> by now apply Equal_false_iff.
  cbn. apply andb_false_r.
Qed.

Lemma stepCursor_NoDup_list (m : state) j :
  cursor m = dbAt j -> j <= length base ->
  exists j', j <= j' <= length base /\
             stepCursor NoDup m = Returned (rowAt base j', setCursor (dbAt j') m).
Proof.
  intros Hc Hj. unfold stepCursor, onCursor. rewrite Hc.
  change (kv.NextNoDup (dbAt j)) with (lcNextNoDup {| lcRows := base; lcPos := Some j |}).
  destruct (nth_error base j) as [[k v]|] eqn:E.
  - rewrite (lcNextNoDup_at base j k v E).
    assert (j < length base) as Hlt by (apply nth_error_Some; congruence).
    pose proof (firstIdxFrom_le (fun r => negb (bytesEqb (fst r) k)) base (S j) Hlt).
    eexists. split; [|reflexivity]. lia.
  - exists j. split; [lia|]. unfold lcNextNoDup. cbn [lcPos lcRows]. rewrite E.
    unfold rowAt. now rewrite E.
Qed.

Lemma skipDeleted_NoDup_list fuel : forall j (m : state),
  table m = t -> cursor m = dbAt j -> j <= length base ->
  exists j', j <= j' <= length base /\
             skipDeleted ChaindataTablesCfg fuel NoDup (rowAt base j) m =
             Returned (rowAt base j', setCursor (dbAt j') m).
Proof.
  induction fuel as [|fuel IH]; intros j m Ht Hc Hj; rewrite skipDeleted_unfold;
    (destruct (negb (isNil (kveKey (rowAt base j))) && negb (isNil (kveValue (rowAt base j))));
     [|exists j; split; [lia|]; now rewrite <- Hc, setCursor_same]);
    (rewrite convertAutoDupsort_plain by now rewrite Ht);
    (destruct (isEntryDeleted (mutation m) (table m) (contents (kveKey (rowAt base j))));
     [|exists j; split; [lia|]; now rewrite <- Hc, setCursor_same]).
  - exists j. split; [lia|]. now rewrite <- Hc, setCursor_same.
  - destruct (stepCursor_NoDup_list m j Hc Hj) as (j1 & Hj1 & ->).
    rewrite rowAt_err. cbn [hasErr].
    destruct (IH j1 (setCursor (dbAt j1) m)) as (j' & Hj' & H);
      [exact Ht|reflexivity|lia|].
    exists j'. split; [lia|]. rewrite H. now rewrite setCursor_setCursor.
Qed.

Lemma later_keys (k v : list byte) (rest : list row) j (r : row) :
  base = (k, v) :: rest -> tableOrdered true base ->
  firstIdxFrom (fun r => negb (bytesEqb (fst r) k)) base 1 <= j ->
  nth_error base j = Some r -> bytesLt k (fst r).
Proof.
  intros -> Hord Hj Hn.
  unfold firstIdxFrom in Hj. cbn [skipn] in Hj.
  assert (j < length ((k, v) :: rest)) as Hlt.
  { apply nth_error_Some. intros E. pose proof (eq_trans (eq_sym E) Hn) as E'.
    discriminate E'. }
  cbn [length] in Hlt.
  destruct (firstIdx_found (fun r => negb (bytesEqb (fst r) k)) rest) as (r0 & Hn0 & Hp);
    [unfold row in *; lia|].
  apply negb_true_iff, bytesEqb_false_iff in Hp.
  assert (bytesLt k (fst r0)) as Hk0.
  { destruct (tableOrdered_nth_le true ((k, v) :: rest) 0
                (S (firstIdx (fun r => negb (bytesEqb (fst r) k)) rest)) (k, v) r0 Hord)
      as [H|[H _]]; [lia|reflexivity|exact Hn0|exact H|].
    cbn [fst] in H. congruence. }
  destruct (tableOrdered_nth_le true ((k, v) :: rest)
              (S (firstIdx (fun r => negb (bytesEqb (fst r) k)) rest)) j r0 r Hord)
    as [H|[H _]]; [lia|exact Hn0|exact Hn| |].
  - exact (bytesLt_trans _ _ _ Hk0 H).
  - now rewrite <- H.
Qed.

(** X18.  [NextNoDup] repeats a key that both tables hold.  On a dup-sort
    table without the key conversion that is not cleared, with an ordered
    base whose first row is [(k, v)], not deleted, and an overlay whose
    first row [(k, v')] has the same key and a later value: [First] returns
    the base's [(k, v)], and [NextNoDup] after it returns the overlay's
    [(k, v')], an entry of the same key. *)
Theorem NextNoDup_repeats_key (mu : MemoryMutation) (k v v' : list byte)
        (rest orest : list row) :
  base = (k, v) :: rest ->
  tableOrdered true base ->
  isTableCleared mu t = false ->
  isEntryDeleted mu t k = false ->
  bytesLt v v' ->
  exists m1 m2,
    First DupSort ChaindataTablesCfg (newCursor base ((k, v') :: orest) mu t) =
    Returned ((Some k, Some v, None), m1) /\
    NextNoDup DupSort ChaindataTablesCfg m1 = Returned ((Some k, Some v', None), m2) /\
    isPrevFromDb m2 = false.
Proof.
  intros Hbase Hord Hcl Hlive Hlt.
  set (overlay := (k, v') :: orest).
  assert (kv.AutoDupSortKeysConversion config = true -> (0 <= dupOffset config)%Z) as Hoff
      by (intros H; unfold plainTable in plainT; rewrite plainT in H; discriminate H).
  assert (v' <> v) as Hne by (intros ->; now apply bytesLt_irrefl in Hlt).
  assert (nth_error base 0 = Some (k, v)) as Hb0 by now rewrite Hbase.
  assert (First DupSort ChaindataTablesCfg (newCursor base overlay mu t) =
          Returned ((Some k, Some v, None),
                    {| cursor := dbAt 0; memCursor := memAt overlay 0;
                       isPrevFromDb := true;
                       currentDbEntry := {| key := Some k; value := Some v |};
                       currentMemEntry := {| key := Some k; value := Some v' |};
                       mutation := mu; table := t |})) as HFirst.
  { rewrite (First_uncleared_unfold _ _ (newCursor base overlay mu t) Hcl).
    change (kv.First (memCursor (newCursor base overlay mu t)))
      with (lcFirst {| lcRows := overlay; lcPos := None |}).
    change (kv.First (cursor (newCursor base overlay mu t)))
      with (lcFirst {| lcRows := base; lcPos := None |}).
    rewrite !lcFirst_new.
    rewrite (rowAt_Some overlay 0 k v' eq_refl), (rowAt_Some base 0 k v Hb0).
    cbn [hasErr isNil negb andb contents]. cbv zeta.
    cbn [newCursor mutation table]. rewrite Hlive. cbn [hasErr].
    rewrite goForward_unfold. cbn [isNil andb].
    rewrite skipIntersection_exact by exact Hoff.
    simpl_cursor. cbn [newCursor table].
    rewrite intersectsb_other_value by (cbn; congruence). cbv zeta.
    assert (dbIsSmaller (Some k) (Some v') (Some k) (Some v) = true) as ->
        by (apply dbIsSmaller_rows; right; now split).
    reflexivity. }
  match type of HFirst with _ = Returned (_, ?m) => set (m1 := m) in * end.
  assert (exists m2,
             NextNoDup DupSort ChaindataTablesCfg m1 =
             Returned ((Some k, Some v', None), m2) /\ isPrevFromDb m2 = false)
    as (m2 & HNext & Hprev); [|now exists m1, m2].
  subst m1. unfold NextNoDup. rewrite nextWith_unfold. simpl_cursor.
  rewrite getNextOnDb_unfold. unfold stepCursor, onCursor. simpl_cursor.
  change (kv.NextNoDup (dbAt 0)) with (lcNextNoDup {| lcRows := base; lcPos := Some 0 |}).
  rewrite (lcNextNoDup_at base 0 k v Hb0). rewrite rowAt_err. cbn [hasErr].
  set (j0 := firstIdxFrom (fun r => negb (bytesEqb (fst r) k)) base 1).
  assert (1 <= j0 <= length base) as Hj0.
  { apply firstIdxFrom_le. rewrite Hbase. cbn [length]. lia. }
  match goal with
  | |- context [skipDeleted _ ?fuel NoDup (rowAt base j0) ?m] =>
      destruct (skipDeleted_NoDup_list fuel j0 m) as (j' & Hj' & ->);
        [reflexivity|reflexivity|lia|]
  end.
  rewrite (rowAt_eta base j'). cbn [hasErr]. simpl_cursor.
  rewrite goForward_unfold. cbn [isNil andb].
  rewrite skipIntersection_exact by (simpl_cursor; exact Hoff). simpl_cursor.
  destruct (rowAt_cases base j') as [(dk & dv & Hn & _ & E)|[_ E]]; rewrite E;
    cbn [kveKey kveValue].
  - pose proof (later_keys k v rest j' (dk, dv) Hbase Hord (proj1 Hj') Hn) as Hk.
    cbn [fst] in Hk.
    rewrite intersectsb_other_key
      by (cbn; intros ->; now apply bytesLt_irrefl in Hk).
    cbv zeta. cbn [kveKey kveValue fst snd].
    assert (dbIsSmaller (Some k) (Some v') (Some dk) (Some dv) = false) as ->.
    { destruct (dbIsSmaller (Some k) (Some v') (Some dk) (Some dv)) eqn:Es; [|reflexivity].
      apply dbIsSmaller_rows in Es. exfalso. destruct Es as [H|[H _]]; cbn [fst] in H.
      - exact (bytesLt_irrefl _ (bytesLt_trans _ _ _ Hk H)).
      - subst dk. now apply bytesLt_irrefl in Hk. }
    eexists. split; reflexivity.
  - rewrite intersectsb_other_value
      by (cbn; intros ->; now apply compareBytes_nil_r in Hlt).
    cbv zeta. cbn [kveKey kveValue fst snd]. rewrite dbIsSmaller_db_nil.
    eexists. split; reflexivity.
Qed.

End NextNoDupRepeats.

(** ** [SeekBothRange] from a value *)

Lemma firstValueFrom_idx (k v : list byte) (rows : list row) :
  firstValueFrom k v rows =
  option_map snd
    (nth_error rows (firstIdx (fun r => bytesEqb (fst r) k && bytesLeb v (snd r)) rows)).
Proof.
  unfold firstValueFrom, valuesFrom.
  induction rows as [|r rs IH]; cbn [filter firstIdx map]; [reflexivity|].
  destruct (bytesEqb (fst r) k && bytesLeb v (snd r)); [reflexivity|exact IH].
Qed.

Lemma lcSeekBothRange_at (k v : list byte) (rows : list row) pos :
  lcSeekBothRange (Some k) (Some v) {| lcRows := rows; lcPos := pos |} =
  match nth_error rows
          (firstIdx (fun r => bytesEqb (fst r) k && bytesLeb v (snd r)) rows) with
  | Some r =>
      ((Some (snd r), None),
       {| lcRows := rows;
          lcPos := Some (firstIdx (fun r => bytesEqb (fst r) k && bytesLeb v (snd r))
                                  rows) |})
  | None => ((None, None), {| lcRows := rows; lcPos := pos |})
  end.
Proof.
  unfold lcSeekBothRange. cbn [contents lcRows]. cbv zeta.
  set (i := firstIdx (fun r => bytesEqb (fst r) k && bytesLeb v (snd r)) rows).
  destruct (Nat.ltb_spec i (length rows)) as [Hlt|Hge].
  - destruct (nth_error rows i) as [[k' b]|] eqn:E.
    + unfold lcMoveTo. cbn [lcRows]. rewrite (rowAt_Some _ _ _ _ E). cbn [kveValue snd].
      now replace (Nat.min i (length rows)) with i by lia.
    + apply nth_error_None in E. lia.
  - apply nth_error_None in Hge. now rewrite Hge.
Qed.

Lemma seekBothRange_found (k v : list byte) (rows : list row) (r : row) :
  nth_error rows (firstIdx (fun r => bytesEqb (fst r) k && bytesLeb v (snd r)) rows)
  = Some r ->
  fst r = k /\ bytesLe v (snd r).
Proof.
  intros Hn.
  destruct (firstIdx_found (fun r => bytesEqb (fst r) k && bytesLeb v (snd r)) rows)
    as (r' & Hn' & Hp); [apply nth_error_Some; congruence|].
  assert (r' = r) as -> by congruence.
  apply andb_true_iff in Hp as [Hk Hv].
  split; [now apply bytesEqb_true_iff|now apply bytesLeb_true_iff].
Qed.

Lemma bytesLe_not_nil (v b : list byte) : v <> [] -> bytesLe v b -> b <> [].
Proof. intros Hv H ->. apply Hv. now destruct v. Qed.

Lemma rowLt_not_le (a b : row) : rowLt b a -> rowLe a b -> False.
Proof.
  intros [H|[Hk H]] [H'|[Hk' H']].
  - exact (bytesLt_irrefl _ (bytesLt_trans _ _ _ H H')).
  - rewrite Hk' in H. exact (bytesLt_irrefl _ H).
  - rewrite Hk in H'. exact (bytesLt_irrefl _ H').
  - apply bytesLe_cases in H' as [H'|H'].
    + exact (bytesLt_irrefl _ (bytesLt_trans _ _ _ H H')).
    + rewrite H' in H. exact (bytesLt_irrefl _ H).
Qed.

Section SeekBothRangeValues.

Variable DupSort : Z.
Variable ChaindataTablesCfg : kv.TableCfg.
Variable t : string.
Variable base : list row.

Local Abbreviation state := (memoryMutationCursor listCursor listCursor).
Local Abbreviation config := (tableConfig ChaindataTablesCfg t).
Local Abbreviation dbAt := (dbAt base).

Hypothesis plainT : plainTable ChaindataTablesCfg t.
Hypothesis dupSortT : isDupSortTable DupSort ChaindataTablesCfg t = true.
Hypothesis baseOrdered : tableOrdered true base.

Lemma intersectsb_same_key k mv dv :
  intersectsb DupSort config (Some k) mv (Some k) dv = bytes.Equal mv dv.
Proof.
  unfold intersectsb. cbv zeta. unfold plainTable in plainT. rewrite plainT.
  unfold isDupSortTable in dupSortT. apply negb_true_iff in dupSortT. rewrite dupSortT.
  assert (bytes.Equal (Some k) (Some k) = true) as -> by now apply Equal_true_iff.
  cbn. now rewrite orb_false_r.
Qed.

(** With a deleted key under the cursor, the steps to the next duplicate run
    to the end of the key. *)
Lemma skipDeleted_Dup_deleted k fuel : forall j (m : state) b,
  table m = t -> isEntryDeleted (mutation m) t k = true ->
  cursor m = dbAt j -> nth_error base j = Some (k, b) ->
  length base - j < fuel ->
  exists j', skipDeleted ChaindataTablesCfg fuel Dup (Some k, Some b, None) m =
             Returned ((None, None, None), setCursor (dbAt j') m).
Proof.
  induction fuel as [|fuel IH]; intros j m b Ht Hd Hc Hn Hfuel; [lia|].
  rewrite skipDeleted_unfold. cbn [kveKey kveValue fst snd isNil negb andb].
  rewrite convertAutoDupsort_plain by now rewrite Ht. cbn [contents].
  rewrite Ht, Hd. unfold stepCursor, onCursor. rewrite Hc.
  change (kv.NextDup (dbAt j)) with (lcNextDup {| lcRows := base; lcPos := Some j |}).
  assert (j < length base) as Hj by (apply nth_error_Some; congruence).
  unfold lcNextDup. cbn [lcPos lcRows]. rewrite Hn.
  destruct (nth_error base (S j)) as [[k2 b2]|] eqn:E2.
  - destruct (bytesEqb k k2) eqn:Ek.
    + apply bytesEqb_true_iff in Ek. subst k2.
      assert (S j < length base) as Hj2 by (apply nth_error_Some; congruence).
      unfold lcMoveTo. cbn [lcRows]. rewrite (rowAt_Some _ _ _ _ E2).
      replace (Nat.min (S j) (length base)) with (S j) by lia. cbn [kveErr snd hasErr].
      destruct (IH (S j) (setCursor (dbAt (S j)) m) b2) as (j' & H);
        [exact Ht|exact Hd|reflexivity|exact E2|lia|].
      exists j'. exact H.
    + cbn [kveErr snd hasErr]. rewrite skipDeleted_unfold.
      cbn [kveKey kveValue fst snd isNil negb andb]. now exists j.
  - cbn [kveErr snd hasErr]. rewrite skipDeleted_unfold.
    cbn [kveKey kveValue fst snd isNil negb andb]. now exists j.
Qed.

Lemma getNextOnDb_Dup_deleted k (m : state) j b :
  table m = t -> isEntryDeleted (mutation m) t k = true ->
  cursor m = dbAt j -> nth_error base j = Some (k, b) ->
  exists j', getNextOnDb ChaindataTablesCfg Dup m =
             Returned ((None, None, None), setCursor (dbAt j') m).
Proof.
  intros Ht Hd Hc Hn. rewrite getNextOnDb_unfold. unfold stepCursor, onCursor. rewrite Hc.
  change (kv.NextDup (dbAt j)) with (lcNextDup {| lcRows := base; lcPos := Some j |}).
  assert (j < length base) as Hj by (apply nth_error_Some; congruence).
  unfold lcNextDup. cbn [lcPos lcRows]. rewrite Hn.
  destruct (nth_error base (S j)) as [[k2 b2]|] eqn:E2.
  - destruct (bytesEqb k k2) eqn:Ek.
    + apply bytesEqb_true_iff in Ek. subst k2.
      assert (S j < length base) as Hj2 by (apply nth_error_Some; congruence).
      unfold lcMoveTo. cbn [lcRows]. rewrite (rowAt_Some _ _ _ _ E2).
      replace (Nat.min (S j) (length base)) with (S j) by lia.
      cbn [kveErr snd hasErr]. simpl_cursor.
      change (kv.stepsLeft {| lcRows := base; lcPos := Some (S j) |})
        with (length base - S j).
      destruct (skipDeleted_Dup_deleted k (S (length base - S j)) (S j)
                  (setCursor (dbAt (S j)) m) b2) as (j' & H);
        [exact Ht|exact Hd|reflexivity|exact E2|lia|].
      exists j'. exact H.
    + cbn [kveErr snd hasErr]. rewrite skipDeleted_unfold.
      cbn [kveKey kveValue fst snd isNil negb andb]. now exists j.
  - cbn [kveErr snd hasErr]. rewrite skipDeleted_unfold.
    cbn [kveKey kveValue fst snd isNil negb andb]. now exists j.
Qed.

(** The merge step on two values of one key: the lesser value. *)
Lemma goForward_values k (a b : slice) (m : state) i :
  table m = t ->
  a <> Some [] -> b <> Some [] ->
  (forall b', b = Some b' -> cursor m = dbAt i /\ nth_error base i = Some (k, b')) ->
  exists rk m',
    goForward DupSort ChaindataTablesCfg (Some k) a (Some k) b Normal m =
    Returned ((rk, minValue a b, None), m').
Proof.
  intros Ht Ha Hb Hrow.
  assert (kv.AutoDupSortKeysConversion (tableConfig ChaindataTablesCfg (table m)) = true ->
          (0 <= dupOffset (tableConfig ChaindataTablesCfg (table m)))%Z) as Hoff
      by (intros H; unfold plainTable in plainT; rewrite Ht, plainT in H; discriminate H).
  rewrite goForward_unfold.
  destruct a as [a|], b as [b|]; cbn [isNil andb].
  - rewrite skipIntersection_exact by exact Hoff. rewrite Ht, intersectsb_same_key.
    destruct (bytes.Equal (Some a) (Some b)) eqn:E.
    + apply Equal_true_iff in E. cbn [contents] in E. subst b.
      destruct (Hrow a eq_refl) as [Hc Hn0].
      destruct (getNextOnDb_list ChaindataTablesCfg base m i Hc) as [[msg H]|(j & Hj & H)].
      { assert (i < length base) by (apply nth_error_Some; congruence). lia. }
      { destruct (getNextOnDb_plain ChaindataTablesCfg Normal m) as (r & m' & H' & _);
          [now rewrite Ht|]. rewrite H in H'. discriminate H'. }
      rewrite H, (rowAt_eta base j). cbv zeta.
      assert (dbIsSmaller (Some k) (Some a) (kveKey (rowAt base j)) (kveValue (rowAt base j))
              = false) as ->.
      { destruct (rowAt_cases base j) as [(dk & dv & Hn & _ & E)|[_ E]]; rewrite E;
          cbn [kveKey kveValue fst snd]; [|apply dbIsSmaller_db_nil].
        destruct (dbIsSmaller (Some k) (Some a) (Some dk) (Some dv)) eqn:Es; [|reflexivity].
        apply dbIsSmaller_rows in Es. exfalso.
        pose proof (tableOrdered_nth_le true base i j (k, a) (dk, dv) baseOrdered
                      (proj1 Hj) Hn0 Hn) as Hle.
        exact (rowLt_not_le _ _ Es Hle). }
      cbn [minValue]. rewrite compareBytes_refl. do 2 eexists. reflexivity.
    + apply Equal_false_iff in E. cbn [contents] in E. cbv zeta. cbn [minValue].
      destruct (dbIsSmaller (Some k) (Some a) (Some k) (Some b)) eqn:Es.
      * apply dbIsSmaller_rows in Es. destruct Es as [H|[_ H]]; cbn [fst snd] in H.
        { now apply bytesLt_irrefl in H. }
        apply compareBytes_Gt_Lt in H. rewrite H. do 2 eexists. reflexivity.
      * destruct (compareBytes a b) eqn:Ec; try (do 2 eexists; reflexivity).
        exfalso. assert (dbIsSmaller (Some k) (Some a) (Some k) (Some b) = true) as Es'.
        { apply dbIsSmaller_rows. right. split; [reflexivity|].
          now apply compareBytes_Gt_Lt. }
        congruence.
  - rewrite skipIntersection_exact by exact Hoff. rewrite Ht, intersectsb_same_key.
    assert (bytes.Equal (Some a) None = false) as ->
        by (apply Equal_false_iff; cbn [contents]; congruence).
    cbv zeta. rewrite dbIsSmaller_db_nil. cbn [minValue]. do 2 eexists. reflexivity.
  - rewrite skipIntersection_exact by exact Hoff. rewrite Ht, intersectsb_same_key.
    assert (bytes.Equal None (Some b) = false) as ->
        by (apply Equal_false_iff; cbn [contents]; congruence).
    cbv zeta.
    assert (dbIsSmaller (Some k) None (Some k) (Some b) = true) as ->.
    { unfold dbIsSmaller.
      assert (bytes.Equal (Some k) (Some k) = true) as -> by now apply Equal_true_iff.
      reflexivity. }
    cbn [minValue]. do 2 eexists. reflexivity.
  - cbn [minValue]. do 2 eexists. reflexivity.
Qed.

(** X19.  [SeekBothRange] with a value returns the lesser first value.  On a
    dup-sort table without the key conversion and with an ordered base,
    [SeekBothRange] of a key [k] and a value [v] that is not empty returns,
    with no error, the lesser of the overlay's first value of [k] at or
    after [v] and the base's; the base has none when [k] is deleted, and the
    result is the nil value when neither table has one. *)
Theorem SeekBothRange_returns_lesser_value (m : state) (k v : list byte) :
  table m = t -> lcRows (cursor m) = base ->
  v <> [] ->
  exists m',
    SeekBothRange DupSort ChaindataTablesCfg (Some k) (Some v) m =
    Returned ((minValue (firstValueFrom k v (lcRows (memCursor m)))
                        (if isEntryDeleted (mutation m) t k then None
                         else firstValueFrom k v base),
               None), m').
Proof.
  intros Ht Hbase Hv.
  rewrite SeekBothRange_unfold. cbn [isNil].
  change (kv.SeekBothRange (Some k) (Some v) (cursor m))
    with (lcSeekBothRange (Some k) (Some v) (cursor m)).
  destruct (cursor m) as [rows dpos] eqn:Ec. cbn [lcRows] in Hbase. subst rows.
  rewrite lcSeekBothRange_at, !firstValueFrom_idx.
  set (i := firstIdx (fun r => bytesEqb (fst r) k && bytesLeb v (snd r)) base).
  assert (forall (m2 : state) (b : slice) j,
             table m2 = t -> memCursor m2 = memCursor m ->
             b <> Some [] ->
             (forall b', b = Some b' ->
                         cursor m2 = dbAt j /\ nth_error base j = Some (k, b')) ->
             exists m',
               (let '((memValue, err), mc) :=
                  kv.SeekBothRange (Some k) (Some v) (memCursor m2) in
                if hasErr err then Returned ((None, err), setMemCursor mc m2)
                else
                  match goForward DupSort ChaindataTablesCfg (Some k) memValue (Some k) b
                                  Normal (setMemCursor mc m2) with
                  | Returned ((_, retValue, err), m3) => Returned ((retValue, err), m3)
                  | Panicked msg => Panicked msg
                  end) =
               Returned ((minValue
                            (option_map snd
                               (nth_error (lcRows (memCursor m))
                                  (firstIdx (fun r => bytesEqb (fst r) k
                                                      && bytesLeb v (snd r))
                                            (lcRows (memCursor m)))))
                            b, None), m')) as Hmem.
  { intros m2 b j Ht2 Hmc Hb Hrow. rewrite Hmc.
    change (kv.SeekBothRange (Some k) (Some v) (memCursor m))
      with (lcSeekBothRange (Some k) (Some v) (memCursor m)).
    destruct (memCursor m) as [overlay mpos]. cbn [lcRows].
    rewrite lcSeekBothRange_at.
    destruct (nth_error overlay
                (firstIdx (fun r => bytesEqb (fst r) k && bytesLeb v (snd r)) overlay))
      as [r|] eqn:Eo; cbn [hasErr option_map].
    - destruct (seekBothRange_found k v overlay r Eo) as [_ Hle].
      destruct (goForward_values k (Some (snd r)) b
                  (setMemCursor
                     {| lcRows := overlay;
                        lcPos := Some (firstIdx (fun r => bytesEqb (fst r) k
                                                          && bytesLeb v (snd r))
                                                overlay) |} m2) j)
        as (rk & m' & ->); try assumption.
      + intros E. injection E as E. exact (bytesLe_not_nil _ _ Hv Hle E).
      + now exists m'.
    - destruct (goForward_values k None b (setMemCursor {| lcRows := overlay; lcPos := mpos |} m2) j)
        as (rk & m' & ->); try assumption; [discriminate|]. now exists m'. }
  destruct (nth_error base i) as [r|] eqn:Eb; cbv zeta; cbn [hasErr negb isNil option_map].
  - change {| lcRows := base; lcPos := Some i |} with (dbAt i).
    destruct (seekBothRange_found k v base r Eb) as [Hk Hle].
    destruct r as [dk b]. cbn [fst snd] in *. subst dk.
    rewrite convertAutoDupsort_plain by now rewrite Ht. cbn [contents]. rewrite Ht.
    destruct (isEntryDeleted (mutation m) t k) eqn:Ed.
    + destruct (getNextOnDb_Dup_deleted k (setCursor (dbAt i) m) i b) as (j' & ->);
        [exact Ht|exact Ed|reflexivity|exact Eb|].
      cbn [hasErr]. apply (Hmem _ None j'); try reflexivity; try discriminate.
      exact Ht.
    + cbn [hasErr]. apply (Hmem _ (Some b) i); try reflexivity; [exact Ht| |].
      * intros E. injection E as E. exact (bytesLe_not_nil _ _ Hv Hle E).
      * intros b' E. injection E as <-. now split.
  - assert (minValue
              (option_map snd
                 (nth_error (lcRows (memCursor m))
                    (firstIdx (fun r => bytesEqb (fst r) k && bytesLeb v (snd r))
                              (lcRows (memCursor m)))))
              (if isEntryDeleted (mutation m) t k then None else None) =
            minValue
              (option_map snd
                 (nth_error (lcRows (memCursor m))
                    (firstIdx (fun r => bytesEqb (fst r) k && bytesLeb v (snd r))
                              (lcRows (memCursor m)))))
              None) as -> by now destruct (isEntryDeleted (mutation m) t k).
    apply (Hmem _ None 0); try reflexivity; try discriminate. exact Ht.
Qed.

End SeekBothRangeValues.

(** ** The conversion and the capacity of the value *)

Section ConversionRoom.

Variable ChaindataTablesCfg : kv.TableCfg.

Local Abbreviation tableConfig := (tableConfig ChaindataTablesCfg).

(** X20.  The conversion reads past the end of a short value that has the
    capacity.  On a table with the auto-dupsort conversion, for a key of the
    converted length and a value shorter than the bytes the conversion takes
    but with the capacity for them, the result is the key, then the whole
    value, then the first bytes of what the backing array holds behind the
    value, as many as are missing. *)
Theorem convertAutoDupsort_reads_room (t : string) (key : slice) (v room : list byte) :
  kv.AutoDupSortKeysConversion (tableConfig t) = true ->
  len key = kv.DupToLen (tableConfig t) ->
  (len (Some v) <= dupOffset (tableConfig t) <= cap (Some v) room)%Z ->
  exists r,
    convertAutoDupsort ChaindataTablesCfg t key (Some v) room = Returned r /\
    contents r =
      contents key ++ v
      ++ firstn (Z.to_nat (dupOffset (tableConfig t)) - length v) room.
Proof.
  intros Ha Hk [Hlo Hhi]. rewrite convertAutoDupsort_unfold, Ha, Hk, Z.eqb_refl.
  cbn [negb]. unfold sliceToCap.
  assert (0 <= len (Some v))%Z as H0 by (unfold len; lia).
  destruct (Z.ltb_spec (dupOffset (tableConfig t)) 0); [lia|].
  destruct (Z.ltb_spec (cap (Some v) room) (dupOffset (tableConfig t))); [lia|].
  cbn [orb obind]. eexists. split; [reflexivity|].
  rewrite append_contents. cbn [contents]. f_equal.
  rewrite firstn_app. f_equal. apply firstn_all2.
  unfold len in Hlo. cbn [contents] in Hlo. lia.
Qed.

End ConversionRoom.

(** ** The theorems at chosen tables *)

(** C3 at a failing input.  The first base row [(AB, CDEFG)] has the
    effective key [ABCDE], which is deleted; [First] asks the mutation about
    the raw key [AB] and returns the row from the base side.  [Next] meets
    the same row through [getNextOnDb], which asks about the effective key,
    and skips it. *)
Theorem First_checks_raw_key :
  effectiveKey exampleCfg "AutoDups" (keyAB, valCDEFG) = keyABCDE /\
  isEntryDeleted (mutation deletedFirstRow) "AutoDups" keyABCDE = true /\
  (exists m',
      First dupSortBit exampleCfg deletedFirstRow =
      Returned ((Some keyAB, Some valCDEFG, None), m') /\
      isPrevFromDb m' = true) /\
  scan dupSortBit exampleCfg 5 deletedSecondRow = Some [(keyA, [x01]); (keyX, [x01])].
Proof.
  repeat split. eexists. split; [vm_compute; reflexivity|reflexivity].
Qed.

(** C1 at a failing input, the one of C3.  The scan returns the deleted
    first row, which the specification's merge leaves out. *)
Theorem scan_returns_deleted_first_row :
  scan dupSortBit exampleCfg 5 deletedFirstRow =
  Some [(keyAB, valCDEFG); (keyX, [x01])] /\
  specScan exampleCfg (mutationOf false [keyABCDE]) "AutoDups" deletedFirstBase [] =
  [(keyX, [x01])].
Proof. split; reflexivity. Qed.

(** C5 as stated fails: in a dup-sort table whose auto-dupsort lengths are
    equal the offset is zero, the two values agree on their first zero bytes,
    and the candidate comes back unchanged where the claim has the base
    cursor advance. *)
Lemma skipIntersection_zero_offset_stays :
  specCandidatesIntersect dupSortBit (tableConfig exampleCfg "SameLen")
                          (Some keyK) (Some keyA) (Some keyK) (Some keyB) /\
  skipIntersection dupSortBit exampleCfg (Some keyK) (Some keyA) (Some keyK) (Some keyB)
                   Normal sameLenCursor =
  Returned ((Some keyK, Some keyB, None), sameLenCursor) /\
  getNextOnDb exampleCfg Normal sameLenCursor <>
  Returned ((Some keyK, Some keyB, None), sameLenCursor).
Proof.
  split; [|split].
  - split; [reflexivity|]. right. right. cbn. repeat split; lia.
  - reflexivity.
  - vm_compute. discriminate.
Qed.

(** C2 as stated fails on a cleared table when the cursor holds a base
    entry.  After the clear, [First] and two [Next] calls return the keys
    [b], [a], [k]: the second is the base row held from before.  And on a new
    cursor of a cleared table, after [SeekExact] has found [a] in the
    overlay and taken the base's row of [a] as its candidate, [First] and
    [Next] return the values [09] and [01] of the key [a]. *)
Lemma scan_after_clear_unordered :
  entriesOf (runFirstNexts dupSortBit exampleCfg 2 heldBaseCursor) =
  [(keyB, [x06]); (keyA, [x01]); (keyK, [x07])] /\
  ~ Sorted rowLe (entriesOf (runFirstNexts dupSortBit exampleCfg 2 heldBaseCursor)) /\
  exists m1,
    SeekExact (Some keyA) clearedBothCursor =
    Returned ((Some keyA, Some [x09], None), m1) /\
    entriesOf (runFirstNexts dupSortBit exampleCfg 1 m1) =
    [(keyA, [x09]); (keyA, [x01])] /\
    ~ Sorted rowLe (entriesOf (runFirstNexts dupSortBit exampleCfg 1 m1)).
Proof.
  assert (forall x y l, compareBytes (fst x) (fst y) = Gt \/
                        (fst x = fst y /\ compareBytes (snd x) (snd y) = Gt) ->
                        ~ Sorted rowLe (x :: y :: l)) as Hno.
  { intros x y l Hgt Hs. inversion Hs as [|? ? _ Hhd]; subst.
    inversion Hhd as [|? ? Hle]; subst.
    destruct Hgt as [Hgt|[Hk Hgt]], Hle as [Hlt|[Hk' Hle]]; unfold bytesLt, bytesLe in *.
    - congruence.
    - rewrite Hk', compareBytes_refl in Hgt. discriminate Hgt.
    - rewrite Hk, compareBytes_refl in Hlt. discriminate Hlt.
    - congruence. }
  split; [reflexivity|]. split.
  - apply Hno. left. reflexivity.
  - eexists. split; [reflexivity|]. split; [reflexivity|].
    apply Hno. right. split; reflexivity.
Qed.

(** C7 as stated fails: on a nil value the slice expression panics. *)
Lemma convertAutoDupsort_nil_value_panics :
  convertAutoDupsort exampleCfg "AutoDups" (Some keyAB) None [] =
  Panicked "slice bounds out of range".
Proof. reflexivity. Qed.


(** C2 at a cursor that stands in the dup-sort table, not cleared: from
    [First] on the overlay's [(k, 02)] comes between the base's [(k, 01)]
    and [(k, 03)]. *)
Lemma scan_ordered_witness :
  tableOrdered (isDupSortTable dupSortBit exampleCfg "Dups") dupsBase /\
  tableOrdered (isDupSortTable dupSortBit exampleCfg "Dups") dupsOverlay /\
  (isTableCleared (mutation dupsCursor) "Dups" = true ->
   currentDbEntry dupsCursor = emptyEntry) /\
  Sorted rowLe (entriesOf (runFirstNexts dupSortBit exampleCfg 4 dupsCursor)).
Proof.
  assert (tableOrdered (isDupSortTable dupSortBit exampleCfg "Dups") dupsBase) as Hb.
  { unfold tableOrdered. change (isDupSortTable dupSortBit exampleCfg "Dups") with true.
    cbv iota.
    repeat first [apply SSorted_cons | apply SSorted_nil | apply Forall_cons | apply Forall_nil].
    right. split; reflexivity. }
  assert (tableOrdered (isDupSortTable dupSortBit exampleCfg "Dups") dupsOverlay) as Ho.
  { repeat constructor. }
  assert (isTableCleared (mutation dupsCursor) "Dups" = true ->
          currentDbEntry dupsCursor = emptyEntry) as Hheld by discriminate.
  split; [exact Hb|]. split; [exact Ho|]. split; [exact Hheld|].
  exact (scan_ordered dupSortBit exampleCfg dupsBase dupsOverlay "Dups" Hb Ho
                      dupsCursor 4 eq_refl eq_refl eq_refl Hheld).
Defined.

(** C5 at two values of an auto-dupsort table that start with the same
    three bytes. *)
Lemma skipIntersection_spec_witness :
  candidatesIntersect dupSortBit (tableConfig exampleCfg "AutoDups")
                      (Some keyAB) (Some [x43; x44; x45]) (Some keyAB) (Some valCDEFG) /\
  skipIntersection dupSortBit exampleCfg (Some keyAB) (Some [x43; x44; x45])
                   (Some keyAB) (Some valCDEFG) Normal autoDupsCursor =
  getNextOnDb exampleCfg Normal autoDupsCursor.
Proof.
  assert (candidatesIntersect dupSortBit (tableConfig exampleCfg "AutoDups")
            (Some keyAB) (Some [x43; x44; x45]) (Some keyAB) (Some valCDEFG)) as Hi.
  { split; [reflexivity|]. right. right. repeat split; cbn; try lia; discriminate. }
  split; [exact Hi|].
  apply (skipIntersection_spec dupSortBit exampleCfg (Some keyAB) (Some [x43; x44; x45])
           (Some keyAB) (Some valCDEFG) Normal autoDupsCursor).
  - intros _. cbn. lia.
  - exact Hi.
Defined.

(** C4 after such a skip: the overlay's [(AB, CDE)] against the base's next
    row [(x, 01)]. *)
Lemma goForward_decides_witness :
  exists k v m2,
    goForward dupSortBit exampleCfg (Some keyAB) (Some [x43; x44; x45])
              (Some keyAB) (Some valCDEFG) Normal autoDupsCursor =
    Returned ((k, v, None), m2) /\
    (isPrevFromDb m2 = true <->
     baseWins (Some keyAB) (Some [x43; x44; x45]) (Some keyX) (Some [x01])) /\
    (isPrevFromDb m2 = true -> k = Some keyX /\ v = Some [x01]) /\
    (isPrevFromDb m2 = false -> k = Some keyAB /\ v = Some [x43; x44; x45]).
Proof.
  apply (proj2 (goForward_decides dupSortBit exampleCfg (Some keyAB) (Some [x43; x44; x45])
                  (Some keyAB) (Some valCDEFG) Normal autoDupsCursor)
               (Some keyX) (Some [x01])
               (setCursor {| lcRows := [(keyAB, valCDEFG); (keyX, [x01])];
                             lcPos := Some 1 |} autoDupsCursor)).
  - intros [H _]. discriminate.
  - reflexivity.
Defined.

(** C7 at a key of the converted length and a value long enough. *)
Lemma convertAutoDupsort_spec_witness :
  exists r,
    convertAutoDupsort exampleCfg "AutoDups" (Some keyAB) (Some valCDEFG) [] = Returned r /\
    contents r = keyABCDE.
Proof.
  destruct (convertAutoDupsort_spec exampleCfg "AutoDups" (Some keyAB) (Some valCDEFG) [])
    as (_ & _ & _ & H).
  apply H; [reflexivity|reflexivity|cbn; lia].
Defined.

(** C10 at a cleared table whose cursor holds a base row from before the
    clear. *)
Lemma cleared_First_Seek_keep_entries_witness :
  isTableCleared (mutation staleCursor) (table staleCursor) = true /\
  exists r m',
    First dupSortBit exampleCfg staleCursor = Returned (r, m') /\
    currentDbEntry m' = currentDbEntry staleCursor /\
    currentMemEntry m' = currentMemEntry staleCursor.
Proof.
  split; [reflexivity|].
  destruct (cleared_First_Seek_keep_entries dupSortBit exampleCfg staleCursor eq_refl)
    as [(r & m' & H & _ & _ & Hd & Hm & _) _].
  exists r, m'. repeat split; assumption.
Defined.

(** After the clear: [First] gives the overlay's [(a, 05)], and [Next] then
    gives the base row [(a, 01)] the cursor still held. *)
Example stale_base_entry_after_clear :
  runFirstNexts dupSortBit exampleCfg 2 staleCursor =
  [(Some keyA, Some [x05], None); (Some keyA, Some [x01], None);
   (Some keyB, Some [x06], None)].
Proof. reflexivity. Qed.

(** C6 at a key both tables have: the overlay's row is returned. *)
Lemma SeekExact_spec_witness :
  exists r m',
    SeekExact (Some keyK)
              (newCursor [(keyK, [x01])] [(keyK, [x09])] (mutationOf false []) "Plain") =
    Returned (r, m') /\
    r = (Some keyK, Some [x09], None) /\ isPrevFromDb m' = false.
Proof.
  destruct (SeekExact_spec (Some keyK)
              (newCursor [(keyK, [x01])] [(keyK, [x09])] (mutationOf false []) "Plain"))
    as (r & m' & H & Hover & _).
  exists r, m'. split; [exact H|].
  destruct Hover as (v & Hin & Hr & Hp & _).
  - exists [x09]. left. reflexivity.
  - destruct Hin as [Hin|[]]. injection Hin as <-. split; assumption.
Defined.

(** X1 at the table of C1 and C3: the scan keeps the first row, whose
    effective key is deleted. *)
Lemma scan_merges_kept_rows_witness :
  (kv.AutoDupSortKeysConversion (tableConfig exampleCfg "AutoDups") = true ->
   (0 <= dupOffset (tableConfig exampleCfg "AutoDups"))%Z) /\
  Forall (convertible exampleCfg "AutoDups") deletedFirstBase /\
  tableOrdered (isDupSortTable dupSortBit exampleCfg "AutoDups") deletedFirstBase /\
  tableOrdered (isDupSortTable dupSortBit exampleCfg "AutoDups") [] /\
  Forall (fun r : row => fst r <> []) deletedFirstBase /\
  collisionFree dupSortBit (tableConfig exampleCfg "AutoDups") deletedFirstBase /\
  exists rows,
    scan dupSortBit exampleCfg 2
         (newCursor deletedFirstBase [] (mutationOf false [keyABCDE]) "AutoDups") =
    Some rows /\
    Permutation rows
      (keptScanMerged exampleCfg (mutationOf false [keyABCDE]) "AutoDups" dupSortBit
                      deletedFirstBase []).
Proof.
  assert (kv.AutoDupSortKeysConversion (tableConfig exampleCfg "AutoDups") = true ->
          (0 <= dupOffset (tableConfig exampleCfg "AutoDups"))%Z) as Hoff.
  { intros _. vm_compute. discriminate. }
  assert (Forall (convertible exampleCfg "AutoDups") deletedFirstBase) as Hconv.
  { table_conditions; intros _ H; vm_compute in H |- *; discriminate. }
  assert (tableOrdered (isDupSortTable dupSortBit exampleCfg "AutoDups") deletedFirstBase)
    as Hb.
  { unfold tableOrdered. change (isDupSortTable dupSortBit exampleCfg "AutoDups") with true.
    cbv iota. table_conditions; left; reflexivity. }
  assert (tableOrdered (isDupSortTable dupSortBit exampleCfg "AutoDups") []) as Ho.
  { apply SSorted_nil. }
  assert (Forall (fun r : row => fst r <> []) deletedFirstBase) as Hk.
  { table_conditions; discriminate. }
  assert (collisionFree dupSortBit (tableConfig exampleCfg "AutoDups") deletedFirstBase)
    as Hcf.
  { unfold collisionFree. table_conditions; reflexivity. }
  split; [exact Hoff|]. split; [exact Hconv|]. split; [exact Hb|]. split; [exact Ho|].
  split; [exact Hk|]. split; [exact Hcf|].
  apply (scan_merges_kept_rows dupSortBit exampleCfg (mutationOf false [keyABCDE])
           "AutoDups" deletedFirstBase [] Hoff Hconv Hb Ho Hk Hcf 2).
  cbn. lia.
Defined.

(** X2 at an auto-dupsort table with a deleted row after its first and an
    overlay that replaces one base row and adds one. *)
Lemma scan_merge_equivalence_witness :
  (kv.AutoDupSortKeysConversion (tableConfig exampleCfg "AutoDups") = true ->
   (0 <= dupOffset (tableConfig exampleCfg "AutoDups"))%Z) /\
  Forall (convertible exampleCfg "AutoDups") mergeBase /\
  tableOrdered (isDupSortTable dupSortBit exampleCfg "AutoDups") mergeBase /\
  tableOrdered (isDupSortTable dupSortBit exampleCfg "AutoDups") mergeOverlay /\
  Forall (fun r : row => fst r <> []) mergeBase /\
  collisionFree dupSortBit (tableConfig exampleCfg "AutoDups") mergeBase /\
  firstRowAgrees exampleCfg (mutationOf false [keyABCDE]) "AutoDups" mergeBase /\
  exists rows,
    scan dupSortBit exampleCfg 6
         (newCursor mergeBase mergeOverlay (mutationOf false [keyABCDE]) "AutoDups") =
    Some rows /\
    Permutation rows
      (specScanMerged exampleCfg (mutationOf false [keyABCDE]) "AutoDups" dupSortBit
                      mergeBase mergeOverlay).
Proof.
  assert (kv.AutoDupSortKeysConversion (tableConfig exampleCfg "AutoDups") = true ->
          (0 <= dupOffset (tableConfig exampleCfg "AutoDups"))%Z) as Hoff.
  { intros _. vm_compute. discriminate. }
  assert (Forall (convertible exampleCfg "AutoDups") mergeBase) as Hconv.
  { table_conditions; intros _ H; vm_compute in H |- *; discriminate. }
  assert (tableOrdered (isDupSortTable dupSortBit exampleCfg "AutoDups") mergeBase) as Hb.
  { unfold tableOrdered. change (isDupSortTable dupSortBit exampleCfg "AutoDups") with true.
    cbv iota. table_conditions; left; reflexivity. }
  assert (tableOrdered (isDupSortTable dupSortBit exampleCfg "AutoDups") mergeOverlay)
    as Ho.
  { unfold tableOrdered. change (isDupSortTable dupSortBit exampleCfg "AutoDups") with true.
    cbv iota. table_conditions; left; reflexivity. }
  assert (Forall (fun r : row => fst r <> []) mergeBase) as Hk.
  { table_conditions; discriminate. }
  assert (collisionFree dupSortBit (tableConfig exampleCfg "AutoDups") mergeBase) as Hcf.
  { unfold collisionFree. table_conditions; reflexivity. }
  assert (firstRowAgrees exampleCfg (mutationOf false [keyABCDE]) "AutoDups" mergeBase)
    as Hag.
  { intros r H. injection H as <-. reflexivity. }
  split; [exact Hoff|]. split; [exact Hconv|]. split; [exact Hb|]. split; [exact Ho|].
  split; [exact Hk|]. split; [exact Hcf|]. split; [exact Hag|].
  apply (scan_merge_equivalence dupSortBit exampleCfg (mutationOf false [keyABCDE])
           "AutoDups" mergeBase mergeOverlay Hoff Hconv Hb Ho Hk Hcf 6 Hag).
  cbn. lia.
Defined.

(** X3 at a base cursor before a deleted row: [getNextOnDb] steps over
    [(AB, CDEFG)] and returns [(x, 01)]. *)
Lemma getNextOnDb_skips_deleted_rows_witness :
  kv.stepsLeftDecreases listCursor /\
  getNextOnDb exampleCfg Normal skippingCursor =
  Returned ((Some keyX, Some [x01], None),
            setCursor {| lcRows := [(keyA, [x01]); (keyAB, valCDEFG); (keyX, [x01])];
                         lcPos := Some 2 |} skippingCursor) /\
  exists ekey,
    convertAutoDupsort exampleCfg (table skippingCursor) (Some keyX) (Some [x01]) [] =
    Returned ekey /\
    isEntryDeleted (mutation skippingCursor) (table skippingCursor) (contents ekey) = false.
Proof.
  split; [exact listCursor_stepsLeftDecreases|]. split; [reflexivity|].
  apply (getNextOnDb_skips_deleted_rows exampleCfg Normal skippingCursor
           (setCursor {| lcRows := [(keyA, [x01]); (keyAB, valCDEFG); (keyX, [x01])];
                         lcPos := Some 2 |} skippingCursor)
           keyX [x01] listCursor_stepsLeftDecreases).
  reflexivity.
Defined.

(** X4 at the same cursor, on the deleted row: four turns are enough for
    the three steps left. *)
Lemma skipDeleted_fuel_enough_witness :
  kv.stepsLeftDecreases listCursor /\
  kv.stepsLeft (cursor skippingCursor) < 4 /\
  skipDeleted exampleCfg 9 Normal (Some keyAB, Some valCDEFG, None) skippingCursor =
  skipDeleted exampleCfg 4 Normal (Some keyAB, Some valCDEFG, None) skippingCursor.
Proof.
  split; [exact listCursor_stepsLeftDecreases|].
  assert (kv.stepsLeft (cursor skippingCursor) < 4) as Hleft by (cbn; lia).
  split; [exact Hleft|].
  apply (skipDeleted_fuel_enough exampleCfg listCursor_stepsLeftDecreases Normal 4 9
           (Some keyAB, Some valCDEFG, None) skippingCursor).
  - intros _. exact Hleft.
  - lia.
Defined.

(** X5 at the dup-sort table: three turns are enough for the two steps
    left. *)
Lemma deleteDups_fuel_enough_witness :
  kv.stepsLeftDecreases listCursor /\
  kv.valuesHaveKeys listCursor /\
  kv.stepsLeft (cursor dupsCursor) < 3 /\
  deleteDups listDelete 9 (Some keyK) (Some [x01]) None dupsCursor =
  deleteDups listDelete 3 (Some keyK) (Some [x01]) None dupsCursor.
Proof.
  split; [exact listCursor_stepsLeftDecreases|].
  split; [exact listCursor_valuesHaveKeys|].
  assert (kv.stepsLeft (cursor dupsCursor) < 3) as Hleft by (cbn; lia).
  split; [exact Hleft|].
  apply (deleteDups_fuel_enough listDelete listCursor_stepsLeftDecreases
           listCursor_valuesHaveKeys 3 9 (Some keyK) (Some [x01]) None dupsCursor).
  - intros _. exact Hleft.
  - lia.
Defined.

(** X6 at a cursor whose overlay's transaction has ended: [First] returns
    the error with the nil key and the nil value. *)
Lemma errors_come_alone_witness :
  exists r m',
    First dupSortBit exampleCfg closedOverlayCursor = Returned (r, m') /\
    kveErr r <> None /\ kveKey r = None /\ kveValue r = None.
Proof.
  exists (None, None, Some closedErr), closedOverlayCursor.
  assert (First dupSortBit exampleCfg closedOverlayCursor =
          Returned ((None, None, Some closedErr), closedOverlayCursor)) as H
      by reflexivity.
  assert (kveErr (None, None, Some closedErr) <> None) as He by discriminate.
  split; [exact H|]. split; [exact He|].
  exact (proj1 (errors_come_alone dupSortBit exampleCfg) closedOverlayCursor _ _ H He).
Defined.

(** X7 at the dup-sort table, which has no conversion. *)
Lemma plain_table_reads_return_witness :
  kv.stepsLeftDecreases listCursor /\
  plainTable exampleCfg (table dupsCursor) /\
  returnsFrom (Next dupSortBit exampleCfg) dupsCursor /\
  returnsFrom (Last dupSortBit exampleCfg) dupsCursor.
Proof.
  assert (plainTable exampleCfg (table dupsCursor)) as Hp by reflexivity.
  split; [exact listCursor_stepsLeftDecreases|]. split; [exact Hp|].
  destruct (plain_table_reads_return dupSortBit exampleCfg dupsCursor
              listCursor_stepsLeftDecreases Hp)
    as (_ & _ & _ & _ & Hn & _ & _ & Hl & _).
  split; [exact Hn|exact Hl].
Defined.

(** X8 at the auto-dupsort table: the row [(AB, C)] has one byte of value
    and no spare capacity. *)
Lemma short_value_panics_step_witness :
  getNextOnDb exampleCfg Normal shortValueCursor = Panicked "slice bounds out of range" /\
  Next dupSortBit exampleCfg shortValueCursor = Panicked "slice bounds out of range".
Proof.
  destruct (short_value_panics_step dupSortBit exampleCfg shortValueCursor keyAB [x43]
              {| lcRows := [(keyA, [x01]); (keyAB, [x43])]; lcPos := Some 1 |})
    as [Hg Hn]; try reflexivity.
  split; [exact Hg|]. apply Hn. reflexivity.
Defined.

(** X9 at the dup-sort table, from the key [k]. *)
Lemma seek_scan_ordered_witness :
  tableOrdered (isDupSortTable dupSortBit exampleCfg "Dups") dupsBase /\
  tableOrdered (isDupSortTable dupSortBit exampleCfg "Dups") dupsOverlay /\
  Sorted rowLe
    (entriesOf (runSeekNexts dupSortBit exampleCfg (Some keyK) 4
                  (newCursor dupsBase dupsOverlay (mutationOf false []) "Dups"))) /\
  Forall (fun r => bytesLe keyK (fst r))
    (entriesOf (runSeekNexts dupSortBit exampleCfg (Some keyK) 4
                  (newCursor dupsBase dupsOverlay (mutationOf false []) "Dups"))).
Proof.
  assert (tableOrdered (isDupSortTable dupSortBit exampleCfg "Dups") dupsBase) as Hb.
  { unfold tableOrdered. change (isDupSortTable dupSortBit exampleCfg "Dups") with true.
    cbv iota. table_conditions. right. split; reflexivity. }
  assert (tableOrdered (isDupSortTable dupSortBit exampleCfg "Dups") dupsOverlay) as Ho.
  { repeat constructor. }
  split; [exact Hb|]. split; [exact Ho|].
  exact (seek_scan_ordered dupSortBit exampleCfg dupsBase dupsOverlay "Dups" Hb Ho
                           (mutationOf false []) (Some keyK) 4).
Defined.

(** X10 at the auto-dupsort table of X2, from the key [a]. *)
Lemma seek_scan_merges_kept_rows_witness :
  (kv.AutoDupSortKeysConversion (tableConfig exampleCfg "AutoDups") = true ->
   (0 <= dupOffset (tableConfig exampleCfg "AutoDups"))%Z) /\
  Forall (convertible exampleCfg "AutoDups") mergeBase /\
  tableOrdered (isDupSortTable dupSortBit exampleCfg "AutoDups") mergeBase /\
  tableOrdered (isDupSortTable dupSortBit exampleCfg "AutoDups") mergeOverlay /\
  Forall (fun r : row => fst r <> []) mergeBase /\
  collisionFree dupSortBit (tableConfig exampleCfg "AutoDups") mergeBase /\
  exists rows,
    seekScan dupSortBit exampleCfg (Some keyA) 6
             (newCursor mergeBase mergeOverlay (mutationOf false [keyABCDE]) "AutoDups") =
    Some rows /\
    Permutation rows
      (keptScanMerged exampleCfg (mutationOf false [keyABCDE]) "AutoDups" dupSortBit
                      (fromKey (Some keyA) mergeBase) (fromKey (Some keyA) mergeOverlay)).
Proof.
  assert (kv.AutoDupSortKeysConversion (tableConfig exampleCfg "AutoDups") = true ->
          (0 <= dupOffset (tableConfig exampleCfg "AutoDups"))%Z) as Hoff.
  { intros _. vm_compute. discriminate. }
  assert (Forall (convertible exampleCfg "AutoDups") mergeBase) as Hconv.
  { table_conditions; intros _ H; vm_compute in H |- *; discriminate. }
  assert (tableOrdered (isDupSortTable dupSortBit exampleCfg "AutoDups") mergeBase) as Hb.
  { unfold tableOrdered. change (isDupSortTable dupSortBit exampleCfg "AutoDups") with true.
    cbv iota. table_conditions; left; reflexivity. }
  assert (tableOrdered (isDupSortTable dupSortBit exampleCfg "AutoDups") mergeOverlay)
    as Ho.
  { unfold tableOrdered. change (isDupSortTable dupSortBit exampleCfg "AutoDups") with true.
    cbv iota. table_conditions; left; reflexivity. }
  assert (Forall (fun r : row => fst r <> []) mergeBase) as Hk.
  { table_conditions; discriminate. }
  assert (collisionFree dupSortBit (tableConfig exampleCfg "AutoDups") mergeBase) as Hcf.
  { unfold collisionFree. table_conditions; reflexivity. }
  split; [exact Hoff|]. split; [exact Hconv|]. split; [exact Hb|]. split; [exact Ho|].
  split; [exact Hk|]. split; [exact Hcf|].
  apply (seek_scan_merges_kept_rows dupSortBit exampleCfg (mutationOf false [keyABCDE])
           "AutoDups" mergeBase mergeOverlay Hoff Hconv Hb Ho Hk Hcf (Some keyA) 6).
  cbn. lia.
Defined.

(** X11 at the dup-sort table: the base's [(k, 03)] is later than the
    overlay's [(k, 02)]. *)
Lemma Last_returns_later_row_witness :
  exists r m',
    Last dupSortBit exampleCfg dupsCursor = Returned (r, m') /\
    r = (Some keyK, Some [x03], None) /\ isPrevFromDb m' = true.
Proof.
  destruct (Last_returns_later_row dupSortBit exampleCfg dupsCursor
              [(keyK, [x01])] [] (keyK, [x03]) (keyK, [x02]))
    as (r & m' & H & _ & Hdb); try reflexivity.
  exists r, m'. split; [exact H|]. apply Hdb; [reflexivity|].
  intros [Hlt|[_ Hlt]]; discriminate Hlt.
Defined.


(** X13 at a cleared table with the one base row [(a, 01)]. *)
Lemma Last_reads_cleared_table_witness :
  (exists m',
      Last dupSortBit exampleCfg (newCursor [(keyA, [x01])] [] (mutationOf true []) "Dups") =
      Returned ((Some keyA, Some [x01], None), m') /\ isPrevFromDb m' = true) /\
  (exists m',
      First dupSortBit exampleCfg (newCursor [(keyA, [x01])] [] (mutationOf true []) "Dups") =
      Returned ((None, None, None), m')).
Proof.
  destruct (Last_reads_cleared_table dupSortBit exampleCfg (mutationOf true []) "Dups"
              [] (keyA, [x01])) as [HLast HFirst]; try reflexivity; try discriminate.
  split; [exact HLast|]. apply HFirst. reflexivity.
Defined.

(** X14 at the dup-sort table: after [(a, 01)], [NextDup] returns [(b, 02)]
    and the base's [(k, 01)] never comes. *)
Lemma NextDup_leaves_key_and_drops_base_witness :
  exists m1 m2,
    First dupSortBit exampleCfg
          (newCursor [(keyA, [x01]); (keyK, [x01])] [(keyB, [x02]); (keyX, [x03])]
                     (mutationOf false []) "Dups") =
    Returned ((Some keyA, Some [x01], None), m1) /\
    NextDup dupSortBit exampleCfg m1 = Returned ((Some keyB, Some [x02], None), m2) /\
    scanNexts dupSortBit exampleCfg 3 m2 = Some [(keyX, [x03])].
Proof.
  apply (NextDup_leaves_key_and_drops_base dupSortBit exampleCfg (mutationOf false [])
           "Dups"); try reflexivity.
  - unfold tableOrdered. change (isDupSortTable dupSortBit exampleCfg "Dups") with true.
    cbv iota. table_conditions. left. reflexivity.
  - intros r H. injection H as <-. discriminate.
  - cbn. lia.
Defined.

(** X15 at the dup-sort table, after [First] and one [Next]. *)
Lemma Current_returns_last_entry_witness :
  exists m',
    firstThenNexts dupSortBit exampleCfg 1
                   (newCursor dupsBase dupsOverlay (mutationOf false []) "Dups") =
    Returned ((Some keyK, Some [x02], None), m') /\
    Current m' = Returned ((Some keyK, Some [x02], None), m').
Proof.
  assert (tableOrdered (isDupSortTable dupSortBit exampleCfg "Dups") dupsBase) as Hb.
  { unfold tableOrdered. change (isDupSortTable dupSortBit exampleCfg "Dups") with true.
    cbv iota. table_conditions. right. split; reflexivity. }
  assert (tableOrdered (isDupSortTable dupSortBit exampleCfg "Dups") dupsOverlay) as Ho.
  { repeat constructor. }
  eexists. split; [reflexivity|].
  apply (Current_returns_last_entry dupSortBit exampleCfg dupsBase dupsOverlay "Dups"
           Hb Ho (mutationOf false []) 1).
  reflexivity.
Defined.

(** X16 at a cleared table: [SeekExact] of [a] returns the overlay's
    [(a, 05)], and [Next] after it the base's [(a, 01)]. *)
Lemma Next_after_SeekExact_returns_base_row_witness :
  exists m1 m2,
    SeekExact (Some keyA) staleCursor = Returned ((Some keyA, Some [x05], None), m1) /\
    Next dupSortBit exampleCfg m1 = Returned ((Some keyA, Some [x01], None), m2) /\
    isPrevFromDb m2 = true.
Proof.
  apply (Next_after_SeekExact_returns_base_row dupSortBit exampleCfg staleCursor
           keyA [x01] [x05]); try reflexivity; try discriminate.
  intros r H. injection H as <-. reflexivity.
Defined.

(** X17 at the dup-sort table: [Next] returns the overlay's [(k, 02)] and
    keeps it as the overlay's entry. *)
Lemma returned_entry_is_stored_witness :
  exists m',
    Next dupSortBit exampleCfg dupsCursor = Returned ((Some keyK, Some [x02], None), m') /\
    storedEntry m' = {| key := Some keyK; value := Some [x02] |}.
Proof.
  assert (exists m', Next dupSortBit exampleCfg dupsCursor =
                     Returned ((Some keyK, Some [x02], None), m')) as [m' H]
      by (eexists; reflexivity).
  exists m'. split; [exact H|].
  exact (proj1 (returned_entry_is_stored dupSortBit exampleCfg dupsCursor) _ _ _ H).
Defined.

(** X18 at the dup-sort table: after the base's [(k, 01)], [NextNoDup]
    returns the overlay's [(k, 02)]. *)
Lemma NextNoDup_repeats_key_witness :
  exists m1 m2,
    First dupSortBit exampleCfg
          (newCursor dupsBase dupsOverlay (mutationOf false []) "Dups") =
    Returned ((Some keyK, Some [x01], None), m1) /\
    NextNoDup dupSortBit exampleCfg m1 = Returned ((Some keyK, Some [x02], None), m2) /\
    isPrevFromDb m2 = false.
Proof.
  apply (NextNoDup_repeats_key dupSortBit exampleCfg "Dups" dupsBase eq_refl eq_refl
           (mutationOf false []) keyK [x01] [x02] [(keyK, [x03])] []);
    try reflexivity.
  unfold tableOrdered. table_conditions. right. split; reflexivity.
Defined.

(** X19 at the dup-sort table: from the value [02] of the key [k] the
    overlay has [02] and the base [03]. *)
Lemma SeekBothRange_returns_lesser_value_witness :
  exists m',
    SeekBothRange dupSortBit exampleCfg (Some keyK) (Some [x02]) dupsCursor =
    Returned ((Some [x02], None), m').
Proof.
  assert (tableOrdered true dupsBase) as Hb.
  { unfold tableOrdered. table_conditions. right. split; reflexivity. }
  assert ([x02] <> []) as Hv by discriminate.
  exact (SeekBothRange_returns_lesser_value dupSortBit exampleCfg "Dups" dupsBase
           eq_refl eq_refl Hb dupsCursor keyK [x02] eq_refl eq_refl Hv).
Defined.

(** The offset wraps around: with [DupFromLen] the greatest [int] and
    [DupToLen] minus one the offset is the least [int], and the intersection
    skip panics on the slice expression. *)
Example skipIntersection_wrapped_offset_panics :
  dupOffset (tableConfig wrapCfg "Wrap") = (-9223372036854775808)%Z /\
  skipIntersection dupSortBit wrapCfg (Some keyK) (Some keyA) (Some keyK) (Some keyB)
                   Normal (newCursor [] [] (mutationOf false []) "Wrap") =
  Panicked "slice bounds out of range".
Proof. split; reflexivity. Qed.


(** X20 at the auto-dupsort table: the value [C] of the key [AB] with [DEFG]
    behind it in its backing array gives the key [ABCDE]. *)
Lemma convertAutoDupsort_reads_room_witness :
  exists r,
    convertAutoDupsort exampleCfg "AutoDups" (Some keyAB) (Some [x43])
                       [x44; x45; x46; x47] = Returned r /\
    contents r = keyABCDE.
Proof.
  apply (convertAutoDupsort_reads_room exampleCfg "AutoDups" (Some keyAB) [x43]
           [x44; x45; x46; x47]); [reflexivity|reflexivity|cbn; lia].
Defined.
